(** * Delta Bundler: dependency traversal

    A shallow embedding of
    [packages/metro/src/DeltaBundler/traverseDependencies.js] and the
    properties of its incremental dependency graph.

    JavaScript objects that are mutated through several references (the
    [Module] records) live in an explicit heap and are named by references;
    [Map] and [Set] keep their insertion order, as the traversal and the
    linearizer iterate over them.  The [async] functions are split at their
    suspension points: what runs before the first [await] is a function on
    the state, what runs when the awaited promise settles is a step that a
    schedule selects. *)

From Stdlib Require Import String List Arith Lia Bool.
From stdpp Require Import base option list sorting.
Import ListNotations.

#[global] Instance path_eq_dec : EqDecision string := String.string_dec.

(** ** Insertion-ordered [Map<string, V>] *)

Module JSMap.
Definition t (V : Type) : Type := list (string * V).

Section Ops.
Context {V : Type}.

Fixpoint get (m : t V) (k : string) : option V :=
  match m with
  | [] => None
  | (k', v) :: m' => if String.eqb k' k then Some v else get m' k
  end.

Definition has (m : t V) (k : string) : bool :=
  match get m k with Some _ => true | None => false end.

(** [m.set(k, v)]: an existing key keeps its position. *)
Fixpoint set (m : t V) (k : string) (v : V) : t V :=
  match m with
  | [] => [(k, v)]
  | (k', v') :: m' =>
      if String.eqb k' k then (k', v) :: m' else (k', v') :: set m' k v
  end.

Fixpoint delete (m : t V) (k : string) : t V :=
  match m with
  | [] => []
  | (k', v') :: m' =>
      if String.eqb k' k then delete m' k else (k', v') :: delete m' k
  end.

Definition keys (m : t V) : list string := List.map fst m.
Definition values (m : t V) : list V := List.map snd m.

(** [new Map(entries)] and the copy loops [for (const [k, v] of src)
    dst.set(k, v)]. *)
Definition setAll (dst : t V) (src : list (string * V)) : t V :=
  fold_left (fun acc e => set acc (fst e) (snd e)) src dst.

Definition ofEntries (es : list (string * V)) : t V := setAll [] es.
End Ops.
End JSMap.

(** ** Insertion-ordered [Set<string>] *)

Module JSSet.
Definition t : Type := list string.

Fixpoint has (s : t) (x : string) : bool :=
  match s with
  | [] => false
  | y :: s' => if String.eqb y x then true else has s' x
  end.

Definition add (s : t) (x : string) : t := if has s x then s else s ++ [x].

Fixpoint delete (s : t) (x : string) : t :=
  match s with
  | [] => []
  | y :: s' => if String.eqb y x then delete s' x else y :: delete s' x
  end.

Definition size (s : t) : nat := length s.
End JSSet.

(** ** Data model *)

Inductive DependencyType : Type := module_type | script_type | asset_type.

(** Modelled from the spec: the segment tuple type is declared in the
  package [metro-source-map]; the traversal only stores and copies the
  segment sequence, so a tuple of numbers stands for it. *)
Definition MetroSourceMapSegmentTuple : Type := list nat.

Module Output.
Record t : Type := mk {
  code : string;
  map : list MetroSourceMapSegmentTuple;
  source : string;
  type : DependencyType;
}.
End Output.

(** A reference to a [Module] object of the heap. *)
Abbreviation ref := nat (only parsing).

Module Mod.
Record t : Type := mk {
  dependencies : JSMap.t string;
  inverseDependencies : JSSet.t;
  path : string;
  output : Output.t;
}.

Definition withInverse (f : JSSet.t -> JSSet.t) (m : t) : t :=
  mk (dependencies m) (f (inverseDependencies m)) (path m) (output m).
End Mod.

Module Graph.
Record t : Type := mk {
  dependencies : JSMap.t ref;
  entryPoints : list string;
}.
End Graph.

Module Result.
Record t : Type := mk {
  added : JSMap.t ref;
  deleted : JSSet.t;
}.
End Result.

Module Delta.
Record t : Type := mk {
  added : JSMap.t ref;
  modified : JSMap.t ref;
  deleted : JSSet.t;
}.

Definition empty : t := mk [] [] [].
End Delta.

Record TransformResult : Type := mkTransformResult {
tr_dependencies : list string;
tr_output : Output.t;
}.

(** [onProgress] is observed through the trace of its calls, see [Pass]. *)
Record Options : Type := mkOptions {
resolve : string -> string -> string;
transform : string -> TransformResult;
}.

(** The objects a traversal works on: the heap of [Module] objects, the
  graph and the delta of the running pass. *)
Record Store : Type := mkStore {
heap : list Mod.t;
graph : Graph.t;
delta : Delta.t;
}.

Definition setHeap (h : list Mod.t) (s : Store) : Store :=
mkStore h (graph s) (delta s).

Definition setGraphDependencies (d : JSMap.t ref) (s : Store) : Store :=
mkStore (heap s) (Graph.mk d (Graph.entryPoints (graph s))) (delta s).

Definition setDelta (d : Delta.t) (s : Store) : Store :=
mkStore (heap s) (graph s) d.

(** [graph.dependencies.get(path)], as the object it evaluates to. *)
Definition getModule (s : Store) (path : string) : option (ref * Mod.t) :=
match JSMap.get (Graph.dependencies (graph s)) path with
| None => None
| Some r => match heap s !! r with
            | None => None
            | Some m => Some (r, m)
            end
end.

(** ** Synchronous graph operations *)

Definition emptyOutput : Output.t :=
Output.mk EmptyString [] EmptyString module_type.

(** [createModule(filePath, graph)]: a fresh object, stored under
  [filePath] (replacing what the graph had there). *)
Definition createModule (filePath : string) (s : Store) : ref * Store :=
let r := length (heap s) in
let module := Mod.mk [] [] filePath emptyOutput in
(r, setGraphDependencies
      (JSMap.set (Graph.dependencies (graph s)) filePath r)
      (setHeap (heap s ++ [module]) s)).

(** [delta.deleted.add(path)]. *)
Definition markDeleted (path : string) (s : Store) : Store :=
setDelta
  (Delta.mk (Delta.added (delta s)) (Delta.modified (delta s))
     (JSSet.add (Delta.deleted (delta s)) path))
  s.

(** [removeDependency(parentModule, absolutePath, graph, delta)].  The
  recursion of the source is not bounded by its arguments; [depth] is the
  number of nested calls the stack admits, and [None] is the call that
  does not return within it. *)
Fixpoint removeDependency (depth : nat) (parentModule : Mod.t)
  (absolutePath : string) (s : Store) : option Store :=
match depth with
| 0 => None
| S depth' =>
    match getModule s absolutePath with
    | None => Some s
    | Some (r, module) =>
        let module' :=
          Mod.withInverse
            (fun i => JSSet.delete i (Mod.path parentModule)) module in
        let s1 := setHeap (<[r := module']> (heap s)) s in
        if 0 <? JSSet.size (Mod.inverseDependencies module') then Some s1
        else
          let s2 := markDeleted (Mod.path module') s1 in
          match
            fold_left
              (fun acc depAbsolutePath =>
                 match acc with
                 | Some s' =>
                     removeDependency depth' module' depAbsolutePath s'
                 | None => None
                 end)
              (JSMap.values (Mod.dependencies module')) (Some s2)
          with
          | None => None
          | Some s3 =>
              Some (setGraphDependencies
                      (JSMap.delete (Graph.dependencies (graph s3))
                         (Mod.path module'))
                      s3)
          end
    end
end.

(** The loop [for (const depAbsolutePath of module.dependencies.values())
  removeDependency(module, depAbsolutePath, graph, delta)]. *)
Definition removeEach (depth : nat) (parentModule : Mod.t)
  (paths : list string) (s : option Store) : option Store :=
fold_left
  (fun acc depAbsolutePath =>
     match acc with
     | Some s' => removeDependency depth parentModule depAbsolutePath s'
     | None => None
     end)
  paths s.

(** [resolveDependencies(parentPath, dependencies, options)]. *)
Definition resolveDependencies (parentPath : string)
  (dependencies : list string) (options : Options) : JSMap.t string :=
JSMap.ofEntries
  (List.map
     (fun relativePath =>
        (relativePath, resolve options parentPath relativePath))
     dependencies).

(** ** The traversal pass *)

(** A call of [processModule] that has not returned yet: it waits for its
  transform, or for the additions it started. *)
Inductive Status : Type := AwaitTransform | AwaitChildren | Completed.

Record Task : Type := mkTask {
t_module : ref;
(** [previousDependencies], read before the transform is awaited *)
t_previousDependencies : JSMap.t string;
(** the [traverseDependenciesForSingleFile] call whose counters the
    callbacks [onDependencyAdd] and [onDependencyAdded] close over *)
t_root : nat;
(** the [processModule] call whose [addDependency] made this call *)
t_parent : option nat;
t_status : Status;
}.

Definition setStatus (st : Status) (t : Task) : Task :=
mkTask (t_module t) (t_previousDependencies t) (t_root t) (t_parent t) st.

(** One call of [options.onProgress(numProcessed, total)]. *)
Record Progress : Type := mkProgress {
pr_root : nat;
pr_numProcessed : nat;
pr_total : nat;
}.

Record Pass : Type := mkPass {
store : Store;
tasks : list Task;
(** [numProcessed] and [total] of each single-file traversal *)
counters : list (nat * nat);
(** the calls of [onProgress], oldest first *)
progress : list Progress;
}.

Definition setStore (s : Store) (p : Pass) : Pass :=
mkPass s (tasks p) (counters p) (progress p).

Definition setTasks (ts : list Task) (p : Pass) : Pass :=
mkPass (store p) ts (counters p) (progress p).

(** [options.onProgress && options.onProgress(numProcessed, total)] in the
  closure of root [root]. *)
Definition onProgress (root : nat) (p : Pass) : Pass :=
let c := default (0, 0) (counters p !! root) in
mkPass (store p) (tasks p) (counters p)
  (progress p ++ [mkProgress root (fst c) (snd c)]).

(** [() => { total++; onProgress(numProcessed, total) }]. *)
Definition onDependencyAdd (root : nat) (p : Pass) : Pass :=
onProgress root
  (mkPass (store p) (tasks p)
     (alter (fun c => (fst c, S (snd c))) root (counters p)) (progress p)).

(** [() => { numProcessed++; onProgress(numProcessed, total) }]; the last
  two statements of [traverseDependenciesForSingleFile] are the same. *)
Definition onDependencyAdded (root : nat) (p : Pass) : Pass :=
onProgress root
  (mkPass (store p) (tasks p)
     (alter (fun c => (S (fst c), snd c)) root (counters p)) (progress p)).

(** [processModule(module, ...)] up to [await options.transform(...)]. *)
Definition processModule_call (module : ref) (previous : JSMap.t string)
  (root : nat) (parent : option nat) (p : Pass) : Pass :=
setTasks (tasks p ++ [mkTask module previous root parent AwaitTransform]) p.

(** [module.inverseDependencies.add(path)] on the object at [r]. *)
Definition addInverse (r : ref) (path : string) (s : Store) : Store :=
setHeap
  (alter (Mod.withInverse (fun i => JSSet.add i path)) r (heap s)) s.

(** [delta.added.set(path, module)]. *)
Definition markAdded (path : string) (r : ref) (s : Store) : Store :=
setDelta
  (Delta.mk (JSMap.set (Delta.added (delta s)) path r)
     (Delta.modified (delta s)) (Delta.deleted (delta s)))
  s.

(** [delta.modified.set(path, module)]. *)
Definition markModified (path : string) (r : ref) (s : Store) : Store :=
setDelta
  (Delta.mk (Delta.added (delta s))
     (JSMap.set (Delta.modified (delta s)) path r)
     (Delta.deleted (delta s)))
  s.

(** [addDependency(parentModule, path, ...)] up to the suspension of the
  [processModule] call it makes; [self] is the calling [processModule]. *)
Definition addDependency (parentModule : Mod.t) (path : string)
  (root self : nat) (p : Pass) : Pass :=
match getModule (store p) path with
| Some (r, existingModule) =>
    setStore (addInverse r (Mod.path parentModule) (store p)) p
| None =>
    let (r, s1) := createModule path (store p) in
    let s2 := addInverse r (Mod.path parentModule) s1 in
    let s3 := markAdded path r s2 in
    processModule_call r [] root (Some self)
      (onDependencyAdd root (setStore s3 p))
end.

(** The loop [for (const [relativePath, absolutePath] of
  previousDependencies)] of [processModule]. *)
Definition removeDropped (depth : nat) (module : Mod.t)
  (currentDependencies previousDependencies : JSMap.t string)
  (s : Store) : option Store :=
fold_left
  (fun acc e =>
     match acc with
     | Some s' =>
         if JSMap.has currentDependencies (fst e) then Some s'
         else removeDependency depth module (snd e) s'
     | None => None
     end)
  previousDependencies (Some s).

(** The callbacks of [Array.from(currentDependencies.entries()).map] in
  [processModule], each up to its suspension. *)
Definition addNew (module : Mod.t)
  (previousDependencies currentDependencies : JSMap.t string)
  (root self : nat) (p : Pass) : Pass :=
fold_left
  (fun acc e =>
     if JSMap.has previousDependencies (fst e) then acc
     else addDependency module (snd e) root self acc)
  currentDependencies p.

(** The part of [processModule] that runs when the transform of task
  [self] has settled: the module is updated, the dropped specifiers are
  removed one after the other, and an addition is started for every new
  specifier. *)
Definition processModule_resume (options : Options) (depth : nat)
  (self : nat) (task : Task) (p : Pass) : option Pass :=
match heap (store p) !! t_module task with
| None => None
| Some module0 =>
    let previousDependencies := t_previousDependencies task in
    let result := transform options (Mod.path module0) in
    let currentDependencies :=
      resolveDependencies (Mod.path module0) (tr_dependencies result)
        options in
    let module :=
      Mod.mk (JSMap.setAll [] currentDependencies)
        (Mod.inverseDependencies module0) (Mod.path module0)
        (tr_output result) in
    let s1 :=
      setHeap (<[t_module task := module]> (heap (store p))) (store p) in
    match
      removeDropped depth module currentDependencies previousDependencies s1
    with
    | None => None
    | Some s2 =>
        let p3 :=
          addNew module previousDependencies currentDependencies
            (t_root task) self (setStore s2 p) in
        Some (setTasks (alter (setStatus AwaitChildren) self (tasks p3)) p3)
    end
end.

(** Every [processModule] call made by the additions of task [self] has
  returned: the [Promise.all] of [self] is fulfilled. *)
Definition childrenCompleted (self : nat) (ts : list Task) : bool :=
forallb
  (fun t =>
     match t_parent t with
     | Some q =>
         if Nat.eqb q self then
           match t_status t with Completed => true | _ => false end
         else true
     | None => true
     end)
  ts.

(** What follows the return of the [processModule] call [self]: in
  [addDependency] the callback [onDependencyAdded], in
  [traverseDependenciesForSingleFile] its last two statements. *)
Definition processModule_return (self : nat) (task : Task) (p : Pass) : Pass :=
onDependencyAdded (t_root task)
  (setTasks (alter (setStatus Completed) self (tasks p)) p).

(** One step of the pass: the promise that task [self] waits for settles. *)
Definition advance (options : Options) (depth : nat) (self : nat)
  (p : Pass) : option Pass :=
match tasks p !! self with
| None => None
| Some task =>
    match t_status task with
    | AwaitTransform => processModule_resume options depth self task p
    | AwaitChildren =>
        if childrenCompleted self (tasks p)
        then Some (processModule_return self task p)
        else None
    | Completed => None
    end
end.

(** A schedule names, step after step, the task that continues. *)
Fixpoint run (options : Options) (depth : nat) (schedule : list nat)
  (p : Pass) : option Pass :=
match schedule with
| [] => Some p
| self :: schedule' =>
    match advance options depth self p with
    | None => None
    | Some p' => run options depth schedule' p'
    end
end.

Definition allCompleted (ts : list Task) : bool :=
forallb (fun t => match t_status t with Completed => true | _ => false end)
  ts.

(** [traverseDependenciesForSingleFile(module, ...)] up to the suspension
  of its [processModule] call. *)
Definition traverseDependenciesForSingleFile (r : ref) (module : Mod.t)
  (p : Pass) : Pass :=
let root := length (counters p) in
let p1 :=
  onProgress root
    (mkPass (store p) (tasks p) (counters p ++ [(0, 1)]) (progress p)) in
processModule_call r (Mod.dependencies module) root None p1.

(** The callback of [paths.map] in [traverseDependencies], up to its
  suspension. *)
Definition traversePath (path : string) (p : Pass) : Pass :=
match getModule (store p) path with
| None => p
| Some (r, module) =>
    traverseDependenciesForSingleFile r module
      (setStore (markModified (Mod.path module) r (store p)) p)
end.

(** The second half of [traverseDependencies]: the delta is folded into the
  result. *)
Definition reconcileDeleted (modified : JSMap.t ref)
  (acc : JSMap.t ref * JSSet.t) (path : string) : JSMap.t ref * JSSet.t :=
let markedAsAdded := JSMap.has (fst acc) path in
let added := JSMap.delete (fst acc) path in
if negb markedAsAdded || JSMap.has modified path
then (added, JSSet.add (snd acc) path)
else (added, snd acc).

Definition reconcile (d : Delta.t) : Result.t :=
let added := JSMap.setAll [] (Delta.added d) in
let added := JSMap.setAll added (Delta.modified d) in
let modified := JSMap.setAll [] (Delta.modified d) in
let r := fold_left (reconcileDeleted modified) (Delta.deleted d) (added, []) in
Result.mk (fst r) (snd r).

Definition beginTraverse (paths : list string) (h : list Mod.t)
  (g : Graph.t) : Pass :=
fold_left (fun p path => traversePath path p) paths
  (mkPass (mkStore h g Delta.empty) [] [] []).

(** [traverseDependencies(paths, graph, options)]: the result, with the
  state the pass ends in.  [None]: the schedule is not one of this pass,
  it ends before the pass does, or a removal exceeds [depth]. *)
Definition traverseDependencies (options : Options) (depth : nat)
  (schedule : list nat) (paths : list string) (h : list Mod.t)
  (g : Graph.t) : option (Result.t * Pass) :=
match run options depth schedule (beginTraverse paths h g) with
| None => None
| Some p =>
    if allCompleted (tasks p)
    then Some (reconcile (delta (store p)), p)
    else None
end.

(** ** Linearization *)

(** The first argument of [reorderDependencies]: the synthetic parent made
  by [reorderGraph], which has no [path], or a [Module]. *)
Inductive Node : Type :=
| SyntheticParent (dependencies : JSMap.t string)
| ModuleNode (r : ref) (module : Mod.t).

Definition nodeDependencies (n : Node) : JSMap.t string :=
match n with
| SyntheticParent d => d
| ModuleNode _ m => Mod.dependencies m
end.

(** The test [if (module.path)]: [undefined] and the empty string fail it. *)
Definition nodePath (n : Node) : option (string * ref) :=
match n with
| SyntheticParent _ => None
| ModuleNode r m =>
    if String.eqb (Mod.path m) EmptyString then None
    else Some (Mod.path m, r)
end.

(** [dependencies.get(path)] as a node. *)
Definition getNode (h : list Mod.t) (dependencies : JSMap.t ref)
  (path : string) : option Node :=
match JSMap.get dependencies path with
| None => None
| Some r => match h !! r with
            | None => None
            | Some m => Some (ModuleNode r m)
            end
end.

(** [reorderDependencies(module, dependencies, orderedDependencies)];
  [depth] bounds the nesting of the calls as in [removeDependency]. *)
Fixpoint reorderDependencies (depth : nat) (h : list Mod.t) (module : Node)
  (dependencies orderedDependencies : JSMap.t ref) : option (JSMap.t ref) :=
match depth with
| 0 => None
| S depth' =>
    let forEach ordered :=
      fold_left
        (fun acc e =>
           match acc with
           | None => None
           | Some o =>
               match getNode h dependencies (snd e) with
               | Some dep => reorderDependencies depth' h dep dependencies o
               | None => Some o
               end
           end)
        (nodeDependencies module) (Some ordered) in
    match nodePath module with
    | Some (path, r) =>
        if JSMap.has orderedDependencies path then Some orderedDependencies
        else forEach (JSMap.set orderedDependencies path r)
    | None => forEach orderedDependencies
    end
end.

(** [reorderGraph(graph)]. *)
Definition reorderGraph (depth : nat) (h : list Mod.t) (g : Graph.t)
  : option Graph.t :=
let parent :=
  SyntheticParent
    (JSMap.ofEntries (List.map (fun e => (e, e)) (Graph.entryPoints g))) in
match reorderDependencies depth h parent (Graph.dependencies g) [] with
| None => None
| Some dependencies => Some (Graph.mk dependencies (Graph.entryPoints g))
end.

(** ** Cold start *)

(** [initialTraverseDependencies(graph, options)]. *)
Definition initialTraverseDependencies (options : Options) (depth : nat)
  (schedule : list nat) (h : list Mod.t) (g : Graph.t)
  : option (Result.t * Pass) :=
let s0 :=
  fold_left (fun s entryPoint => snd (createModule entryPoint s))
    (Graph.entryPoints g) (mkStore h g Delta.empty) in
match
  traverseDependencies options depth schedule (Graph.entryPoints g)
    (heap s0) (graph s0)
with
| None => None
| Some (_, p) =>
    match reorderGraph depth (heap (store p)) (graph (store p)) with
    | None => None
    | Some g' =>
        Some (Result.mk (Graph.dependencies g') [],
              setStore (mkStore (heap (store p)) g' (delta (store p))) p)
    end
end.

(** ** The scenario of the specification

  Entry [A]; [A] imports [B] and [C]; [B] and [C] import [D].  Specifiers
  resolve to themselves. *)
Module Scenario.
Definition A : string := "A"%string.
Definition B : string := "B"%string.
Definition C : string := "C"%string.
Definition D : string := "D"%string.

Definition out (src : string) : Output.t :=
  Output.mk src [] src module_type.

Definition imports (path : string) : list string :=
  if String.eqb path A then [B; C]
  else if String.eqb path B then [D]
  else if String.eqb path C then [D]
  else [].

Definition options : Options :=
  mkOptions (fun _ specifier => specifier)
    (fun path => mkTransformResult (imports path) (out path)).

Definition emptyGraph : Graph.t := Graph.mk [] [A].

(** The paths of the project. *)
Definition paths : list string := [A; B; C; D].

(** After the edit: [A] imports [C] only. *)
Definition imports' (path : string) : list string :=
  if String.eqb path A then [C] else imports path.

Definition options' : Options :=
  mkOptions (fun _ specifier => specifier)
    (fun path => mkTransformResult (imports' path) (out path)).
End Scenario.

(** * Properties *)

(** ** Maps and sets *)

Ltac case_eqb :=
match goal with
| |- context [String.eqb ?a ?b] =>
    destruct (String.eqb_spec a b); subst; simpl; try congruence
| H : context [String.eqb ?a ?b] |- _ =>
    destruct (String.eqb_spec a b); subst; simpl in H; try congruence
end.

Module JSMapFacts.
Import JSMap.

Section Facts.
Context {V : Type}.
Implicit Types (m : t V) (k : string) (v : V).

Lemma has_get m k : has m k = true <-> exists v, get m k = Some v.
Proof.
  unfold has. destruct (get m k); split; intros H; eauto; try congruence.
  destruct H; congruence.
Qed.

Lemma has_false_get m k : has m k = false <-> get m k = None.
Proof. unfold has. destruct (get m k); split; congruence. Qed.

Lemma get_set_eq m k v : get (set m k v) k = Some v.
Proof.
  induction m as [|[k' v'] m IH]; simpl.
  - now rewrite String.eqb_refl.
  - destruct (String.eqb_spec k' k); subst; simpl.
    + now rewrite String.eqb_refl.
    + destruct (String.eqb_spec k' k); congruence.
Qed.

Lemma get_set_ne m k k' v : k <> k' -> get (set m k v) k' = get m k'.
Proof.
  intros Hne. induction m as [|[k0 v0] m IH]; simpl.
  - destruct (String.eqb_spec k k'); congruence.
  - destruct (String.eqb_spec k0 k); subst; simpl.
    + destruct (String.eqb_spec k k'); congruence.
    + now rewrite IH.
Qed.

Lemma has_set m k k' v :
  has (set m k v) k' = (String.eqb k k' || has m k')%bool.
Proof.
  unfold has. destruct (String.eqb_spec k k'); subst; simpl.
  - now rewrite get_set_eq.
  - now rewrite get_set_ne.
Qed.

Lemma get_delete_eq m k : get (delete m k) k = None.
Proof.
  induction m as [|[k' v'] m IH]; simpl; [reflexivity|].
  destruct (String.eqb_spec k' k); subst; simpl; [assumption|].
  destruct (String.eqb_spec k' k); congruence.
Qed.

Lemma get_delete_ne m k k' : k <> k' -> get (delete m k) k' = get m k'.
Proof.
  intros Hne. induction m as [|[k0 v0] m IH]; simpl; [reflexivity|].
  destruct (String.eqb_spec k0 k); subst; simpl.
  - destruct (String.eqb_spec k k'); congruence.
  - now rewrite IH.
Qed.

Lemma has_delete m k k' :
  has (delete m k) k' = (negb (String.eqb k k') && has m k')%bool.
Proof.
  unfold has. destruct (String.eqb_spec k k'); subst; simpl.
  - now rewrite get_delete_eq.
  - now rewrite get_delete_ne.
Qed.

Lemma get_delete_Some m k k' v :
  get (delete m k) k' = Some v -> k <> k' /\ get m k' = Some v.
Proof.
  destruct (String.eqb_spec k k'); subst.
  - rewrite get_delete_eq. discriminate.
  - rewrite get_delete_ne by assumption. auto.
Qed.

Lemma get_elem_of m k v : get m k = Some v -> (k, v) ∈ m.
Proof.
  induction m as [|[k' v'] m IH]; simpl; [discriminate|].
  destruct (String.eqb_spec k' k); subst.
  - intros [= ->]. apply list_elem_of_here.
  - intros H. apply list_elem_of_further. auto.
Qed.

Lemma elem_of_has m k v : (k, v) ∈ m -> has m k = true.
Proof.
  unfold has. induction m as [|[k' v'] m IH]; simpl.
  - intros H. now apply elem_of_nil in H.
  - intros [[= -> ->]|H]%elem_of_cons.
    + now rewrite String.eqb_refl.
    + destruct (String.eqb k' k); auto.
Qed.

Lemma has_keys m k : has m k = true <-> k ∈ keys m.
Proof.
  unfold has, keys. induction m as [|[k' v'] m IH]; simpl.
  - rewrite elem_of_nil. split; [discriminate|tauto].
  - rewrite elem_of_cons. destruct (String.eqb_spec k' k); subst.
    + split; auto.
    + rewrite IH. split; [auto|]. intros [H|H]; congruence.
Qed.

Lemma get_values m k v : get m k = Some v -> v ∈ values m.
Proof.
  intros H. apply get_elem_of in H. unfold values.
  apply list_elem_of_In, in_map_iff. exists (k, v).
  split; [reflexivity|]. now apply list_elem_of_In.
Qed.

Lemma elem_of_values m v :
  v ∈ values m -> exists k, (k, v) ∈ m.
Proof.
  unfold values. intros H. apply list_elem_of_In, in_map_iff in H.
  destruct H as [[k v'] [E H]]. simpl in E. subst.
  exists k. now apply list_elem_of_In.
Qed.

Lemma keys_set_absent m k v :
  has m k = false -> keys (set m k v) = keys m ++ [k].
Proof.
  unfold has, keys. induction m as [|[k' v'] m IH]; simpl; [reflexivity|].
  destruct (String.eqb_spec k' k); subst; [discriminate|].
  intros H. simpl. now rewrite IH.
Qed.

Lemma keys_set_present m k v : has m k = true -> keys (set m k v) = keys m.
Proof.
  unfold has, keys. induction m as [|[k' v'] m IH]; simpl; [discriminate|].
  destruct (String.eqb_spec k' k); subst; [reflexivity|].
  intros H. simpl. now rewrite IH.
Qed.

Lemma delete_missing m k : has m k = false -> delete m k = m.
Proof.
  unfold has. induction m as [|[k' v'] m IH]; simpl; [reflexivity|].
  destruct (String.eqb_spec k' k); subst; [discriminate|].
  intros H. now rewrite IH.
Qed.

Lemma length_delete m k : length (delete m k) <= length m.
Proof.
  induction m as [|[k' v'] m IH]; simpl; [lia|].
  destruct (String.eqb k' k); simpl; lia.
Qed.

Lemma length_delete_present m k :
  has m k = true -> length (delete m k) < length m.
Proof.
  unfold has. induction m as [|[k' v'] m IH]; simpl; [discriminate|].
  destruct (String.eqb_spec k' k); subst; simpl.
  - intros _. pose proof (length_delete m k). lia.
  - intros H. apply IH in H. lia.
Qed.

Lemma has_setAll (dst src : t V) k :
  has (setAll dst src) k = (has dst k || has src k)%bool.
Proof.
  unfold setAll. revert dst.
  induction src as [|[k' v'] src IH]; intros dst; simpl.
  - now rewrite orb_false_r.
  - rewrite IH, has_set. unfold has at 3 4. simpl.
    destruct (String.eqb_spec k' k); subst; simpl.
    + now rewrite !orb_true_r.
    + reflexivity.
Qed.
End Facts.
End JSMapFacts.

Module JSSetFacts.
Import JSSet.

Lemma has_elem_of s x : has s x = true <-> x ∈ s.
Proof.
  induction s as [|y s IH]; simpl.
  - rewrite elem_of_nil. split; [discriminate|tauto].
  - rewrite elem_of_cons. destruct (String.eqb_spec y x); subst.
    + split; auto.
    + rewrite IH. split; [auto|]. intros [H|H]; [congruence|assumption].
Qed.

Lemma has_false_elem_of s x : has s x = false <-> x ∉ s.
Proof.
  rewrite <- has_elem_of. destruct (has s x); split; congruence.
Qed.

Lemma elem_of_add s x y : y ∈ add s x <-> y = x \/ y ∈ s.
Proof.
  unfold add. destruct (has s x) eqn:E.
  - apply has_elem_of in E. split; [auto|]. intros [->|H]; auto.
  - rewrite elem_of_app, list_elem_of_singleton. tauto.
Qed.

Lemma has_add s x y : has (add s x) y = (String.eqb x y || has s y)%bool.
Proof.
  apply eq_true_iff_eq. rewrite orb_true_iff, !has_elem_of, elem_of_add.
  rewrite String.eqb_eq. split; intros [H|H]; auto.
Qed.

Lemma elem_of_delete s x y : y ∈ delete s x <-> y <> x /\ y ∈ s.
Proof.
  induction s as [|z s IH]; simpl.
  - rewrite elem_of_nil. tauto.
  - destruct (String.eqb_spec z x); subst; simpl;
      rewrite ?elem_of_cons, IH.
    + split; [tauto|]. intros [H1 [H2|H2]]; [congruence|auto].
    + split; [intros [->|[H1 H2]]; auto|]. intros [H1 [H2|H2]]; auto.
Qed.

Lemma delete_absent s x : x ∉ s -> delete s x = s.
Proof.
  induction s as [|z s IH]; simpl; [reflexivity|].
  rewrite not_elem_of_cons. intros [H1 H2].
  destruct (String.eqb_spec z x); subst; [congruence|].
  now rewrite IH.
Qed.

Lemma NoDup_add s x : NoDup s -> NoDup (add s x).
Proof.
  intros H. unfold add. destruct (has s x) eqn:E; [assumption|].
  apply has_false_elem_of in E.
  apply NoDup_app; split_and!; auto.
  - intros y Hy Hy'. apply list_elem_of_singleton in Hy'. subst.
    exact (E Hy).
  - apply NoDup_singleton.
Qed.
End JSSetFacts.

(** ** Removal of an edge *)

Definition dropInverse (parentModule module : Mod.t) : Mod.t :=
Mod.withInverse (fun i => JSSet.delete i (Mod.path parentModule)) module.

Definition graphDelete (path : string) (s : Store) : Store :=
setGraphDependencies (JSMap.delete (Graph.dependencies (graph s)) path) s.

Lemma removeDependency_unfold depth parentModule absolutePath s :
removeDependency (S depth) parentModule absolutePath s =
match getModule s absolutePath with
| None => Some s
| Some (r, module) =>
    let module' := dropInverse parentModule module in
    let s1 := setHeap (<[r := module']> (heap s)) s in
    if 0 <? JSSet.size (Mod.inverseDependencies module') then Some s1
    else
      match
        removeEach depth module' (JSMap.values (Mod.dependencies module'))
          (Some (markDeleted (Mod.path module') s1))
      with
      | None => None
      | Some s3 => Some (graphDelete (Mod.path module') s3)
      end
end.
Proof. reflexivity. Qed.

Lemma removeEach_None depth parentModule paths :
removeEach depth parentModule paths None = None.
Proof. induction paths; simpl; auto. Qed.

Lemma removeEach_cons depth parentModule d ds s :
removeEach depth parentModule (d :: ds) (Some s) =
removeEach depth parentModule ds (removeDependency depth parentModule d s).
Proof. reflexivity. Qed.

(** The calls of [removeDependency] that return, as a relation between the
  store before and the store after. *)
Inductive Removes : Mod.t -> string -> Store -> Store -> Prop :=
| Removes_absent parentModule absolutePath s :
  getModule s absolutePath = None ->
  Removes parentModule absolutePath s s
| Removes_kept parentModule absolutePath s r module :
  getModule s absolutePath = Some (r, module) ->
  Mod.inverseDependencies (dropInverse parentModule module) <> [] ->
  Removes parentModule absolutePath s
    (setHeap (<[r := dropInverse parentModule module]> (heap s)) s)
| Removes_cascade parentModule absolutePath s r module s3 :
  getModule s absolutePath = Some (r, module) ->
  Mod.inverseDependencies (dropInverse parentModule module) = [] ->
  RemovesEach (dropInverse parentModule module)
    (JSMap.values (Mod.dependencies module))
    (markDeleted (Mod.path module)
       (setHeap (<[r := dropInverse parentModule module]> (heap s)) s))
    s3 ->
  Removes parentModule absolutePath s (graphDelete (Mod.path module) s3)
with RemovesEach : Mod.t -> list string -> Store -> Store -> Prop :=
| RemovesEach_nil parentModule s : RemovesEach parentModule [] s s
| RemovesEach_cons parentModule d ds s s1 s2 :
  Removes parentModule d s s1 ->
  RemovesEach parentModule ds s1 s2 ->
  RemovesEach parentModule (d :: ds) s s2.

Scheme Removes_mut := Minimality for Removes Sort Prop
with RemovesEach_mut := Minimality for RemovesEach Sort Prop.

Lemma size_zero (i : JSSet.t) : (0 <? JSSet.size i) = false -> i = [].
Proof. destruct i; simpl; [reflexivity|discriminate]. Qed.

Lemma size_pos (i : JSSet.t) : (0 <? JSSet.size i) = true -> i <> [].
Proof. destruct i; simpl; [discriminate|congruence]. Qed.

Lemma removeDependency_Removes depth :
forall parentModule absolutePath s s',
  removeDependency depth parentModule absolutePath s = Some s' ->
  Removes parentModule absolutePath s s'.
Proof.
induction depth as [|depth IH]; intros parentModule absolutePath s s' H.
- discriminate.
- rewrite removeDependency_unfold in H.
  destruct (getModule s absolutePath) as [[r module]|] eqn:G.
  2:{ injection H as <-. now constructor. }
  cbv zeta in H.
  destruct (0 <? _) eqn:Z.
  + injection H as <-. apply Removes_kept; [assumption|].
    now apply size_pos.
  + destruct (removeEach _ _ _ _) as [s3|] eqn:E; [|discriminate].
    injection H as <-.
    change (Mod.path (dropInverse parentModule module))
      with (Mod.path module) in *.
    change (Mod.dependencies (dropInverse parentModule module))
      with (Mod.dependencies module) in E.
    apply Removes_cascade with (r := r);
      [assumption|now apply size_zero|].
    revert E.
    generalize (markDeleted (Mod.path module)
        (setHeap (<[r:=dropInverse parentModule module]> (heap s)) s)).
    generalize (dropInverse parentModule module) as parent'.
    induction (JSMap.values (Mod.dependencies module)) as [|d ds IHds];
      intros parent' s0 E.
    * injection E as <-. constructor.
    * rewrite removeEach_cons in E.
      destruct (removeDependency depth parent' d s0) as [s1|] eqn:E1.
      -- econstructor; [apply IH; eassumption|]. now apply IHds.
      -- now rewrite removeEach_None in E.
Qed.

(** The graph names its modules by their own path. *)
Definition graph_ok (s : Store) : Prop :=
forall k r, JSMap.get (Graph.dependencies (graph s)) k = Some r ->
  exists m, heap s !! r = Some m /\ Mod.path m = k.

Lemma getModule_Some s k r m :
getModule s k = Some (r, m) <->
JSMap.get (Graph.dependencies (graph s)) k = Some r /\ heap s !! r = Some m.
Proof.
unfold getModule. destruct (JSMap.get _ k) as [r'|]; [|split; [|intros []]; congruence].
destruct (heap s !! r') as [m'|] eqn:E.
- split; [intros [= -> ->]; auto|]. intros [[= ->] H]. congruence.
- split; [discriminate|]. intros [[= ->] H]. congruence.
Qed.

Lemma getModule_path s k r m :
graph_ok s -> getModule s k = Some (r, m) -> Mod.path m = k.
Proof.
intros W [G H]%getModule_Some. destruct (W _ _ G) as (m' & H' & P).
congruence.
Qed.

Lemma getModule_has s k r m :
getModule s k = Some (r, m) ->
JSMap.has (Graph.dependencies (graph s)) k = true.
Proof. intros [G _]%getModule_Some. apply JSMapFacts.has_get. eauto. Qed.

Lemma has_getModule s k :
graph_ok s -> JSMap.has (Graph.dependencies (graph s)) k = true ->
exists r m, getModule s k = Some (r, m).
Proof.
intros W [r G]%JSMapFacts.has_get. destruct (W _ _ G) as (m & H & _).
exists r, m. now apply getModule_Some.
Qed.

(** What a removal may change: inverse dependencies lose members, the
  graph loses modules, the deleted set gains paths. *)
Record shrinks (s s' : Store) : Prop := mkShrinks {
shr_length : length (heap s') = length (heap s);
shr_entry : Graph.entryPoints (graph s') = Graph.entryPoints (graph s);
shr_added : Delta.added (delta s') = Delta.added (delta s);
shr_modified : Delta.modified (delta s') = Delta.modified (delta s);
shr_deleted :
  forall x, x ∈ Delta.deleted (delta s) -> x ∈ Delta.deleted (delta s');
shr_nodup :
  NoDup (Delta.deleted (delta s)) -> NoDup (Delta.deleted (delta s'));
shr_graph :
  forall k r, JSMap.get (Graph.dependencies (graph s')) k = Some r ->
              JSMap.get (Graph.dependencies (graph s)) k = Some r;
shr_heap :
  forall r m, heap s !! r = Some m ->
    exists m', heap s' !! r = Some m' /\
      Mod.dependencies m' = Mod.dependencies m /\
      Mod.path m' = Mod.path m /\
      Mod.output m' = Mod.output m /\
      (forall q, q ∈ Mod.inverseDependencies m' ->
                 q ∈ Mod.inverseDependencies m);
shr_detached :
  forall r,
    (forall k, JSMap.get (Graph.dependencies (graph s)) k <> Some r) ->
    heap s' !! r = heap s !! r;
}.

Lemma shrinks_refl s : shrinks s s.
Proof. constructor; eauto 10. Qed.

Lemma shrinks_trans s1 s2 s3 : shrinks s1 s2 -> shrinks s2 s3 -> shrinks s1 s3.
Proof.
intros [] []. constructor; try congruence; eauto.
- intros r m H. destruct (shr_heap0 _ _ H) as (m' & H' & ? & ? & ? & ?).
  destruct (shr_heap1 _ _ H') as (m'' & H'' & ? & ? & ? & ?).
  exists m''. split_and!; try congruence; eauto.
- intros r H. rewrite shr_detached1, shr_detached0; auto.
  intros k Hk. eapply H; eauto.
Qed.

Lemma shrinks_dropInverse parentModule s c r module :
getModule s c = Some (r, module) ->
shrinks s (setHeap (<[r := dropInverse parentModule module]> (heap s)) s).
Proof.
intros [G H]%getModule_Some.
constructor; simpl; auto.
- apply length_insert.
- intros r' m' H'. destruct (decide (r = r')) as [<-|Hne].
  + rewrite list_lookup_insert_eq by (eapply lookup_lt_Some; eauto).
    assert (m' = module) as -> by congruence.
    eexists; split; [reflexivity|]. simpl. split_and!; auto.
    intros q Hq. now apply JSSetFacts.elem_of_delete in Hq.
  + rewrite list_lookup_insert_ne by assumption. eauto 10.
- intros r' Hr'. apply list_lookup_insert_ne. intros <-. eapply Hr'; eauto.
Qed.

Lemma shrinks_markDeleted path s : shrinks s (markDeleted path s).
Proof.
constructor; simpl; eauto 10.
- intros x Hx. apply JSSetFacts.elem_of_add. auto.
- apply JSSetFacts.NoDup_add.
Qed.

Lemma shrinks_graphDelete path s : shrinks s (graphDelete path s).
Proof.
constructor; simpl; eauto 10.
intros k r H. now apply JSMapFacts.get_delete_Some in H.
Qed.

Lemma Removes_shrinks parentModule absolutePath s s' :
Removes parentModule absolutePath s s' -> shrinks s s'.
Proof.
revert parentModule absolutePath s s'.
apply (Removes_mut (fun _ _ s s' => shrinks s s')
         (fun _ _ s s' => shrinks s s')).
- intros. apply shrinks_refl.
- intros. eapply shrinks_dropInverse; eauto.
- intros parentModule absolutePath s r module s3 G Z _ IH.
  eapply shrinks_trans; [eapply shrinks_dropInverse; eauto|].
  eapply shrinks_trans; [apply shrinks_markDeleted|].
  eapply shrinks_trans; [apply IH|]. apply shrinks_graphDelete.
- intros. apply shrinks_refl.
- intros. eapply shrinks_trans; eauto.
Qed.

Lemma RemovesEach_shrinks parentModule ds s s' :
RemovesEach parentModule ds s s' -> shrinks s s'.
Proof.
induction 1; [apply shrinks_refl|].
eapply shrinks_trans; [eapply Removes_shrinks|]; eauto.
Qed.

Lemma shrinks_graph_ok s s' : shrinks s s' -> graph_ok s -> graph_ok s'.
Proof.
intros Hs W k r G. apply (shr_graph _ _ Hs) in G.
destruct (W _ _ G) as (m & H & P).
destruct (shr_heap _ _ Hs _ _ H) as (m' & H' & _ & P' & _).
exists m'. split; congruence.
Qed.

Lemma shrinks_has s s' k :
shrinks s s' ->
JSMap.has (Graph.dependencies (graph s')) k = true ->
JSMap.has (Graph.dependencies (graph s)) k = true.
Proof.
intros Hs [r G]%JSMapFacts.has_get. apply JSMapFacts.has_get.
exists r. now apply (shr_graph _ _ Hs).
Qed.

(** A module that the graph had before and has no more. *)
Definition removed (s s' : Store) (k : string) : Prop :=
JSMap.has (Graph.dependencies (graph s)) k = true /\
JSMap.has (Graph.dependencies (graph s')) k = false.

Lemma shrinks_has_false s s' k :
shrinks s s' ->
JSMap.has (Graph.dependencies (graph s)) k = false ->
JSMap.has (Graph.dependencies (graph s')) k = false.
Proof.
intros Hs H. destruct (JSMap.has (Graph.dependencies (graph s')) k) eqn:E;
  [|reflexivity].
apply (shrinks_has _ _ _ Hs) in E. congruence.
Qed.

Lemma removed_later s s1 s2 q :
shrinks s1 s2 -> removed s s1 q -> removed s s2 q.
Proof. intros Hs [H1 H2]. split; eauto using shrinks_has_false. Qed.

Lemma removed_earlier s s1 s2 q :
shrinks s s1 -> removed s1 s2 q -> removed s s2 q.
Proof. intros Hs [H1 H2]. split; eauto using shrinks_has. Qed.

Lemma getModule_before s s1 k r m1 :
graph_ok s -> shrinks s s1 -> getModule s1 k = Some (r, m1) ->
exists m, getModule s k = Some (r, m) /\
          Mod.dependencies m1 = Mod.dependencies m.
Proof.
intros W Hs [G H]%getModule_Some. apply (shr_graph _ _ Hs) in G.
destruct (W _ _ G) as (m & Hm & _).
destruct (shr_heap _ _ Hs _ _ Hm) as (m' & Hm' & D & _).
exists m. split; [now apply getModule_Some|congruence].
Qed.

Lemma getModule_after s s1 k r m :
shrinks s s1 -> getModule s k = Some (r, m) ->
JSMap.has (Graph.dependencies (graph s1)) k = true ->
exists m1, getModule s1 k = Some (r, m1) /\ heap s1 !! r = Some m1.
Proof.
intros Hs [G H]%getModule_Some [r1 G1]%JSMapFacts.has_get.
pose proof (shr_graph _ _ Hs _ _ G1) as G'.
assert (r1 = r) as -> by congruence.
destruct (shr_heap _ _ Hs _ _ H) as (m1 & H1 & _).
exists m1. split; [now apply getModule_Some|assumption].
Qed.

Lemma incl_nil_eq (l : list string) : (forall q, q ∈ l -> q ∈ @nil string) -> l = [].
Proof.
destruct l as [|x l]; [reflexivity|]. intros H.
specialize (H x (list_elem_of_here _ _)). now apply elem_of_nil in H.
Qed.

Lemma shrinks_inverse_nil s s' r m :
shrinks s s' -> heap s !! r = Some m -> Mod.inverseDependencies m = [] ->
exists m', heap s' !! r = Some m' /\ Mod.inverseDependencies m' = [].
Proof.
intros Hs H Z. destruct (shr_heap _ _ Hs _ _ H) as (m' & H' & _ & _ & _ & I).
exists m'. split; [assumption|]. apply incl_nil_eq. now rewrite <- Z.
Qed.

(** What the calls that return have done: [pp] is the path of the parent,
  [cs] the children the calls were made for. *)
Record cascade (pp : string) (cs : list string) (s s' : Store) : Prop :=
mkCascade {
cas_removed :
  forall k r m,
    getModule s k = Some (r, m) ->
    JSMap.has (Graph.dependencies (graph s')) k = false ->
    k ∈ Delta.deleted (delta s') /\
    (exists m', heap s' !! r = Some m' /\ Mod.inverseDependencies m' = []) /\
    (k ∈ cs \/
     exists k2 r2 m2,
       getModule s k2 = Some (r2, m2) /\
       JSMap.has (Graph.dependencies (graph s')) k2 = false /\
       k ∈ JSMap.values (Mod.dependencies m2));
cas_dropped :
  forall k r m m',
    getModule s k = Some (r, m) -> heap s' !! r = Some m' ->
    forall q, q ∈ Mod.inverseDependencies m ->
              q ∉ Mod.inverseDependencies m' ->
              (q = pp /\ k ∈ cs) \/ removed s s' q;
cas_deleted :
  forall x, x ∈ Delta.deleted (delta s') ->
            x ∈ Delta.deleted (delta s) \/ removed s s' x;
}.

Lemma cascade_id pp cs s : cascade pp cs s s.
Proof.
constructor.
- intros k r m G H. apply getModule_has in G. congruence.
- intros k r m m' [_ G]%getModule_Some H q Hq Hq'.
  assert (m' = m) as -> by congruence. contradiction.
- auto.
Qed.

Lemma cascade_kept parentModule c s r module :
graph_ok s ->
getModule s c = Some (r, module) ->
cascade (Mod.path parentModule) [c] s
  (setHeap (<[r := dropInverse parentModule module]> (heap s)) s).
Proof.
intros W G. constructor; simpl.
- intros k r0 m0 G0 H. apply getModule_has in G0. congruence.
- intros k r0 m0 m' G0 H q Hq Hq'.
  pose proof (getModule_path _ _ _ _ W G0) as P0.
  pose proof (getModule_path _ _ _ _ W G) as Pc.
  apply getModule_Some in G0 as [_ G0].
  apply getModule_Some in G as [_ G].
  destruct (decide (r = r0)) as [<-|Hne].
  + rewrite list_lookup_insert_eq in H by (eapply lookup_lt_Some; eauto).
    injection H as <-. assert (m0 = module) as -> by congruence.
    simpl in Hq'. rewrite JSSetFacts.elem_of_delete in Hq'.
    left. split; [|rewrite <- P0, Pc; apply list_elem_of_here].
    destruct (decide (q = Mod.path parentModule)); [assumption|].
    exfalso. auto.
  + rewrite list_lookup_insert_ne in H by assumption.
    assert (m' = m0) as -> by congruence. contradiction.
- auto.
Qed.

Lemma cascade_seq pp d ds s s1 s2 :
graph_ok s -> shrinks s s1 -> shrinks s1 s2 ->
cascade pp [d] s s1 -> cascade pp ds s1 s2 ->
cascade pp (d :: ds) s s2.
Proof.
intros W S1 S2 C1 C2. constructor.
- intros k r m G H.
  destruct (JSMap.has (Graph.dependencies (graph s1)) k) eqn:E.
  + destruct (getModule_after _ _ _ _ _ S1 G E) as (m1 & G1 & _).
    destruct (cas_removed _ _ _ _ C2 _ _ _ G1 H) as (D & I & R).
    split_and!; [assumption..|].
    destruct R as [R|(k2 & r2 & m2 & G2 & H2 & R)].
    * left. now apply list_elem_of_further.
    * right. destruct (getModule_before _ _ _ _ _ W S1 G2) as (m2' & G2' & Dp).
      exists k2, r2, m2'. split_and!; [assumption..|congruence].
  + destruct (cas_removed _ _ _ _ C1 _ _ _ G E) as (D & (m' & I & Z) & R).
    split_and!.
    * now apply (shr_deleted _ _ S2).
    * eapply shrinks_inverse_nil; eauto.
    * destruct R as [R|(k2 & r2 & m2 & G2 & H2 & R)].
      -- left. apply list_elem_of_singleton in R. subst. apply list_elem_of_here.
      -- right. exists k2, r2, m2.
         split_and!; eauto using shrinks_has_false.
- intros k r m m2 G H2 q Hq Hq2.
  pose proof G as [_ H]%getModule_Some.
  destruct (shr_heap _ _ S1 _ _ H) as (m1 & H1 & _).
  destruct (JSSet.has (Mod.inverseDependencies m1) q) eqn:E.
  + apply JSSetFacts.has_elem_of in E.
    destruct (JSMap.has (Graph.dependencies (graph s1)) k) eqn:E1.
    * destruct (getModule_after _ _ _ _ _ S1 G E1) as (m1' & G1 & H1').
      assert (m1' = m1) as -> by congruence.
      destruct (cas_dropped _ _ _ _ C2 _ _ _ _ G1 H2 q E Hq2) as [[-> Hk]|R];
        [left; split; [reflexivity|now apply list_elem_of_further]|right].
      eapply removed_earlier; eauto.
    * destruct (cas_removed _ _ _ _ C1 _ _ _ G E1) as (_ & (m' & I & Z) & _).
      assert (m' = m1) as -> by congruence.
      rewrite Z in E. now apply elem_of_nil in E.
  + apply JSSetFacts.has_false_elem_of in E.
    destruct (cas_dropped _ _ _ _ C1 _ _ _ _ G H1 q Hq E) as [[-> Hk]|R];
      [left; split; [reflexivity|]|right].
    { apply list_elem_of_singleton in Hk. subst. apply list_elem_of_here. }
    eapply removed_later; eauto.
- intros x Hx. destruct (cas_deleted _ _ _ _ C2 _ Hx) as [Hx1|R].
  + destruct (cas_deleted _ _ _ _ C1 _ Hx1) as [Hx0|R]; [now left|right].
    eapply removed_later; eauto.
  + right. eapply removed_earlier; eauto.
Qed.

Lemma cascade_module parentModule c s r module s3 :
graph_ok s ->
getModule s c = Some (r, module) ->
Mod.inverseDependencies (dropInverse parentModule module) = [] ->
let s2 :=
  markDeleted (Mod.path module)
    (setHeap (<[r := dropInverse parentModule module]> (heap s)) s) in
shrinks s2 s3 ->
cascade (Mod.path module) (JSMap.values (Mod.dependencies module)) s2 s3 ->
cascade (Mod.path parentModule) [c] s (graphDelete (Mod.path module) s3).
Proof.
intros W G Z s2 S23 C.
pose proof (getModule_path _ _ _ _ W G) as Pc.
pose proof G as [Gc Hc]%getModule_Some.
assert (S02 : shrinks s s2).
{ eapply shrinks_trans; [eapply shrinks_dropInverse; eauto|].
  apply shrinks_markDeleted. }
assert (Hc2 : heap s2 !! r = Some (dropInverse parentModule module)).
{ simpl. apply list_lookup_insert_eq. eapply lookup_lt_Some; eauto. }
assert (Other : forall k r0 m0, getModule s k = Some (r0, m0) -> k <> c ->
                  getModule s2 k = Some (r0, m0)).
{ intros k r0 m0 G0 Hne. pose proof (getModule_path _ _ _ _ W G0) as Pk.
  apply getModule_Some in G0 as [G0 H0]. apply getModule_Some.
  split; [assumption|]. simpl. rewrite list_lookup_insert_ne; [assumption|].
  intros <-. congruence. }
assert (Gone : removed s (graphDelete (Mod.path module) s3) c).
{ split; [eapply getModule_has; eauto|]. simpl. rewrite Pc.
  apply JSMapFacts.has_false_get, JSMapFacts.get_delete_eq. }
assert (Later : forall q, removed s2 s3 q ->
                  removed s (graphDelete (Mod.path module) s3) q).
{ intros q [R1 R2]. split; [assumption|].
  eapply shrinks_has_false; [apply shrinks_graphDelete|assumption]. }
constructor.
- intros k r0 m0 G0 H. destruct (decide (k = c)) as [->|Hne].
  + assert (r0 = r /\ m0 = module) as [-> ->].
    { rewrite G in G0. now injection G0 as <- <-. }
    split_and!.
    * simpl. apply (shr_deleted _ _ S23). simpl.
      apply JSSetFacts.elem_of_add. now left.
    * simpl. eapply shrinks_inverse_nil; eauto.
    * left. apply list_elem_of_here.
  + simpl in H. rewrite JSMapFacts.has_delete in H.
    destruct (String.eqb_spec (Mod.path module) k) as [E|_]; [congruence|].
    simpl in H.
    destruct (cas_removed _ _ _ _ C _ _ _ (Other _ _ _ G0 Hne) H)
      as (D & I & R).
    split_and!; [assumption..|]. right.
    destruct R as [R|(k2 & r2 & m2 & G2 & H2 & R)].
    * exists c, r, module. split_and!; [assumption|apply Gone|assumption].
    * destruct (getModule_before _ _ _ _ _ W S02 G2) as (m2' & G2' & Dp).
      exists k2, r2, m2'. split_and!; [assumption| |congruence].
      eapply shrinks_has_false; [apply shrinks_graphDelete|assumption].
- intros k r0 m0 m' G0 H q Hq Hq'. simpl in H.
  destruct (decide (k = c)) as [->|Hne].
  + assert (r0 = r /\ m0 = module) as [-> ->].
    { rewrite G in G0. now injection G0 as <- <-. }
    left. split; [|apply list_elem_of_here].
    destruct (decide (q = Mod.path parentModule)); [assumption|].
    exfalso. simpl in Z.
    assert (q ∈ JSSet.delete (Mod.inverseDependencies module)
                  (Mod.path parentModule))
      by (apply JSSetFacts.elem_of_delete; auto).
    rewrite Z in H0. now apply elem_of_nil in H0.
  + right.
    destruct (cas_dropped _ _ _ _ C _ _ _ _ (Other _ _ _ G0 Hne) H q Hq Hq')
      as [[-> _]|R]; [|now apply Later].
    rewrite Pc at 2. exact Gone.
- intros x Hx. simpl in Hx.
  destruct (cas_deleted _ _ _ _ C _ Hx) as [Hx2|R]; [|right; now apply Later].
  simpl in Hx2. apply JSSetFacts.elem_of_add in Hx2 as [->|Hx0]; [|now left].
  right. rewrite Pc at 2. exact Gone.
Qed.

Lemma Removes_cascade_facts parentModule absolutePath s s' :
Removes parentModule absolutePath s s' ->
graph_ok s -> cascade (Mod.path parentModule) [absolutePath] s s'.
Proof.
revert parentModule absolutePath s s'.
apply (Removes_mut
         (fun parent c s s' =>
            graph_ok s -> cascade (Mod.path parent) [c] s s')
         (fun parent cs s s' =>
            graph_ok s -> cascade (Mod.path parent) cs s s')).
- intros. apply cascade_id.
- intros. eapply cascade_kept; eauto.
- intros parentModule c s r module s3 G Z R IH W.
  eapply cascade_module; eauto.
  + eapply RemovesEach_shrinks; eauto.
  + apply IH. eapply shrinks_graph_ok; [|exact W].
    eapply shrinks_trans; [eapply shrinks_dropInverse; eauto|].
    apply shrinks_markDeleted.
- intros. apply cascade_id.
- intros parentModule d ds s s1 s2 R1 IH1 R2 IH2 W.
  pose proof (Removes_shrinks _ _ _ _ R1) as S1.
  eapply cascade_seq; eauto.
  + eapply RemovesEach_shrinks; eauto.
  + apply IH2. eapply shrinks_graph_ok; eauto.
Qed.

(** ** Termination of the cascade

  [removeDependency] returns when every edge of the graph is recorded in
  the inverse dependencies of its target.  [stack] holds the modules
  whose removal is under way: they have no referrer left and their own
  edges are being taken back. *)




Lemma filter_length_le {A} (f g : A -> bool) (l : list A) :
(forall x, x ∈ l -> f x = true -> g x = true) ->
length (List.filter f l) <= length (List.filter g l).
Proof.
induction l as [|x l IH]; simpl; [lia|]. intros H.
assert (IH' := IH (fun y Hy => H y (list_elem_of_further _ _ _ Hy))).
destruct (f x) eqn:F.
- rewrite (H x (list_elem_of_here _ _) F). simpl. lia.
- destruct (g x); simpl; lia.
Qed.

Lemma filter_length_lt {A} (f g : A -> bool) (l : list A) (a : A) :
(forall x, x ∈ l -> f x = true -> g x = true) ->
a ∈ l -> f a = false -> g a = true ->
length (List.filter f l) < length (List.filter g l).
Proof.
induction l as [|x l IH]; simpl; intros H Ha Fa Ga.
- now apply elem_of_nil in Ha.
- assert (H' : forall y, y ∈ l -> f y = true -> g y = true)
    by (intros y Hy; apply H; now apply list_elem_of_further).
  apply elem_of_cons in Ha as [<-|Ha].
  + rewrite Fa, Ga. simpl. pose proof (filter_length_le f g l H'). lia.
  + specialize (IH H' Ha Fa Ga). destruct (f x) eqn:F.
    * rewrite (H x (list_elem_of_here _ _) F). simpl. lia.
    * destruct (g x); simpl; lia.
Qed.

Lemma filter_keys_delete {V} (f : string -> bool) (m : JSMap.t V) k :
length (List.filter f (JSMap.keys (JSMap.delete m k))) <=
length (List.filter f (JSMap.keys m)).
Proof.
induction m as [|[k' v'] m IH]; simpl; [lia|].
destruct (String.eqb k' k); simpl; destruct (f k'); simpl; lia.
Qed.



Lemma getModule_dropInverse parentModule s c r module k r0 m0 :
graph_ok s -> getModule s c = Some (r, module) ->
getModule (setHeap (<[r := dropInverse parentModule module]> (heap s)) s) k
  = Some (r0, m0) ->
(k = c /\ r0 = r /\ m0 = dropInverse parentModule module) \/
(k <> c /\ getModule s k = Some (r0, m0)).
Proof.
intros W G [G0 H0]%getModule_Some. simpl in G0, H0.
pose proof G as [Gc Hc]%getModule_Some.
destruct (decide (r0 = r)) as [->|Hne].
- rewrite list_lookup_insert_eq in H0 by (eapply lookup_lt_Some; eauto).
  injection H0 as <-. left.
  destruct (W _ _ G0) as (m & Hm & Pm). destruct (W _ _ Gc) as (m' & Hm' & Pm').
  split_and!; congruence.
- rewrite list_lookup_insert_ne in H0 by congruence. right.
  split; [|now apply getModule_Some]. intros ->. congruence.
Qed.



Lemma getModule_graphDelete c s k r m :
getModule (graphDelete c s) k = Some (r, m) <->
c <> k /\ getModule s k = Some (r, m).
Proof.
rewrite !getModule_Some. simpl. split.
- intros [G H]. apply JSMapFacts.get_delete_Some in G. tauto.
- intros [Hne [G H]]. now rewrite JSMapFacts.get_delete_ne.
Qed.

Lemma getModule_markDeleted p s k : getModule (markDeleted p s) k = getModule s k.
Proof. reflexivity. Qed.


(** Executable forms of [graph_ok] and [recorded]. *)
Definition graph_okb (s : Store) : bool :=
forallb
  (fun e =>
     match heap s !! snd e with
     | Some m => String.eqb (Mod.path m) (fst e)
     | None => false
     end)
  (Graph.dependencies (graph s)).


Lemma graph_okb_sound s : graph_okb s = true -> graph_ok s.
Proof.
unfold graph_okb. rewrite forallb_forall. intros H k r G.
apply JSMapFacts.get_elem_of, list_elem_of_In, H in G. simpl in G.
destruct (heap s !! r) as [m|]; [|discriminate].
exists m. split; [reflexivity|]. now apply String.eqb_eq.
Qed.







(** ** Entry points *)

(** A sequence of calls [removeDependency(parent, child, graph, delta)]. *)
Definition removeCalls (depth : nat) (calls : list (Mod.t * string))
  (s : Store) : option Store :=
fold_left
  (fun acc call =>
     match acc with
     | Some s' => removeDependency depth (fst call) (snd call) s'
     | None => None
     end)
  calls (Some s).

(** No module of the graph imports [e]. *)
Definition unreferenced (s : Store) (e : string) : Prop :=
forall k rk mk, getModule s k = Some (rk, mk) ->
                e ∉ JSMap.values (Mod.dependencies mk).

Definition unreferencedb (s : Store) (e : string) : bool :=
forallb
  (fun en =>
     match heap s !! snd en with
     | Some mk => negb (JSSet.has (JSMap.values (Mod.dependencies mk)) e)
     | None => true
     end)
  (Graph.dependencies (graph s)).

Lemma unreferencedb_sound s e : unreferencedb s e = true -> unreferenced s e.
Proof.
unfold unreferencedb. rewrite forallb_forall.
intros H k rk mk [G Hm]%getModule_Some.
apply JSMapFacts.get_elem_of, list_elem_of_In, H in G. simpl in G.
rewrite Hm in G. apply negb_true_iff in G.
now apply JSSetFacts.has_false_elem_of.
Qed.

Lemma removeDependency_keeps depth parentModule c s s' e :
graph_ok s -> removeDependency depth parentModule c s = Some s' ->
JSMap.has (Graph.dependencies (graph s)) e = true ->
c <> e -> unreferenced s e ->
JSMap.has (Graph.dependencies (graph s')) e = true /\ unreferenced s' e.
Proof.
intros W E He Hc U. apply removeDependency_Removes in E.
pose proof (Removes_shrinks _ _ _ _ E) as Sh.
pose proof (Removes_cascade_facts _ _ _ _ E W) as C.
split.
- destruct (JSMap.has (Graph.dependencies (graph s')) e) eqn:He';
    [reflexivity|exfalso].
  destruct (has_getModule _ _ W He) as (r & m & G).
  destruct (cas_removed _ _ _ _ C _ _ _ G He')
    as (_ & _ & [R|(k2 & r2 & m2 & G2 & _ & R)]).
  + apply list_elem_of_singleton in R. congruence.
  + exact (U _ _ _ G2 R).
- intros k rk mk G.
  destruct (getModule_before _ _ _ _ _ W Sh G) as (m & G' & D).
  rewrite D. eapply U; eauto.
Qed.

(** C4, as the code has it.  An entry point that no module of the graph
  imports, and that is not itself the child of a removed edge, keeps its
  Module record through every sequence of removals. *)
Theorem entryPoint_kept depth calls :
forall s s' e,
  graph_ok s -> removeCalls depth calls s = Some s' ->
  e ∈ Graph.entryPoints (graph s) ->
  JSMap.has (Graph.dependencies (graph s)) e = true ->
  unreferenced s e ->
  (forall call, call ∈ calls -> snd call <> e) ->
  e ∈ Graph.entryPoints (graph s') /\
  JSMap.has (Graph.dependencies (graph s')) e = true.
Proof.
unfold removeCalls.
induction calls as [|[parentModule c] calls IH]; intros s s' e W E He Hg U Hc.
- injection E as <-. auto.
- simpl in E.
  destruct (removeDependency depth parentModule c s) as [s1|] eqn:E1.
  2:{ exfalso. clear -E. induction calls; simpl in E; [discriminate|auto]. }
  pose proof (Removes_shrinks _ _ _ _ (removeDependency_Removes _ _ _ _ _ E1))
    as Sh.
  destruct (removeDependency_keeps _ _ _ _ _ e W E1 Hg) as [Hg1 U1]; auto.
  { apply (Hc (parentModule, c)), list_elem_of_here. }
  apply (IH s1); auto.
  + eapply shrinks_graph_ok; eauto.
  + now rewrite (shr_entry _ _ Sh).
  + intros call Hcall. apply Hc. now apply list_elem_of_further.
Qed.

(** An entry point in an import cycle. *)
Module Cycle.
Definition E : string := "E"%string.
Definition A : string := "A"%string.

Definition imports (path : string) : list string :=
  if String.eqb path E then [A] else if String.eqb path A then [E] else [].

Definition options : Options :=
  mkOptions (fun _ specifier => specifier)
    (fun path => mkTransformResult (imports path) emptyOutput).

(** After the edit: [E] imports nothing. *)
Definition imports' (path : string) : list string :=
  if String.eqb path A then [E] else [].

Definition options' : Options :=
  mkOptions (fun _ specifier => specifier)
    (fun path => mkTransformResult (imports' path) emptyOutput).

(** The graph a cold start builds. *)
Definition heap0 : list Mod.t :=
  [Mod.mk [(A, A)] [A] E emptyOutput; Mod.mk [(E, E)] [E] A emptyOutput].

Definition graph0 : Graph.t := Graph.mk [(E, 0); (A, 1)] [E].
End Cycle.

Example Cycle_coldStart :
  match
    initialTraverseDependencies Cycle.options 5 [0; 1; 1; 0] []
      (Graph.mk [] [Cycle.E])
  with
  | Some (_, p) =>
      heap (store p) = Cycle.heap0 /\ graph (store p) = Cycle.graph0
  | None => False
  end.
Proof. vm_compute. auto. Qed.

Example Cycle_traverse :
  match
    traverseDependencies Cycle.options' 5 [0; 0] [Cycle.E] Cycle.heap0
      Cycle.graph0
  with
  | Some (res, p) =>
      Graph.entryPoints (graph (store p)) = [Cycle.E] /\
      Graph.dependencies (graph (store p)) = [] /\
      Result.deleted res = [Cycle.A; Cycle.E]
  | None => False
  end.
Proof. vm_compute. auto. Qed.

(** C4 fails on the code: the entry point [E] is imported by [A]; when [E]
    stops importing [A], the cascade removes [A] and then [E]. *)
Lemma entryPoint_removed :
  ~ (forall options depth schedule paths h g res p e,
       graph_ok (mkStore h g Delta.empty) ->
       traverseDependencies options depth schedule paths h g = Some (res, p) ->
       e ∈ Graph.entryPoints g ->
       JSMap.has (Graph.dependencies g) e = true ->
       JSMap.has (Graph.dependencies (graph (store p))) e = true).
Proof.
  intros H.
  destruct (traverseDependencies Cycle.options' 5 [0; 0] [Cycle.E] Cycle.heap0
              Cycle.graph0) as [[res p]|] eqn:E;
    [|vm_compute in E; discriminate].
  assert (K := H _ _ _ _ _ _ _ _ Cycle.E
                 (graph_okb_sound (mkStore Cycle.heap0 Cycle.graph0 Delta.empty)
                    eq_refl)
                 E (list_elem_of_here _ _) eq_refl).
  vm_compute in E. injection E as <- <-. vm_compute in K. discriminate.
Qed.

(** The graph of [Scenario] once [A] has been updated to import [C] only;
    the edge from [A] to [B] is still to be removed. *)
Module Edited.
Import Scenario.

Definition moduleA : Mod.t := Mod.mk [(C, C)] [] A (out A).
Definition moduleB : Mod.t := Mod.mk [(D, D)] [A] B (out B).
Definition moduleC : Mod.t := Mod.mk [(D, D)] [A] C (out C).
Definition moduleD : Mod.t := Mod.mk [] [B; C] D (out D).

Definition store0 : Store :=
  mkStore [moduleA; moduleB; moduleC; moduleD]
    (Graph.mk [(A, 0); (B, 1); (D, 3); (C, 2)] [A]) Delta.empty.
End Edited.


Lemma entryPoint_kept_witness :
  exists s',
    removeCalls 5 [(Edited.moduleA, Scenario.B)] Edited.store0 = Some s' /\
    Scenario.A ∈ Graph.entryPoints (graph s') /\
    JSMap.has (Graph.dependencies (graph s')) Scenario.A = true.
Proof.
  eexists. split; [vm_compute; reflexivity|].
  eapply (entryPoint_kept 5 [(Edited.moduleA, Scenario.B)] Edited.store0).
  - apply graph_okb_sound. reflexivity.
  - vm_compute. reflexivity.
  - apply list_elem_of_here.
  - reflexivity.
  - apply unreferencedb_sound. reflexivity.
  - intros call [->|H]%elem_of_cons; [discriminate|].
    now apply elem_of_nil in H.
Defined.

(** Referrer retention on [Scenario]: [B] stops importing [D] while [C]
    still does. *)
Example referrer_retention :
  let moduleB' := Mod.mk [] [Scenario.A] Scenario.B (Scenario.out Scenario.B) in
  let s :=
    mkStore
      [Mod.mk [(Scenario.B, Scenario.B); (Scenario.C, Scenario.C)] []
         Scenario.A (Scenario.out Scenario.A);
       moduleB'; Edited.moduleC; Edited.moduleD]
      (Graph.mk [(Scenario.A, 0); (Scenario.B, 1); (Scenario.D, 3);
                 (Scenario.C, 2)] [Scenario.A])
      Delta.empty in
  removeDependency 1 moduleB' Scenario.D s =
  Some (setHeap
          (<[3 := Mod.mk [] [Scenario.C] Scenario.D (Scenario.out Scenario.D)]>
             (heap s)) s).
Proof. reflexivity. Qed.

(** ** Invariants of a pass *)

Lemma removeDropped_shrinks depth module current previous :
  forall s s',
    removeDropped depth module current previous s = Some s' -> shrinks s s'.
Proof.
  unfold removeDropped.
  induction previous as [|e previous IH]; intros s s' H; simpl in H.
  - injection H as <-. apply shrinks_refl.
  - destruct (JSMap.has current (fst e)); [now apply IH|].
    destruct (removeDependency depth module (snd e) s) as [s1|] eqn:E.
    + eapply shrinks_trans; [|apply IH; eassumption].
      eapply Removes_shrinks, removeDependency_Removes; eauto.
    + exfalso. clear -H. induction previous; simpl in H; [discriminate|auto].
Qed.

Lemma addDependency_deleted parentModule path root self p :
  Delta.deleted (delta (store (addDependency parentModule path root self p)))
  = Delta.deleted (delta (store p)).
Proof.
  unfold addDependency. destruct (getModule (store p) path) as [[r m]|];
    reflexivity.
Qed.

Lemma addNew_deleted module previous current root self :
  forall p,
    Delta.deleted (delta (store (addNew module previous current root self p)))
    = Delta.deleted (delta (store p)).
Proof.
  unfold addNew. induction current as [|e current IH]; intros p; simpl;
    [reflexivity|].
  rewrite IH. destruct (JSMap.has previous (fst e)); [reflexivity|].
  apply addDependency_deleted.
Qed.

Lemma run_invariant (I : Pass -> Prop) options depth :
  (forall self p p', I p -> advance options depth self p = Some p' -> I p') ->
  forall schedule p p', I p -> run options depth schedule p = Some p' -> I p'.
Proof.
  intros Step. induction schedule as [|self schedule IH]; intros p p' Hp H;
    simpl in H.
  - now injection H as <-.
  - destruct (advance options depth self p) as [p1|] eqn:E; [|discriminate].
    eauto.
Qed.

Lemma traversePath_store path p :
  heap (store (traversePath path p)) = heap (store p) /\
  graph (store (traversePath path p)) = graph (store p) /\
  Delta.added (delta (store (traversePath path p))) =
    Delta.added (delta (store p)) /\
  Delta.deleted (delta (store (traversePath path p))) =
    Delta.deleted (delta (store p)).
Proof.
  unfold traversePath. destruct (getModule (store p) path) as [[r m]|]; auto.
Qed.

Lemma traversePaths_store paths :
  forall p,
    let p' := fold_left (fun p path => traversePath path p) paths p in
    heap (store p') = heap (store p) /\
    graph (store p') = graph (store p) /\
    Delta.added (delta (store p')) = Delta.added (delta (store p)) /\
    Delta.deleted (delta (store p')) = Delta.deleted (delta (store p)).
Proof.
  induction paths as [|path paths IH]; intros p; simpl; auto.
  destruct (IH (traversePath path p)) as (H1 & H2 & H3 & H4).
  destruct (traversePath_store path p) as (T1 & T2 & T3 & T4).
  split_and!; congruence.
Qed.

Lemma beginTraverse_store paths h g :
  heap (store (beginTraverse paths h g)) = h /\
  graph (store (beginTraverse paths h g)) = g /\
  Delta.added (delta (store (beginTraverse paths h g))) = [] /\
  Delta.deleted (delta (store (beginTraverse paths h g))) = [].
Proof.
  apply (traversePaths_store paths (mkPass (mkStore h g Delta.empty) [] [] [])).
Qed.

Lemma advance_deleted_NoDup options depth self p p' :
  NoDup (Delta.deleted (delta (store p))) ->
  advance options depth self p = Some p' ->
  NoDup (Delta.deleted (delta (store p'))).
Proof.
  unfold advance. intros N H.
  destruct (tasks p !! self) as [task|]; [|discriminate].
  destruct (t_status task); [| |discriminate].
  - unfold processModule_resume in H.
    destruct (heap (store p) !! t_module task) as [module0|]; [|discriminate].
    cbv zeta in H.
    destruct (removeDropped _ _ _ _ _) as [s2|] eqn:E; [|discriminate].
    injection H as <-. simpl. rewrite addNew_deleted. simpl.
    apply (shr_nodup _ _ (removeDropped_shrinks _ _ _ _ _ _ E)). exact N.
  - destruct (childrenCompleted self (tasks p)); [|discriminate].
    now injection H as <-.
Qed.

Lemma traverse_deleted_NoDup options depth schedule paths h g p :
  run options depth schedule (beginTraverse paths h g) = Some p ->
  NoDup (Delta.deleted (delta (store p))).
Proof.
  apply (run_invariant (fun p => NoDup (Delta.deleted (delta (store p))))).
  - intros self p0 p1. apply advance_deleted_NoDup.
  - destruct (beginTraverse_store paths h g) as (_ & _ & _ & ->). constructor.
Qed.

(** ** Reconciliation *)

Lemma reconcileDeleted_fst modified acc x :
  fst (reconcileDeleted modified acc x) = JSMap.delete (fst acc) x.
Proof. unfold reconcileDeleted. now destruct (_ || _). Qed.

Lemma reconcileDeleted_added modified deleted :
  forall acc k,
    JSMap.has (fst (fold_left (reconcileDeleted modified) deleted acc)) k =
    (JSMap.has (fst acc) k && negb (JSSet.has deleted k))%bool.
Proof.
  induction deleted as [|x deleted IH]; intros acc k; simpl.
  - now rewrite andb_true_r.
  - rewrite IH, reconcileDeleted_fst, JSMapFacts.has_delete.
    destruct (String.eqb x k); simpl; [now rewrite andb_false_r|].
    reflexivity.
Qed.

Lemma reconcileDeleted_mono modified deleted :
  forall acc k,
    k ∈ snd acc -> k ∈ snd (fold_left (reconcileDeleted modified) deleted acc).
Proof.
  induction deleted as [|x deleted IH]; intros acc k H; simpl; [assumption|].
  apply IH. unfold reconcileDeleted. destruct (_ || _); simpl; [|assumption].
  apply JSSetFacts.elem_of_add. auto.
Qed.

Lemma reconcileDeleted_modified modified deleted :
  forall acc k,
    k ∈ deleted -> JSMap.has modified k = true ->
    k ∈ snd (fold_left (reconcileDeleted modified) deleted acc).
Proof.
  induction deleted as [|x deleted IH]; intros acc k H M; simpl.
  - now apply elem_of_nil in H.
  - apply elem_of_cons in H as [<-|H]; [|now apply IH].
    apply reconcileDeleted_mono. unfold reconcileDeleted.
    rewrite M, orb_true_r. simpl. apply JSSetFacts.elem_of_add. auto.
Qed.

Lemma reconcileDeleted_other modified deleted :
  forall acc k,
    k ∉ deleted -> k ∉ snd acc ->
    k ∉ snd (fold_left (reconcileDeleted modified) deleted acc).
Proof.
  induction deleted as [|x deleted IH]; intros acc k H A; simpl; [assumption|].
  apply not_elem_of_cons in H as [Hne H]. apply IH; [assumption|].
  unfold reconcileDeleted. destruct (_ || _); simpl; [|assumption].
  rewrite JSSetFacts.elem_of_add. tauto.
Qed.

Lemma reconcileDeleted_cancel modified deleted :
  forall acc k,
    NoDup deleted -> JSMap.has (fst acc) k = true ->
    JSMap.has modified k = false -> k ∉ snd acc ->
    k ∉ snd (fold_left (reconcileDeleted modified) deleted acc).
Proof.
  induction deleted as [|x deleted IH]; intros acc k N A M D; simpl;
    [assumption|].
  apply NoDup_cons in N as [Hx N].
  destruct (decide (x = k)) as [->|Hne].
  - apply reconcileDeleted_other; [assumption|].
    unfold reconcileDeleted. now rewrite A, M.
  - apply IH; [assumption| |assumption|].
    + unfold reconcileDeleted. destruct (_ || _); simpl;
        rewrite JSMapFacts.has_delete;
        destruct (String.eqb_spec x k); simpl; congruence.
    + unfold reconcileDeleted. destruct (_ || _); simpl; [|assumption].
      rewrite JSSetFacts.elem_of_add. intros [H|H]; congruence.
Qed.

Lemma traverseDependencies_Some options depth schedule paths h g res p :
  traverseDependencies options depth schedule paths h g = Some (res, p) ->
  run options depth schedule (beginTraverse paths h g) = Some p /\
  allCompleted (tasks p) = true /\
  res = reconcile (delta (store p)).
Proof.
  unfold traverseDependencies.
  destruct (run _ _ _ _) as [p0|]; [|discriminate].
  destruct (allCompleted (tasks p0)) eqn:A; [|discriminate].
  intros [= <- <-]. auto.
Qed.

(** C1, as the code has it.  A path that the delta of a pass holds in
    [added], in [deleted] and in [modified] is reported as deleted, and it
    is not in the [added] mapping of the result. *)
Theorem replaced_reported_deleted options depth schedule paths h g res p P :
  traverseDependencies options depth schedule paths h g = Some (res, p) ->
  JSMap.has (Delta.added (delta (store p))) P = true ->
  P ∈ Delta.deleted (delta (store p)) ->
  JSMap.has (Delta.modified (delta (store p))) P = true ->
  P ∈ Result.deleted res /\ JSMap.has (Result.added res) P = false.
Proof.
  intros (_ & _ & ->)%traverseDependencies_Some A D M.
  unfold reconcile. simpl. split.
  - apply reconcileDeleted_modified; [assumption|].
    now rewrite JSMapFacts.has_setAll, M.
  - rewrite reconcileDeleted_added. apply JSSetFacts.has_elem_of in D.
    rewrite D. simpl. apply andb_false_r.
Qed.

(** C3.  A path that the delta of a pass holds in [added] and in
    [deleted], and not in [modified], is in neither part of the result. *)
Theorem rename_cancellation options depth schedule paths h g res p P :
  traverseDependencies options depth schedule paths h g = Some (res, p) ->
  JSMap.has (Delta.added (delta (store p))) P = true ->
  P ∈ Delta.deleted (delta (store p)) ->
  JSMap.has (Delta.modified (delta (store p))) P = false ->
  JSMap.has (Result.added res) P = false /\ P ∉ Result.deleted res.
Proof.
  intros (R & _ & ->)%traverseDependencies_Some A D M.
  unfold reconcile. simpl. split.
  - rewrite reconcileDeleted_added. apply JSSetFacts.has_elem_of in D.
    rewrite D. simpl. apply andb_false_r.
  - apply reconcileDeleted_cancel.
    + eapply traverse_deleted_NoDup; eauto.
    + simpl. now rewrite !JSMapFacts.has_setAll, A.
    + now rewrite JSMapFacts.has_setAll, M.
    + apply not_elem_of_nil.
Qed.

(** A module imported under a new specifier: [A] imported [P] as [p] and
    now imports it as [q]. *)
Module Rename.
Definition A : string := "A"%string.
Definition P : string := "P"%string.

Definition options : Options :=
  mkOptions (fun _ _ => P)
    (fun path =>
       mkTransformResult (if String.eqb path A then ["q"%string] else [])
         emptyOutput).

Definition heap0 : list Mod.t :=
  [Mod.mk [("p"%string, P)] [] A emptyOutput; Mod.mk [] [A] P emptyOutput].

Definition graph0 : Graph.t := Graph.mk [(A, 0); (P, 1)] [A].
End Rename.

Lemma rename_cancellation_witness :
  exists res p,
    traverseDependencies Rename.options 5 [0; 1; 1; 0] [Rename.A]
      Rename.heap0 Rename.graph0 = Some (res, p) /\
    JSMap.keys (Delta.added (delta (store p))) = [Rename.P] /\
    Delta.deleted (delta (store p)) = [Rename.P] /\
    JSMap.has (Result.added res) Rename.P = false /\
    Rename.P ∉ Result.deleted res.
Proof.
  eexists _, _. split; [vm_compute; reflexivity|].
  split; [reflexivity|]. split; [reflexivity|].
  eapply (rename_cancellation Rename.options 5 [0; 1; 1; 0] [Rename.A]
            Rename.heap0 Rename.graph0).
  - vm_compute. reflexivity.
  - reflexivity.
  - apply JSSetFacts.has_elem_of. reflexivity.
  - reflexivity.
Defined.

(** A changed module that another changed module stops importing and
    imports again under a new specifier: [Q] imported [P] as [p] and now
    imports it as [q]; both [P] and [Q] are traversal roots. *)
Module Replace.
Definition Q : string := "Q"%string.
Definition P : string := "P"%string.

Definition options : Options :=
  mkOptions (fun _ _ => P)
    (fun path =>
       mkTransformResult (if String.eqb path Q then ["q"%string] else [])
         emptyOutput).

Definition heap0 : list Mod.t :=
  [Mod.mk [("p"%string, P)] [] Q emptyOutput; Mod.mk [] [Q] P emptyOutput].

Definition graph0 : Graph.t := Graph.mk [(Q, 0); (P, 1)] [Q].

Definition schedule : list nat := [1; 0; 0; 2; 2; 1].
End Replace.

Lemma replaced_reported_deleted_witness :
  exists res p,
    traverseDependencies Replace.options 5 Replace.schedule
      [Replace.P; Replace.Q] Replace.heap0 Replace.graph0 = Some (res, p) /\
    Replace.P ∈ Result.deleted res /\
    JSMap.has (Result.added res) Replace.P = false.
Proof.
  eexists _, _. split; [vm_compute; reflexivity|].
  eapply (replaced_reported_deleted Replace.options 5 Replace.schedule
            [Replace.P; Replace.Q] Replace.heap0 Replace.graph0).
  - vm_compute. reflexivity.
  - reflexivity.
  - apply JSSetFacts.has_elem_of. reflexivity.
  - reflexivity.
Defined.

(** C1 fails on the code: in the pass of [Replace] the path [P] is in
    [added], [deleted] and [modified] of the delta, and the result does not
    hold it in [added]. *)
Lemma replaced_not_added :
  ~ (forall options depth schedule paths h g res p P,
       traverseDependencies options depth schedule paths h g = Some (res, p) ->
       JSMap.has (Delta.added (delta (store p))) P = true ->
       P ∈ Delta.deleted (delta (store p)) ->
       JSMap.has (Delta.modified (delta (store p))) P = true ->
       P ∈ Result.deleted res /\ JSMap.has (Result.added res) P = true).
Proof.
  intros H.
  destruct (traverseDependencies Replace.options 5 Replace.schedule
              [Replace.P; Replace.Q] Replace.heap0 Replace.graph0)
    as [[res p]|] eqn:E; [|vm_compute in E; discriminate].
  destruct (H _ _ _ _ _ _ _ _ Replace.P E) as [_ A].
  - vm_compute in E. injection E as <- <-. reflexivity.
  - vm_compute in E. injection E as <- <-.
    apply JSSetFacts.has_elem_of. reflexivity.
  - vm_compute in E. injection E as <- <-. reflexivity.
  - vm_compute in E. injection E as <- <-. vm_compute in A. discriminate.
Qed.

(** ** Adding an edge to a module of the graph *)

(** C8.  When the child has a record in the graph, [addDependency] only
    inserts the path of the parent into the inverse dependencies of the
    child: no transform is started, and the graph, the delta, the counters,
    the progress calls, the other objects and the other fields of the child
    are what they were. *)
Theorem addDependency_existing parentModule path root self p r existingModule :
  getModule (store p) path = Some (r, existingModule) ->
  let p' := addDependency parentModule path root self p in
  heap (store p') =
    <[r := Mod.mk (Mod.dependencies existingModule)
             (JSSet.add (Mod.inverseDependencies existingModule)
                (Mod.path parentModule))
             (Mod.path existingModule) (Mod.output existingModule)]>
      (heap (store p)) /\
  graph (store p') = graph (store p) /\
  delta (store p') = delta (store p) /\
  tasks p' = tasks p /\
  counters p' = counters p /\
  progress p' = progress p.
Proof.
  intros G. unfold addDependency. rewrite G. simpl.
  apply getModule_Some in G as [_ H]. split_and!; try reflexivity.
  apply list_eq. intros i. destruct (decide (r = i)) as [<-|Hne].
  - rewrite list_lookup_alter_eq, H.
    now rewrite list_lookup_insert_eq by (eapply lookup_lt_Some; eauto).
  - rewrite list_lookup_alter_ne by assumption.
    now rewrite list_lookup_insert_ne by assumption.
Qed.

Lemma addDependency_existing_witness :
  let p := mkPass Edited.store0 [] [] [] in
  let p' := addDependency Edited.moduleA Scenario.D 0 0 p in
  (Mod.inverseDependencies <$> heap (store p') !! 3) =
    Some [Scenario.B; Scenario.C; Scenario.A] /\
  tasks p' = [].
Proof.
  destruct (addDependency_existing Edited.moduleA Scenario.D 0 0
              (mkPass Edited.store0 [] [] []) 3 Edited.moduleD eq_refl)
    as (H & _ & _ & T & _).
  split; [|exact T]. rewrite H. reflexivity.
Defined.

(** ** Changed paths without a module *)

Lemma traversePath_absent path p :
  JSMap.get (Graph.dependencies (graph (store p))) path = None ->
  traversePath path p = p.
Proof. unfold traversePath, getModule. now intros ->. Qed.

(** C9.  A changed path without a Module record in the graph is skipped:
    the pass is the pass of the other changed paths, with the same result,
    the same final state, the same transforms and the same progress calls,
    under every schedule. *)
Theorem missing_path_skipped options depth schedule paths1 path paths2 h g :
  JSMap.get (Graph.dependencies g) path = None ->
  traverseDependencies options depth schedule (paths1 ++ path :: paths2) h g =
  traverseDependencies options depth schedule (paths1 ++ paths2) h g.
Proof.
  intros G. unfold traverseDependencies, beginTraverse.
  rewrite !fold_left_app. simpl. rewrite traversePath_absent; [reflexivity|].
  destruct (traversePaths_store paths1 (mkPass (mkStore h g Delta.empty) [] [] []))
    as (_ & -> & _). exact G.
Qed.

Lemma missing_path_skipped_witness :
  traverseDependencies Scenario.options 5 [0; 0] ["X"%string; Scenario.B]
    (heap Edited.store0) (graph Edited.store0) =
  traverseDependencies Scenario.options 5 [0; 0] [Scenario.B]
    (heap Edited.store0) (graph Edited.store0) /\
  exists res p,
    traverseDependencies Scenario.options 5 [0; 0] ["X"%string; Scenario.B]
      (heap Edited.store0) (graph Edited.store0) = Some (res, p) /\
    JSMap.keys (Result.added res) = [Scenario.B].
Proof.
  split.
  - apply (missing_path_skipped Scenario.options 5 [0; 0] [] "X"%string
             [Scenario.B]).
    reflexivity.
  - eexists _, _. split; vm_compute; reflexivity.
Defined.

(** ** The diff of a re-processed module *)

Definition setPrevious (previous : JSMap.t string) (t : Task) : Task :=
  mkTask (t_module t) previous (t_root t) (t_parent t) (t_status t).

(** What an addition leaves of the objects of the heap. *)
Definition keepsFields (h h' : list Mod.t) : Prop :=
  forall r m, h !! r = Some m ->
    exists m', h' !! r = Some m' /\
      Mod.dependencies m' = Mod.dependencies m /\
      Mod.path m' = Mod.path m /\ Mod.output m' = Mod.output m.

Lemma keepsFields_refl h : keepsFields h h.
Proof. intros r m H. eauto. Qed.

Lemma keepsFields_trans h1 h2 h3 :
  keepsFields h1 h2 -> keepsFields h2 h3 -> keepsFields h1 h3.
Proof.
  intros H12 H23 r m H. destruct (H12 _ _ H) as (m' & H' & ? & ? & ?).
  destruct (H23 _ _ H') as (m'' & H'' & ? & ? & ?).
  exists m''. split_and!; congruence.
Qed.

Lemma keepsFields_alter f r h :
  (forall m, Mod.dependencies (f m) = Mod.dependencies m /\
             Mod.path (f m) = Mod.path m /\ Mod.output (f m) = Mod.output m) ->
  keepsFields h (alter f r h).
Proof.
  intros Hf r' m H. destruct (decide (r = r')) as [<-|Hne].
  - exists (f m). rewrite list_lookup_alter_eq, H. split; [reflexivity|].
    apply Hf.
  - exists m. now rewrite list_lookup_alter_ne.
Qed.

Lemma keepsFields_app h h' : keepsFields h (h ++ h').
Proof. intros r m H. exists m. split; [now apply lookup_app_l_Some|auto]. Qed.

Lemma addDependency_keepsFields parentModule path root self p :
  keepsFields (heap (store p))
    (heap (store (addDependency parentModule path root self p))).
Proof.
  unfold addDependency. destruct (getModule (store p) path) as [[r m]|]; simpl.
  - now apply keepsFields_alter.
  - eapply keepsFields_trans; [apply keepsFields_app|].
    now apply keepsFields_alter.
Qed.

Lemma addNew_keepsFields module previous current root self :
  forall p,
    keepsFields (heap (store p))
      (heap (store (addNew module previous current root self p))).
Proof.
  unfold addNew. induction current as [|e current IH]; intros p; simpl;
    [apply keepsFields_refl|].
  eapply keepsFields_trans; [|apply IH].
  destruct (JSMap.has previous (fst e)); [apply keepsFields_refl|].
  apply addDependency_keepsFields.
Qed.

Lemma shrinks_keepsFields s s' : shrinks s s' -> keepsFields (heap s) (heap s').
Proof.
  intros Sh r m H. destruct (shr_heap _ _ Sh _ _ H) as (m' & ? & ? & ? & ? & _).
  eauto 10.
Qed.

Lemma get_setAll_Some {V} (src : list (string * V)) :
  forall (dst : JSMap.t V) k v,
    JSMap.get (JSMap.setAll dst src) k = Some v ->
    (k, v) ∈ src \/ JSMap.get dst k = Some v.
Proof.
  unfold JSMap.setAll. induction src as [|[k' v'] src IH]; intros dst k v H;
    simpl in H; [auto|].
  apply IH in H as [H|H]; [left; now apply list_elem_of_further|].
  destruct (decide (k' = k)) as [->|Hne].
  - rewrite JSMapFacts.get_set_eq in H. injection H as ->.
    left. apply list_elem_of_here.
  - rewrite JSMapFacts.get_set_ne in H by assumption. auto.
Qed.

Lemma get_resolveDependencies parentPath dependencies options k v :
  JSMap.get (resolveDependencies parentPath dependencies options) k = Some v ->
  v = resolve options parentPath k.
Proof.
  unfold resolveDependencies, JSMap.ofEntries.
  intros [H|H]%get_setAll_Some; [|discriminate].
  apply list_elem_of_In, in_map_iff in H as (x & [= -> ->] & _). reflexivity.
Qed.

Lemma set_absent {V} (m : JSMap.t V) k v :
  JSMap.has m k = false -> JSMap.set m k v = m ++ [(k, v)].
Proof.
  unfold JSMap.has. induction m as [|[k' v'] m IH]; simpl; [reflexivity|].
  destruct (String.eqb_spec k' k); [discriminate|].
  intros H. now rewrite IH.
Qed.

Lemma NoDup_keys_set {V} (m : JSMap.t V) k v :
  NoDup (JSMap.keys m) -> NoDup (JSMap.keys (JSMap.set m k v)).
Proof.
  intros N. destruct (JSMap.has m k) eqn:E.
  - now rewrite JSMapFacts.keys_set_present.
  - rewrite JSMapFacts.keys_set_absent by assumption.
    apply NoDup_app. split_and!; [assumption| |apply NoDup_singleton].
    intros x Hx ->%list_elem_of_singleton.
    apply JSMapFacts.has_keys in Hx. congruence.
Qed.

Lemma NoDup_keys_setAll {V} (src : list (string * V)) :
  forall dst : JSMap.t V,
    NoDup (JSMap.keys dst) -> NoDup (JSMap.keys (JSMap.setAll dst src)).
Proof.
  unfold JSMap.setAll. induction src as [|e src IH]; intros dst N; simpl;
    [assumption|].
  apply IH. now apply NoDup_keys_set.
Qed.

Lemma setAll_fresh {V} (src : JSMap.t V) :
  forall dst : JSMap.t V,
    NoDup (JSMap.keys src) ->
    (forall k, k ∈ JSMap.keys src -> JSMap.has dst k = false) ->
    JSMap.setAll dst src = dst ++ src.
Proof.
  unfold JSMap.setAll. induction src as [|[k v] src IH]; intros dst N F; simpl.
  - now rewrite app_nil_r.
  - simpl in N. apply NoDup_cons in N as [Hk N].
    rewrite set_absent by (apply F, list_elem_of_here).
    rewrite IH; [now rewrite <- app_assoc|assumption|].
    intros k' Hk'. unfold JSMap.has.
    assert (JSMap.has dst k' = false) as D
      by (apply F; now apply list_elem_of_further).
    apply JSMapFacts.has_false_get in D.
    assert (k <> k') by (intros ->; contradiction).
    clear -D H. induction dst as [|[k0 v0] dst IH]; simpl in *.
    + destruct (String.eqb_spec k k'); congruence.
    + destruct (String.eqb k0 k'); [discriminate|auto].
Qed.

Lemma resolveDependencies_NoDup parentPath dependencies options :
  NoDup (JSMap.keys (resolveDependencies parentPath dependencies options)).
Proof. apply NoDup_keys_setAll. constructor. Qed.

(** The copy loop of [processModule] makes the map it copies. *)
Lemma copy_resolveDependencies parentPath dependencies options :
  JSMap.setAll [] (resolveDependencies parentPath dependencies options) =
  resolveDependencies parentPath dependencies options.
Proof.
  apply setAll_fresh; [apply resolveDependencies_NoDup|reflexivity].
Qed.

Lemma get_resolveDependencies_has parentPath dependencies options k :
  JSMap.has (resolveDependencies parentPath dependencies options) k = true ->
  JSMap.get (resolveDependencies parentPath dependencies options) k =
  Some (resolve options parentPath k).
Proof.
  intros [v Hv]%JSMapFacts.has_get. rewrite Hv. f_equal.
  eapply get_resolveDependencies; eauto.
Qed.

Lemma has_set_present {V} (m : JSMap.t V) k v k' :
  JSMap.has m k = true -> JSMap.has (JSMap.set m k v) k' = JSMap.has m k'.
Proof.
  intros H. rewrite JSMapFacts.has_set.
  destruct (String.eqb_spec k k'); subst; simpl; congruence.
Qed.

Lemma removeDropped_set_previous depth module current previous k v :
  JSMap.has current k = true ->
  forall s,
    removeDropped depth module current (JSMap.set previous k v) s =
    removeDropped depth module current previous s.
Proof.
  intros C. unfold removeDropped.
  induction previous as [|[k' v'] previous IH]; intros s; simpl.
  - now rewrite C.
  - destruct (String.eqb_spec k' k) as [->|Hne]; simpl.
    + now rewrite C.
    + destruct (JSMap.has current k'); [apply IH|].
      destruct (removeDependency depth module v' s) as [s1|]; [apply IH|].
      clear. induction previous as [|[k0 v0] previous IH]; simpl.
      * reflexivity.
      * destruct (String.eqb k0 k); simpl; [|assumption].
        clear. induction previous; simpl; auto.
Qed.

Lemma addNew_ext module previous previous' current root self p :
  (forall k, JSMap.has previous' k = JSMap.has previous k) ->
  addNew module previous' current root self p =
  addNew module previous current root self p.
Proof.
  intros H. unfold addNew. revert p.
  induction current as [|e current IH]; intros p; simpl; [reflexivity|].
  now rewrite H, IH.
Qed.

Lemma removeDropped_all_kept depth module current previous s :
  (forall k, JSMap.has previous k = true -> JSMap.has current k = true) ->
  removeDropped depth module current previous s = Some s.
Proof.
  unfold removeDropped. induction previous as [|[k v] previous IH]; intros H;
    simpl; [reflexivity|].
  rewrite (H k) by (unfold JSMap.has; simpl; now rewrite String.eqb_refl).
  apply IH. intros k' Hk'. apply H. unfold JSMap.has in *. simpl.
  destruct (String.eqb k k'); auto.
Qed.

Lemma addNew_all_known module previous current root self p :
  (forall k, JSMap.has current k = true -> JSMap.has previous k = true) ->
  addNew module previous current root self p = p.
Proof.
  unfold addNew. revert p.
  induction current as [|[k v] current IH]; intros p H; simpl; [reflexivity|].
  rewrite (H k) by (unfold JSMap.has; simpl; now rewrite String.eqb_refl).
  apply IH. intros k' Hk'. apply H. unfold JSMap.has in *. simpl.
  destruct (String.eqb k k'); auto.
Qed.

(** C10.  The diff of a re-processed module is keyed by the specifier.  For
    a specifier of the previous dependencies that the current dependencies
    still have: whatever path it resolved to before, the step is the same
    (no removal is made for the old target); the module then maps the
    specifier to the path it resolves to now; and when the two sets of
    specifiers are the same the step changes the record of the module and
    nothing else: no module loses or gains a referrer, none is created,
    the delta is what it was and no transform is started. *)
Theorem diff_keyed_by_specifier options depth self task p module0 specifier old :
  heap (store p) !! t_module task = Some module0 ->
  let path := Mod.path module0 in
  let result := transform options path in
  let current := resolveDependencies path (tr_dependencies result) options in
  let previous := t_previousDependencies task in
  JSMap.get previous specifier = Some old ->
  JSMap.has current specifier = true ->
  (forall target,
     processModule_resume options depth self
       (setPrevious (JSMap.set previous specifier target) task) p =
     processModule_resume options depth self task p) /\
  (forall p',
     processModule_resume options depth self task p = Some p' ->
     exists module',
       heap (store p') !! t_module task = Some module' /\
       JSMap.get (Mod.dependencies module') specifier =
         Some (resolve options path specifier)) /\
  ((forall k, JSMap.has previous k = JSMap.has current k) ->
   processModule_resume options depth self task p =
   Some (mkPass
           (setHeap
              (<[t_module task :=
                   Mod.mk current (Mod.inverseDependencies module0) path
                     (tr_output result)]> (heap (store p)))
              (store p))
           (alter (setStatus AwaitChildren) self (tasks p))
           (counters p) (progress p))).
Proof.
  intros H path result current previous Hold Hcur.
  assert (Hprev : JSMap.has previous specifier = true)
    by (apply JSMapFacts.has_get; eauto).
  split_and!.
  - intros target. unfold processModule_resume. simpl. rewrite H.
    fold path result current previous. cbv zeta.
    rewrite removeDropped_set_previous by assumption.
    destruct (removeDropped _ _ _ _ _) as [s2|]; [|reflexivity].
    now rewrite (addNew_ext _ previous (JSMap.set previous specifier target))
      by (intros k; now apply has_set_present).
  - intros p'. unfold processModule_resume. rewrite H.
    fold path result current previous. cbv zeta.
    destruct (removeDropped _ _ _ _ _) as [s2|] eqn:E; [|discriminate].
    intros [= <-]. simpl.
    pose proof (shrinks_keepsFields _ _ (removeDropped_shrinks _ _ _ _ _ _ E))
      as K1.
    pose proof (addNew_keepsFields
                  (Mod.mk (JSMap.setAll [] current)
                     (Mod.inverseDependencies module0) path (tr_output result))
                  previous current (t_root task) self (setStore s2 p)) as K2.
    destruct (keepsFields_trans _ _ _ K1 K2 (t_module task)
                (Mod.mk (JSMap.setAll [] current)
                   (Mod.inverseDependencies module0) path (tr_output result)))
      as (module' & Hm' & D & _).
    { simpl. apply list_lookup_insert_eq. eapply lookup_lt_Some; eauto. }
    exists module'. split; [exact Hm'|]. rewrite D. simpl.
    unfold current. rewrite copy_resolveDependencies.
    now apply get_resolveDependencies_has.
  - intros Same. unfold processModule_resume. rewrite H.
    fold path result current previous. cbv zeta.
    rewrite removeDropped_all_kept by (intros k; now rewrite Same).
    rewrite addNew_all_known by (intros k; now rewrite Same).
    unfold current. now rewrite !copy_resolveDependencies.
Qed.

(** A specifier that resolves to another module: [M] imports [x], which
    resolved to [Old] and resolves to [New]. *)
Module Retarget.
Definition M : string := "M"%string.
Definition Old : string := "Old"%string.
Definition New : string := "New"%string.
Definition x : string := "x"%string.

Definition options : Options :=
  mkOptions (fun _ _ => New)
    (fun path =>
       mkTransformResult (if String.eqb path M then [x] else []) emptyOutput).

Definition moduleM : Mod.t := Mod.mk [(x, Old)] [] M emptyOutput.
Definition moduleOld : Mod.t := Mod.mk [] [M] Old emptyOutput.

Definition task : Task := mkTask 0 [(x, Old)] 0 None AwaitTransform.

Definition pass : Pass :=
  mkPass
    (mkStore [moduleM; moduleOld] (Graph.mk [(M, 0); (Old, 1)] [M])
       (Delta.mk [] [(M, 0)] []))
    [task] [(0, 1)] [mkProgress 0 0 1].
End Retarget.

Lemma diff_keyed_by_specifier_witness :
  processModule_resume Retarget.options 5 0 Retarget.task Retarget.pass =
  Some (mkPass
          (mkStore
             [Mod.mk [(Retarget.x, Retarget.New)] [] Retarget.M emptyOutput;
              Retarget.moduleOld]
             (Graph.mk [(Retarget.M, 0); (Retarget.Old, 1)] [Retarget.M])
             (Delta.mk [] [(Retarget.M, 0)] []))
          [mkTask 0 [(Retarget.x, Retarget.Old)] 0 None AwaitChildren]
          [(0, 1)] [mkProgress 0 0 1]).
Proof.
  destruct (diff_keyed_by_specifier Retarget.options 5 0 Retarget.task
              Retarget.pass Retarget.moduleM Retarget.x Retarget.Old
              eq_refl eq_refl eq_refl) as (_ & _ & Same).
  rewrite Same; [reflexivity|].
  intros k.
  change (JSMap.has [(Retarget.x, Retarget.Old)] k =
          JSMap.has [(Retarget.x, Retarget.New)] k).
  unfold JSMap.has, JSMap.get.
  destruct (String.eqb Retarget.x k); reflexivity.
Defined.

(** ** Progress *)

Definition isCompleted (t : Task) : bool :=
  match t_status t with Completed => true | _ => false end.

Definition ofRoot (root : nat) (t : Task) : bool := Nat.eqb (t_root t) root.

(** The [processModule] calls made under a root, and those that returned. *)
Definition started (root : nat) (ts : list Task) : nat :=
  length (List.filter (ofRoot root) ts).

Definition finished (root : nat) (ts : list Task) : nat :=
  length (List.filter (fun t => ofRoot root t && isCompleted t) ts).

(** The calls of [onProgress] made by one single-file traversal. *)
Definition callsOf (root : nat) (tr : list Progress) : list Progress :=
  List.filter (fun e => Nat.eqb (pr_root e) root) tr.

Definition precedes (e1 e2 : Progress) : Prop :=
  pr_root e1 = pr_root e2 ->
  pr_numProcessed e1 <= pr_numProcessed e2 /\ pr_total e1 <= pr_total e2.

Record counting (ts : list Task) (cs : list (nat * nat))
    (tr : list Progress) : Prop := mkCounting {
  cnt_roots : forall t, t ∈ ts -> t_root t < length cs;
  cnt_counters :
    forall root c, cs !! root = Some c ->
      fst c = finished root ts /\ snd c = started root ts;
  cnt_bound :
    forall e, e ∈ tr ->
      exists c, cs !! pr_root e = Some c /\
        pr_numProcessed e <= fst c /\ pr_total e <= snd c /\
        pr_numProcessed e <= pr_total e;
  cnt_sorted : StronglySorted precedes tr;
  cnt_last :
    forall root c, cs !! root = Some c ->
      last (callsOf root tr) = Some (mkProgress root (fst c) (snd c));
}.

Lemma finished_le_started root ts : finished root ts <= started root ts.
Proof.
  unfold finished, started. apply filter_length_le.
  intros t _ H. now apply andb_true_iff in H.
Qed.

Lemma filter_length_app {A} (f : A -> bool) l1 l2 :
  length (List.filter f (l1 ++ l2)) =
  length (List.filter f l1) + length (List.filter f l2).
Proof. now rewrite List.filter_app, length_app. Qed.

Lemma filter_length_alter {A} (f : A -> bool) (g : A -> A) i l x :
  l !! i = Some x ->
  length (List.filter f (alter g i l)) + (if f x then 1 else 0) =
  length (List.filter f l) + (if f (g x) then 1 else 0).
Proof.
  revert i. induction l as [|y l IH]; intros [|i] H; simpl in *;
    try discriminate.
  - injection H as ->. destruct (f x), (f (g x)); simpl; lia.
  - specialize (IH i H). change (list_alter g i l) with (alter g i l).
    destruct (f y); simpl; lia.
Qed.

Lemma callsOf_snoc_same root tr e :
  pr_root e = root -> callsOf root (tr ++ [e]) = callsOf root tr ++ [e].
Proof.
  intros <-. unfold callsOf. rewrite List.filter_app. simpl.
  now rewrite Nat.eqb_refl.
Qed.

Lemma callsOf_snoc_other root tr e :
  pr_root e <> root -> callsOf root (tr ++ [e]) = callsOf root tr.
Proof.
  intros H. unfold callsOf. rewrite List.filter_app. simpl.
  apply Nat.eqb_neq in H. rewrite H. apply app_nil_r.
Qed.

(** A call of [onProgress] under [root], once its counters have moved from
    [c] to [c'] and the tasks from [ts] to [ts']. *)
Lemma counting_report ts cs tr ts' root c c' :
  counting ts cs tr ->
  cs !! root = Some c ->
  fst c <= fst c' -> snd c <= snd c' ->
  (forall t, t ∈ ts' -> t_root t < length cs) ->
  fst c' = finished root ts' -> snd c' = started root ts' ->
  (forall root', root' <> root ->
     finished root' ts' = finished root' ts /\
     started root' ts' = started root' ts) ->
  counting ts' (<[root := c']> cs) (tr ++ [mkProgress root (fst c') (snd c')]).
Proof.
  intros [R C B S L] Hc Hf Hs R' F' S' O.
  assert (Hlt : root < length cs) by (eapply lookup_lt_Some; eauto).
  constructor.
  - intros t Ht. rewrite length_insert. auto.
  - intros root' c0 H0. destruct (decide (root = root')) as [<-|Hne].
    + rewrite list_lookup_insert_eq in H0 by assumption.
      injection H0 as <-. auto.
    + rewrite list_lookup_insert_ne in H0 by assumption.
      destruct (O root') as [-> ->]; [congruence|]. auto.
  - intros e [He|He]%elem_of_app.
    + destruct (B e He) as (c0 & H0 & B1 & B2 & B3).
      destruct (decide (root = pr_root e)) as [E|Hne].
      * exists c'. rewrite <- E, list_lookup_insert_eq by assumption.
        assert (c0 = c) as -> by congruence.
        split_and!; [reflexivity|lia|lia|assumption].
      * exists c0. rewrite list_lookup_insert_ne by assumption. auto.
    + apply list_elem_of_singleton in He as ->. simpl.
      exists c'. rewrite list_lookup_insert_eq by assumption.
      split_and!; [reflexivity|lia|lia|].
      rewrite F', S'. apply finished_le_started.
  - apply StronglySorted_app_2; [|assumption|repeat constructor].
    intros e1 e2 H1 ->%list_elem_of_singleton E. simpl in *.
    destruct (B e1 H1) as (c0 & H0 & B1 & B2 & _).
    assert (c0 = c) as -> by congruence. lia.
  - intros root' c0 H0. destruct (decide (root = root')) as [<-|Hne].
    + rewrite list_lookup_insert_eq in H0 by assumption. injection H0 as <-.
      rewrite callsOf_snoc_same by reflexivity. apply last_snoc.
    + rewrite list_lookup_insert_ne in H0 by assumption.
      rewrite callsOf_snoc_other by (simpl; congruence). auto.
Qed.

Definition bookkeeping (p : Pass) : Prop :=
  counting (tasks p) (counters p) (progress p).

Lemma started_app root ts ts' :
  started root (ts ++ ts') = started root ts + started root ts'.
Proof. apply filter_length_app. Qed.

Lemma finished_app root ts ts' :
  finished root (ts ++ ts') = finished root ts + finished root ts'.
Proof. apply filter_length_app. Qed.

Lemma onProgress_counting root p :
  bookkeeping p -> root < length (counters p) -> bookkeeping (onProgress root p).
Proof.
  unfold bookkeeping, onProgress. intros C [c Hc]%lookup_lt_is_Some. simpl.
  rewrite Hc. simpl. rewrite <- (list_insert_id _ _ _ Hc) at 1.
  apply counting_report with (ts := tasks p) (c := c); auto.
  - apply (cnt_roots _ _ _ C).
  - apply (cnt_counters _ _ _ C _ _ Hc).
  - apply (cnt_counters _ _ _ C _ _ Hc).
Qed.

Lemma discover_counting ts cs tr root c r previous parent :
  counting ts cs tr -> cs !! root = Some c ->
  counting (ts ++ [mkTask r previous root parent AwaitTransform])
    (<[root := (fst c, S (snd c))]> cs)
    (tr ++ [mkProgress root (fst c) (S (snd c))]).
Proof.
  intros C Hc.
  destruct (cnt_counters _ _ _ C _ _ Hc) as [Fc Sc].
  apply (counting_report ts cs tr _ root c (fst c, S (snd c))); simpl;
    auto.
  - intros t [Ht|Ht]%elem_of_app.
    + now apply (cnt_roots _ _ _ C).
    + apply list_elem_of_singleton in Ht as ->. simpl.
      eapply lookup_lt_Some; eauto.
  - rewrite finished_app. unfold finished at 2, ofRoot. simpl.
    rewrite andb_false_r. simpl. lia.
  - rewrite started_app. unfold started at 2, ofRoot. simpl.
    rewrite Nat.eqb_refl. simpl. lia.
  - intros root' Hne. rewrite finished_app, started_app.
    unfold finished at 2, started at 2, ofRoot. simpl.
    rewrite andb_false_r.
    destruct (Nat.eqb_spec root root'); [congruence|]. simpl. lia.
Qed.

Lemma addDependency_book parentModule path root self p :
  let p' := addDependency parentModule path root self p in
  (tasks p' = tasks p /\ counters p' = counters p /\
   progress p' = progress p) \/
  (exists r,
     let cs := alter (fun c => (fst c, S (snd c))) root (counters p) in
     let c := default (0, 0) (cs !! root) in
     tasks p' = tasks p ++ [mkTask r [] root (Some self) AwaitTransform] /\
     counters p' = cs /\
     progress p' = progress p ++ [mkProgress root (fst c) (snd c)]).
Proof.
  unfold addDependency. destruct (getModule (store p) path) as [[r m]|].
  - left. auto.
  - right. exists (length (heap (store p))). simpl. auto.
Qed.

Lemma addDependency_counting parentModule path root self p :
  bookkeeping p -> root < length (counters p) ->
  bookkeeping (addDependency parentModule path root self p).
Proof.
  unfold bookkeeping. intros C [c Hc]%lookup_lt_is_Some.
  destruct (addDependency_book parentModule path root self p)
    as [(-> & -> & ->)|(r & -> & -> & ->)]; [assumption|].
  rewrite list_lookup_alter_eq, Hc. simpl.
  replace (alter (fun c0 => (fst c0, S (snd c0))) root (counters p))
    with (<[root := (fst c, S (snd c))]> (counters p)).
  - now apply discover_counting.
  - apply list_eq. intros i. destruct (decide (root = i)) as [<-|Hne].
    + rewrite list_lookup_alter_eq, Hc.
      now rewrite list_lookup_insert_eq by (eapply lookup_lt_Some; eauto).
    + rewrite list_lookup_alter_ne by assumption.
      now rewrite list_lookup_insert_ne by assumption.
Qed.

(** Additions only append tasks and keep the roots. *)
Definition extends (p p' : Pass) : Prop :=
  (exists new, tasks p' = tasks p ++ new) /\
  length (counters p') = length (counters p).

Lemma extends_refl p : extends p p.
Proof. split; [exists []; now rewrite app_nil_r|reflexivity]. Qed.

Lemma extends_trans p1 p2 p3 : extends p1 p2 -> extends p2 p3 -> extends p1 p3.
Proof.
  intros [[n1 H1] L1] [[n2 H2] L2]. split; [|congruence].
  exists (n1 ++ n2). now rewrite H2, H1, app_assoc.
Qed.

Lemma addDependency_extends parentModule path root self p :
  extends p (addDependency parentModule path root self p).
Proof.
  destruct (addDependency_book parentModule path root self p)
    as [(T & C & _)|(r & T & C & _)]; split.
  - exists []. now rewrite app_nil_r.
  - now rewrite C.
  - eauto.
  - rewrite C. apply length_alter.
Qed.

Lemma addNew_extends module previous current root self :
  forall p, extends p (addNew module previous current root self p).
Proof.
  unfold addNew. induction current as [|e current IH]; intros p; simpl;
    [apply extends_refl|].
  eapply extends_trans; [|apply IH].
  destruct (JSMap.has previous (fst e)); [apply extends_refl|].
  apply addDependency_extends.
Qed.

Lemma addNew_counting module previous current root self :
  forall p,
    bookkeeping p -> root < length (counters p) ->
    bookkeeping (addNew module previous current root self p).
Proof.
  unfold addNew. induction current as [|e current IH]; intros p C R; simpl;
    [assumption|].
  destruct (JSMap.has previous (fst e)); [now apply IH|].
  apply IH; [now apply addDependency_counting|].
  now rewrite (proj2 (addDependency_extends _ _ _ _ _)).
Qed.

Lemma setStatus_counting self st ts cs tr task :
  counting ts cs tr -> ts !! self = Some task ->
  isCompleted task = false -> st <> Completed ->
  counting (alter (setStatus st) self ts) cs tr.
Proof.
  intros [R C B Srt L] H N Hst.
  constructor; auto.
  - intros t Ht. apply list_elem_of_lookup in Ht as [i Hi].
    destruct (decide (self = i)) as [<-|Hne].
    + rewrite list_lookup_alter_eq, H in Hi. injection Hi as <-. simpl.
      apply R. eapply list_elem_of_lookup_2; eauto.
    + rewrite list_lookup_alter_ne in Hi by assumption.
      apply R. eapply list_elem_of_lookup_2; eauto.
  - intros root c Hc. destruct (C root c Hc) as [-> ->].
    unfold finished, started. split; symmetry.
    + pose proof (filter_length_alter
                    (fun t => ofRoot root t && isCompleted t)
                    (setStatus st) self ts task H) as E.
      cbv beta in E. rewrite N in E.
      assert (isCompleted (setStatus st task) = false) as N'
        by (destruct st; [reflexivity..|congruence]).
      rewrite N', !andb_false_r in E. lia.
    + pose proof (filter_length_alter (ofRoot root) (setStatus st) self ts
                    task H) as E.
      change (ofRoot root (setStatus st task)) with (ofRoot root task) in E.
      destruct (ofRoot root task); lia.
Qed.

Lemma alter_insert {A} (f : A -> A) i (l : list A) x :
  l !! i = Some x -> alter f i l = <[i := f x]> l.
Proof.
  intros H. apply list_eq. intros j. destruct (decide (i = j)) as [<-|Hne].
  - rewrite list_lookup_alter_eq, H.
    now rewrite list_lookup_insert_eq by (eapply lookup_lt_Some; eauto).
  - rewrite list_lookup_alter_ne by assumption.
    now rewrite list_lookup_insert_ne by assumption.
Qed.

Lemma processModule_return_counting self task p :
  bookkeeping p -> tasks p !! self = Some task ->
  t_status task = AwaitChildren ->
  bookkeeping (processModule_return self task p).
Proof.
  unfold bookkeeping, processModule_return, onDependencyAdded, onProgress.
  intros C H St. simpl.
  assert (R : t_root task < length (counters p)).
  { apply (cnt_roots _ _ _ C). eapply list_elem_of_lookup_2; eauto. }
  apply lookup_lt_is_Some in R as [c Hc].
  rewrite list_lookup_alter_eq, Hc. simpl.
  rewrite (alter_insert _ _ _ _ Hc).
  destruct (cnt_counters _ _ _ C _ _ Hc) as [Fc Sc].
  assert (N : isCompleted task = false) by (unfold isCompleted; now rewrite St).
  apply (counting_report (tasks p) (counters p) (progress p) _ (t_root task) c
           (S (fst c), snd c)); simpl; auto.
  - intros t Ht. apply list_elem_of_lookup in Ht as [i Hi].
    destruct (decide (self = i)) as [<-|Hne].
    + rewrite list_lookup_alter_eq, H in Hi. injection Hi as <-. simpl.
      eapply lookup_lt_Some; eauto.
    + rewrite list_lookup_alter_ne in Hi by assumption.
      apply (cnt_roots _ _ _ C). eapply list_elem_of_lookup_2; eauto.
  - pose proof (filter_length_alter
                  (fun t => ofRoot (t_root task) t && isCompleted t)
                  (setStatus Completed) self (tasks p) task H) as E.
    assert (Ef : ofRoot (t_root task) (setStatus Completed task) &&
                 isCompleted (setStatus Completed task) = true)
      by (unfold ofRoot, isCompleted; simpl; now rewrite Nat.eqb_refl).
    cbv beta in E. rewrite Ef, N, andb_false_r in E.
    rewrite Fc. unfold finished. lia.
  - pose proof (filter_length_alter (ofRoot (t_root task))
                  (setStatus Completed) self (tasks p) task H) as E.
    change (ofRoot (t_root task) (setStatus Completed task))
      with (ofRoot (t_root task) task) in E.
    rewrite Sc. unfold started. destruct (ofRoot (t_root task) task); lia.
  - intros root' Hne. unfold finished, started. split.
    + pose proof (filter_length_alter
                    (fun t => ofRoot root' t && isCompleted t)
                    (setStatus Completed) self (tasks p) task H) as E.
      assert (Ef : forall t, t_root t = t_root task ->
                     ofRoot root' t && isCompleted t = false).
      { intros t Ht. unfold ofRoot. rewrite Ht.
        destruct (Nat.eqb_spec (t_root task) root'); [congruence|reflexivity]. }
      cbv beta in E. rewrite !Ef in E by reflexivity. lia.
    + pose proof (filter_length_alter (ofRoot root')
                    (setStatus Completed) self (tasks p) task H) as E.
      change (ofRoot root' (setStatus Completed task))
        with (ofRoot root' task) in E.
      destruct (ofRoot root' task); lia.
Qed.

Lemma processModule_resume_counting options depth self task p p' :
  bookkeeping p -> tasks p !! self = Some task ->
  t_status task = AwaitTransform ->
  processModule_resume options depth self task p = Some p' ->
  bookkeeping p'.
Proof.
  unfold processModule_resume. intros C H St E.
  destruct (heap (store p) !! t_module task) as [module0|]; [|discriminate].
  cbv zeta in E. destruct (removeDropped _ _ _ _ _) as [s2|]; [|discriminate].
  injection E as <-.
  assert (R : t_root task < length (counters p)).
  { apply (cnt_roots _ _ _ C). eapply list_elem_of_lookup_2; eauto. }
  match goal with
  | |- context [addNew ?m ?pr ?cu ?ro ?se ?q] =>
      pose proof (addNew_counting m pr cu ro se q C R) as C3;
      destruct (addNew_extends m pr cu ro se q) as [[new T3] _];
      set (p3 := addNew m pr cu ro se q) in *
  end.
  unfold bookkeeping. simpl.
  apply setStatus_counting with (task := task);
    [exact C3| |unfold isCompleted; now rewrite St|discriminate].
  rewrite T3. simpl. now apply lookup_app_l_Some.
Qed.

Lemma advance_counting options depth self p p' :
  bookkeeping p -> advance options depth self p = Some p' -> bookkeeping p'.
Proof.
  unfold advance. intros C E.
  destruct (tasks p !! self) as [task|] eqn:H; [|discriminate].
  destruct (t_status task) eqn:St; [| |discriminate].
  - eapply processModule_resume_counting; eauto.
  - destruct (childrenCompleted self (tasks p)); [|discriminate].
    injection E as <-. now apply processModule_return_counting.
Qed.

Lemma filter_length_none {A} (f : A -> bool) (l : list A) :
  (forall x, x ∈ l -> f x = false) -> length (List.filter f l) = 0.
Proof.
  induction l as [|x l IH]; intros H; simpl; [reflexivity|].
  rewrite (H x) by apply list_elem_of_here.
  apply IH. intros y Hy. apply H. now apply list_elem_of_further.
Qed.

Lemma start_counting ts cs tr r previous :
  counting ts cs tr ->
  counting (ts ++ [mkTask r previous (length cs) None AwaitTransform])
    (cs ++ [(0, 1)]) (tr ++ [mkProgress (length cs) 0 1]).
Proof.
  intros [R C B Srt L].
  assert (New : forall t, t ∈ ts -> ofRoot (length cs) t = false).
  { intros t Ht. apply Nat.eqb_neq. specialize (R t Ht). lia. }
  constructor.
  - intros t [Ht|Ht]%elem_of_app; rewrite length_app; simpl.
    + specialize (R t Ht). lia.
    + apply list_elem_of_singleton in Ht as ->. simpl. lia.
  - intros root c Hc. rewrite finished_app, started_app.
    unfold finished at 2, started at 2, ofRoot. simpl. rewrite andb_false_r.
    destruct (Nat.eqb_spec (length cs) root) as [<-|Hne]; simpl.
    + rewrite lookup_app_r, Nat.sub_diag in Hc by lia. injection Hc as <-.
      simpl. unfold finished, started.
      rewrite !filter_length_none; auto.
      intros t Ht. now rewrite New.
    + apply lookup_app_Some in Hc as [Hc|[Hlen Hc]].
      * destruct (C _ _ Hc). lia.
      * destruct (root - length cs) as [|n] eqn:D; [lia|].
        now destruct n.
  - intros e [He|He]%elem_of_app.
    + destruct (B e He) as (c & Hc & ?). exists c.
      split; [now apply lookup_app_l_Some|assumption].
    + apply list_elem_of_singleton in He as ->. simpl. exists (0, 1).
      rewrite lookup_app_r, Nat.sub_diag by lia. simpl. auto.
  - apply StronglySorted_app_2; [|assumption|repeat constructor].
    intros e1 e2 H1 H2 E. apply list_elem_of_singleton in H2 as ->.
    simpl in E. destruct (B e1 H1) as (c & Hc & _).
    apply lookup_lt_Some in Hc. lia.
  - intros root c Hc. destruct (decide (length cs = root)) as [<-|Hne].
    + rewrite lookup_app_r, Nat.sub_diag in Hc by lia. injection Hc as <-.
      rewrite callsOf_snoc_same by reflexivity. apply last_snoc.
    + rewrite callsOf_snoc_other by (simpl; congruence).
      apply lookup_app_Some in Hc as [Hc|[Hlen Hc]]; [auto|].
      destruct (root - length cs) as [|n] eqn:D; [lia|]. now destruct n.
Qed.

Lemma traversePath_counting path p :
  bookkeeping p -> bookkeeping (traversePath path p).
Proof.
  unfold traversePath. intros C.
  destruct (getModule (store p) path) as [[r module]|]; [|assumption].
  unfold bookkeeping, traverseDependenciesForSingleFile, onProgress. simpl.
  rewrite lookup_app_r, Nat.sub_diag by lia. simpl.
  now apply start_counting.
Qed.

Lemma beginTraverse_counting paths h g : bookkeeping (beginTraverse paths h g).
Proof.
  unfold beginTraverse.
  assert (C0 : bookkeeping (mkPass (mkStore h g Delta.empty) [] [] [])).
  { constructor; simpl.
    - intros t Ht. now apply elem_of_nil in Ht.
    - intros root c Hc. now rewrite lookup_nil in Hc.
    - intros e He. now apply elem_of_nil in He.
    - constructor.
    - intros root c Hc. now rewrite lookup_nil in Hc. }
  revert C0. generalize (mkPass (mkStore h g Delta.empty) [] [] []).
  induction paths as [|path paths IH]; intros p C; simpl; [assumption|].
  apply IH. now apply traversePath_counting.
Qed.

Lemma run_counting options depth schedule paths h g p :
  run options depth schedule (beginTraverse paths h g) = Some p ->
  bookkeeping p.
Proof.
  apply (run_invariant bookkeeping).
  - intros self p0 p1. apply advance_counting.
  - apply beginTraverse_counting.
Qed.

Lemma elem_of_filter_list {A} (f : A -> bool) (l : list A) x :
  x ∈ List.filter f l <-> x ∈ l /\ f x = true.
Proof. rewrite !list_elem_of_In. apply filter_In. Qed.

Lemma StronglySorted_filter_strong {A} (R R' : A -> A -> Prop) (f : A -> bool) l :
  (forall x y, f x = true -> f y = true -> R x y -> R' x y) ->
  StronglySorted R l -> StronglySorted R' (List.filter f l).
Proof.
  intros HR. induction 1 as [|x l S IH F]; simpl; [constructor|].
  destruct (f x) eqn:Fx; [|assumption].
  constructor; [assumption|].
  apply Forall_forall. intros y [Hy Fy]%elem_of_filter_list.
  rewrite Forall_forall in F. auto.
Qed.

Lemma allCompleted_finished root ts :
  allCompleted ts = true -> finished root ts = started root ts.
Proof.
  unfold allCompleted, finished, started.
  induction ts as [|t ts IH]; simpl; [reflexivity|].
  intros [Ht Hts]%andb_true_iff. unfold isCompleted at 1.
  destruct (t_status t); try discriminate.
  rewrite andb_true_r. destruct (ofRoot root t); simpl; auto.
Qed.

(** C5, as the code has it.  At every point of a pass, the calls of
    [onProgress] made for one changed path (one single-file traversal) have
    a nondecreasing processed count and a nondecreasing total, with the
    processed count at most the total in every call; when the pass has
    completed the two counters are equal and the last call reported them.
    When one changed path has a module, these calls are the whole
    sequence. *)
Theorem progress_per_root options depth schedule paths h g p root :
  run options depth schedule (beginTraverse paths h g) = Some p ->
  let calls := callsOf root (progress p) in
  StronglySorted le (pr_numProcessed <$> calls) /\
  StronglySorted le (pr_total <$> calls) /\
  Forall (fun e => pr_numProcessed e <= pr_total e) calls /\
  (allCompleted (tasks p) = true ->
   forall c, counters p !! root = Some c ->
     fst c = snd c /\ last calls = Some (mkProgress root (snd c) (snd c))) /\
  (length (counters p) <= 1 -> root = 0 -> calls = progress p).
Proof.
  intros C%run_counting calls. destruct C as [R C B Srt L].
  assert (Both : StronglySorted
                   (fun e1 e2 => pr_numProcessed e1 <= pr_numProcessed e2 /\
                                 pr_total e1 <= pr_total e2) calls).
  { apply (StronglySorted_filter_strong precedes); [|assumption].
    intros x y Hx%Nat.eqb_eq Hy%Nat.eqb_eq H. apply H. congruence. }
  split_and!.
  - apply (StronglySorted_fmap _ _ _ _ (fun x y H => proj1 H) Both).
  - apply (StronglySorted_fmap _ _ _ _ (fun x y H => proj2 H) Both).
  - apply Forall_forall. intros e [He _]%elem_of_filter_list.
    destruct (B e He) as (c & _ & _ & _ & H). exact H.
  - intros A c Hc. destruct (C _ _ Hc) as [Fc Sc].
    assert (E : fst c = snd c)
      by (rewrite Fc, Sc; now apply allCompleted_finished).
    split; [assumption|]. unfold calls. rewrite (L _ _ Hc). now rewrite E.
  - intros Len ->. unfold calls, callsOf.
    assert (F : Forall (fun e => pr_root e = 0) (progress p)).
    { apply Forall_forall. intros e He. destruct (B e He) as (c & Hc & _).
      apply lookup_lt_Some in Hc. lia. }
    clear -F. induction F as [|e tr He F IH]; simpl; [reflexivity|].
    rewrite He. simpl. now rewrite IH.
Qed.

(** Two changed paths: [A], which has come to import [X], and [B]. *)
Module Pair.
Definition A : string := "A"%string.
Definition B : string := "B"%string.
Definition X : string := "X"%string.

Definition options : Options :=
  mkOptions (fun _ specifier => specifier)
    (fun path =>
       mkTransformResult (if String.eqb path A then [X] else []) emptyOutput).

Definition heap0 : list Mod.t :=
  [Mod.mk [] [] A emptyOutput; Mod.mk [] [] B emptyOutput].

Definition graph0 : Graph.t := Graph.mk [(A, 0); (B, 1)] [A; B].

(** [A] settles, then [X], then [B]. *)
Definition schedule : list nat := [0; 2; 2; 0; 1; 1].
End Pair.

Example Pair_progress :
  match
    traverseDependencies Pair.options 5 Pair.schedule [Pair.A; Pair.B]
      Pair.heap0 Pair.graph0
  with
  | Some (_, p) =>
      List.map (fun e => (pr_root e, pr_numProcessed e, pr_total e)) (progress p)
      = [(0, 0, 1); (1, 0, 1); (0, 0, 2); (0, 1, 2); (0, 2, 2); (1, 1, 1)]
  | None => False
  end.
Proof. vm_compute. reflexivity. Qed.

Lemma progress_per_root_witness :
  exists p,
    run Pair.options 5 Pair.schedule
      (beginTraverse [Pair.A; Pair.B] Pair.heap0 Pair.graph0) = Some p /\
    (pr_total <$> callsOf 0 (progress p)) = [1; 2; 2; 2] /\
    StronglySorted le (pr_total <$> callsOf 0 (progress p)).
Proof.
  eexists. split; [vm_compute; reflexivity|]. split; [reflexivity|].
  eapply (progress_per_root Pair.options 5 Pair.schedule [Pair.A; Pair.B]
            Pair.heap0 Pair.graph0 _ 0).
  vm_compute. reflexivity.
Defined.

(** C5 fails on the code for a pass with several changed paths: each
    single-file traversal counts for itself, and the calls interleave.  In
    the pass of [Pair] the totals reported are 1, 1, 2, 2, 2, 1. *)
Lemma progress_not_monotone :
  ~ (forall options depth schedule paths h g p,
       run options depth schedule (beginTraverse paths h g) = Some p ->
       StronglySorted le (pr_numProcessed <$> progress p) /\
       StronglySorted le (pr_total <$> progress p) /\
       Forall (fun e => pr_numProcessed e <= pr_total e) (progress p)).
Proof.
  intros H.
  destruct (run Pair.options 5 Pair.schedule
              (beginTraverse [Pair.A; Pair.B] Pair.heap0 Pair.graph0))
    as [p|] eqn:E; [|vm_compute in E; discriminate].
  destruct (H _ _ _ _ _ _ _ E) as (_ & T & _).
  vm_compute in E. injection E as <-.
  change (StronglySorted le ([1; 1; 2] ++ [2; 2; 1])) in T.
  apply StronglySorted_app in T as [T _].
  specialize (T 2 1). cut (2 <= 1); [lia|].
  apply T; repeat constructor.
Qed.

(** ** Every schedule of a pass *)

(** The passes one step away: one for each task that can continue. *)
Definition successors (options : Options) (depth : nat) (p : Pass)
    : list Pass :=
  omap (fun self => advance options depth self p) (seq 0 (length (tasks p))).

Fixpoint gather (l : list (option (list Pass))) : option (list Pass) :=
  match l with
  | [] => Some []
  | o :: l' =>
      match o, gather l' with
      | Some a, Some b => Some (a ++ b)
      | _, _ => None
      end
  end.

(** The passes in which no task can continue, reached within [fuel]
    steps; [None] when some schedule is longer. *)
Fixpoint outcomes (options : Options) (depth : nat) (fuel : nat) (p : Pass)
    : option (list Pass) :=
  match fuel with
  | 0 => None
  | S fuel' =>
      match successors options depth p with
      | [] => Some [p]
      | ss => gather (List.map (outcomes options depth fuel') ss)
      end
  end.

Lemma advance_lt options depth self p q :
  advance options depth self p = Some q -> self < length (tasks p).
Proof.
  unfold advance. destruct (tasks p !! self) eqn:H; [|discriminate].
  intros _. eapply lookup_lt_Some; eauto.
Qed.

Lemma elem_of_successors options depth p q :
  q ∈ successors options depth p <->
  exists self, advance options depth self p = Some q.
Proof.
  unfold successors. rewrite list_elem_of_omap. split.
  - intros (self & _ & H). eauto.
  - intros (self & H). exists self. split; [|assumption].
    apply elem_of_seq. apply advance_lt in H. lia.
Qed.

Lemma allCompleted_lookup ts self task :
  allCompleted ts = true -> ts !! self = Some task ->
  t_status task = Completed.
Proof.
  unfold allCompleted. rewrite forallb_forall. intros A H.
  apply list_elem_of_lookup_2, list_elem_of_In, A in H.
  now destruct (t_status task).
Qed.

Lemma allCompleted_stuck options depth self p :
  allCompleted (tasks p) = true -> advance options depth self p = None.
Proof.
  intros A. unfold advance. destruct (tasks p !! self) as [task|] eqn:H;
    [|reflexivity].
  now rewrite (allCompleted_lookup _ _ _ A H).
Qed.

Lemma gather_elem_of l r a x :
  gather l = Some r -> Some a ∈ l -> x ∈ a -> x ∈ r.
Proof.
  revert r. induction l as [|o l IH]; intros r G Ha Hx; simpl in G.
  - now apply elem_of_nil in Ha.
  - destruct o as [a0|]; [|discriminate].
    destruct (gather l) as [b|]; [|discriminate]. injection G as <-.
    apply elem_of_app. apply elem_of_cons in Ha as [[= ->]|Ha]; eauto.
Qed.

Lemma gather_None l q :
  None ∈ l -> gather l = Some q -> False.
Proof.
  revert q. induction l as [|o l IH]; intros q H G; simpl in G.
  - now apply elem_of_nil in H.
  - apply elem_of_cons in H as [<-|H]; [discriminate|].
    destruct o; [|discriminate].
    destruct (gather l) eqn:E; [|discriminate]. eauto.
Qed.

Lemma outcomes_unfold options depth fuel p :
  outcomes options depth (S fuel) p =
  match successors options depth p with
  | [] => Some [p]
  | ss => gather (List.map (outcomes options depth fuel) ss)
  end.
Proof. reflexivity. Qed.

(** [outcomes] has every pass that a schedule completes. *)
Lemma outcomes_complete options depth fuel :
  forall p l schedule p',
    outcomes options depth fuel p = Some l ->
    run options depth schedule p = Some p' ->
    allCompleted (tasks p') = true ->
    p' ∈ l.
Proof.
  induction fuel as [|fuel IH]; intros p l schedule p' O R A; [discriminate|].
  rewrite outcomes_unfold in O. destruct schedule as [|self schedule];
    simpl in R.
  - injection R as <-.
    destruct (successors options depth p) as [|q ss] eqn:E.
    + injection O as <-. apply list_elem_of_here.
    + assert (q ∈ successors options depth p)
        as [self H]%elem_of_successors
        by (rewrite E; apply list_elem_of_here).
      now rewrite allCompleted_stuck in H.
  - destruct (advance options depth self p) as [q|] eqn:H; [|discriminate].
    assert (Hq : q ∈ successors options depth p)
      by (apply elem_of_successors; eauto).
    destruct (successors options depth p) as [|q0 ss] eqn:E;
      [now apply elem_of_nil in Hq|].
    assert (Hm : outcomes options depth fuel q ∈
                 List.map (outcomes options depth fuel) (q0 :: ss))
      by (apply list_elem_of_In, in_map; now apply list_elem_of_In).
    destruct (outcomes options depth fuel q) as [a|] eqn:Oq.
    + eapply gather_elem_of; [exact O|exact Hm|eapply IH; eauto].
    + exfalso. eapply gather_None; eauto.
Qed.

(** ** Linearization of the scenario *)

Module Cold.
Import Scenario.

Definition moduleA : Mod.t := Mod.mk [(B, B); (C, C)] [] A (out A).
Definition moduleB : Mod.t := Mod.mk [(D, D)] [A] B (out B).
Definition moduleC : Mod.t := Mod.mk [(D, D)] [A] C (out C).

(** The two heaps a cold start can build: [D] was first reached from [B],
    or from [C]. *)
Definition heapBC : list Mod.t :=
  [moduleA; moduleB; moduleC; Mod.mk [] [B; C] D (out D)].

Definition heapCB : list Mod.t :=
  [moduleA; moduleB; moduleC; Mod.mk [] [C; B] D (out D)].

(** The graph in the order of discovery. *)
Definition discovered : Graph.t :=
  Graph.mk [(A, 0); (B, 1); (C, 2); (D, 3)] [A].
End Cold.

Lemma Scenario_outcomes depth :
  exists l,
    outcomes Scenario.options depth 9
      (beginTraverse [Scenario.A] [Mod.mk [] [] Scenario.A emptyOutput]
         (Graph.mk [(Scenario.A, 0)] [Scenario.A])) = Some l /\
    Forall
      (fun q =>
         (heap (store q) = Cold.heapBC \/ heap (store q) = Cold.heapCB) /\
         graph (store q) = Cold.discovered)
      l.
Proof.
  eexists. split; [vm_compute; reflexivity|].
  repeat (constructor;
          [split; [first [left; reflexivity|right; reflexivity]|reflexivity]|]).
  constructor.
Qed.

(** C6.  In the scenario, under every schedule that completes the cold
    start, the graph is made of [A], [B], [C] and [D], the inverse
    dependencies of [D] are [B] and [C], and the modules are in the order
    [A], [B], [D], [C]. *)
Theorem linearization_deterministic depth schedule res p :
  initialTraverseDependencies Scenario.options depth schedule []
    Scenario.emptyGraph = Some (res, p) ->
  JSMap.keys (Graph.dependencies (graph (store p))) =
    [Scenario.A; Scenario.B; Scenario.D; Scenario.C] /\
  JSMap.keys (Result.added res) =
    [Scenario.A; Scenario.B; Scenario.D; Scenario.C] /\
  exists r moduleD,
    getModule (store p) Scenario.D = Some (r, moduleD) /\
    (Mod.inverseDependencies moduleD = [Scenario.B; Scenario.C] \/
     Mod.inverseDependencies moduleD = [Scenario.C; Scenario.B]).
Proof.
  unfold initialTraverseDependencies. simpl fold_left.
  change (heap (snd (createModule Scenario.A
                       (mkStore [] Scenario.emptyGraph Delta.empty))))
    with [Mod.mk [] [] Scenario.A emptyOutput].
  change (graph (snd (createModule Scenario.A
                        (mkStore [] Scenario.emptyGraph Delta.empty))))
    with (Graph.mk [(Scenario.A, 0)] [Scenario.A]).
  destruct (traverseDependencies _ _ _ _ _ _) as [[res0 p0]|] eqn:T;
    [|discriminate].
  apply traverseDependencies_Some in T as (R & A & _).
  destruct (Scenario_outcomes depth) as (l & O & F).
  pose proof (outcomes_complete _ _ _ _ _ _ _ O R A) as Hp.
  rewrite Forall_forall in F. destruct (F _ Hp) as [Hh ->].
  destruct Hh as [-> | ->];
    destruct depth as [|[|[|[|depth]]]];
    match goal with
    | |- context [reorderGraph ?d ?h ?g] =>
        let x := fresh in
        set (x := reorderGraph d h g); vm_compute in x; subst x
    end;
    cbv iota beta; try (intros [=]; fail); intros [= <- <-];
    (split; [reflexivity|]); (split; [reflexivity|]);
    eexists _, _; (split; [reflexivity|]);
    first [left; reflexivity|right; reflexivity].
Qed.

Lemma linearization_deterministic_witness :
  exists res p,
    initialTraverseDependencies Scenario.options 4 [0; 2; 3; 1; 3; 2; 1; 0] []
      Scenario.emptyGraph = Some (res, p) /\
    (Mod.inverseDependencies <$> heap (store p) !! 3) =
      Some [Scenario.C; Scenario.B] /\
    JSMap.keys (Graph.dependencies (graph (store p))) =
      [Scenario.A; Scenario.B; Scenario.D; Scenario.C].
Proof.
  eexists _, _. split; [vm_compute; reflexivity|]. split; [reflexivity|].
  eapply (linearization_deterministic 4 [0; 2; 3; 1; 3; 2; 1; 0]).
  vm_compute. reflexivity.
Defined.

(** The transform of [B] settles before that of [C]. *)
Example Scenario_B_first :
  match
    initialTraverseDependencies Scenario.options 4 [0; 1; 3; 3; 1; 2; 2; 0] []
      Scenario.emptyGraph
  with
  | Some (_, p) =>
      (Mod.inverseDependencies <$> heap (store p) !! 3) =
        Some [Scenario.B; Scenario.C] /\
      JSMap.keys (Graph.dependencies (graph (store p))) =
        [Scenario.A; Scenario.B; Scenario.D; Scenario.C]
  | None => False
  end.
Proof. vm_compute. auto. Qed.

(** Then [A] is edited to import [C] only: [B] is deleted and [D] keeps
    [C] as its referrer. *)
Example Scenario_edit :
  match
    traverseDependencies Scenario.options' 5 [0; 0] [Scenario.A] Cold.heapBC
      (Graph.mk [(Scenario.A, 0); (Scenario.B, 1); (Scenario.D, 3);
                 (Scenario.C, 2)] [Scenario.A])
  with
  | Some (res, p) =>
      Result.deleted res = [Scenario.B] /\
      (Mod.inverseDependencies <$> heap (store p) !! 3) = Some [Scenario.C] /\
      JSMap.keys (Graph.dependencies (graph (store p))) =
        [Scenario.A; Scenario.D; Scenario.C]
  | None => False
  end.
Proof. vm_compute. auto. Qed.

(** ** Linearization keeps the reachable modules *)

(** The loop [module.dependencies.forEach] of [reorderDependencies]. *)
Definition visitEach (depth : nat) (h : list Mod.t)
    (dependencies : JSMap.t nat) (ds : JSMap.t string)
    (o : option (JSMap.t nat)) : option (JSMap.t nat) :=
  fold_left
    (fun acc e =>
       match acc with
       | None => None
       | Some o =>
           match getNode h dependencies (snd e) with
           | Some dep => reorderDependencies depth h dep dependencies o
           | None => Some o
           end
       end)
    ds o.

Lemma reorderDependencies_unfold depth h module dependencies o :
  reorderDependencies (S depth) h module dependencies o =
  match nodePath module with
  | Some (path, r) =>
      if JSMap.has o path then Some o
      else visitEach depth h dependencies (nodeDependencies module)
             (Some (JSMap.set o path r))
  | None =>
      visitEach depth h dependencies (nodeDependencies module) (Some o)
  end.
Proof. reflexivity. Qed.

Lemma visitEach_None depth h dependencies ds :
  visitEach depth h dependencies ds None = None.
Proof. induction ds; simpl; auto. Qed.

Section Linearize.
Variable h : list Mod.t.
Variable dependencies : JSMap.t nat.

Hypothesis named :
  forall k r, JSMap.get dependencies k = Some r ->
    exists m, h !! r = Some m /\ Mod.path m = k.
Hypothesis nonempty : JSMap.has dependencies EmptyString = false.

(** [x] imports [y], and the graph has both. *)
Definition edge (x y : string) : Prop :=
  exists r m,
    JSMap.get dependencies x = Some r /\ h !! r = Some m /\
    y ∈ JSMap.values (Mod.dependencies m) /\
    JSMap.has dependencies y = true.

Inductive reachable (starts : list string) : string -> Prop :=
| reachable_start e :
    e ∈ starts -> JSMap.has dependencies e = true -> reachable starts e
| reachable_step x y :
    reachable starts x -> edge x y -> reachable starts y.

Definition closedAt (o : JSMap.t nat) (k : string) : Prop :=
  forall y, edge k y -> JSMap.has o y = true.

(** What the visits started from [starts] have added to the ordered map. *)
Record visited (starts : list string) (o o' : JSMap.t nat) : Prop :=
  mkVisited {
  vis_mono : forall k r, JSMap.get o k = Some r -> JSMap.get o' k = Some r;
  vis_sub :
    (forall k r, JSMap.get o k = Some r -> JSMap.get dependencies k = Some r) ->
    forall k r, JSMap.get o' k = Some r -> JSMap.get dependencies k = Some r;
  vis_sound :
    forall k, JSMap.has o' k = true ->
              JSMap.has o k = true \/ reachable starts k;
  vis_closed :
    forall k, JSMap.has o' k = true -> JSMap.has o k = false -> closedAt o' k;
  vis_entered :
    forall y, y ∈ starts -> JSMap.has dependencies y = true ->
              JSMap.has o' y = true;
}.

Lemma getNode_Some path n :
  getNode h dependencies path = Some n ->
  exists r m, n = ModuleNode r m /\
    JSMap.get dependencies path = Some r /\ h !! r = Some m /\
    Mod.path m = path.
Proof.
  unfold getNode. destruct (JSMap.get dependencies path) as [r|] eqn:G;
    [|discriminate].
  destruct (named _ _ G) as (m & H & P). rewrite H. intros [= <-].
  eauto 10.
Qed.

Lemma getNode_None path :
  getNode h dependencies path = None -> JSMap.has dependencies path = false.
Proof.
  unfold getNode, JSMap.has.
  destruct (JSMap.get dependencies path) as [r|] eqn:G; [|reflexivity].
  destruct (named _ _ G) as (m & H & P). now rewrite H.
Qed.

Lemma reachable_starts s s' k :
  (forall e, e ∈ s -> e ∈ s') -> reachable s k -> reachable s' k.
Proof.
  intros Sub. induction 1 as [e He Hd|x y _ IH E].
  - apply reachable_start; auto.
  - eapply reachable_step; eauto.
Qed.

Lemma reachable_through x s k :
  JSMap.has dependencies x = true ->
  (forall y, y ∈ s -> JSMap.has dependencies y = true -> edge x y) ->
  reachable s k -> reachable [x] k.
Proof.
  intros Hx E. induction 1 as [e He Hd|a b _ IH E'].
  - apply reachable_step with (x := x); [|auto].
    apply reachable_start; [apply list_elem_of_here|assumption].
  - eapply reachable_step; eauto.
Qed.

Lemma has_mono (o o' : JSMap.t nat) :
  (forall k r, JSMap.get o k = Some r -> JSMap.get o' k = Some r) ->
  forall k, JSMap.has o k = true -> JSMap.has o' k = true.
Proof.
  intros M k [r H]%JSMapFacts.has_get. apply JSMapFacts.has_get. eauto.
Qed.

Lemma visited_refl o : visited [] o o.
Proof.
  constructor; auto.
  - intros k H1 H0. congruence.
  - intros y Hy. now apply elem_of_nil in Hy.
Qed.

Lemma visited_seq s1 s2 o o1 o2 :
  visited s1 o o1 -> visited s2 o1 o2 -> visited (s1 ++ s2) o o2.
Proof.
  intros [M1 S1 N1 C1 E1] [M2 S2 N2 C2 E2]. constructor; auto.
  - intros k H. destruct (N2 k H) as [H1|R].
    + destruct (N1 k H1) as [H0|R]; [now left|right].
      eapply reachable_starts; [|exact R]. intros e He.
      apply elem_of_app. auto.
    + right. eapply reachable_starts; [|exact R]. intros e He.
      apply elem_of_app. auto.
  - intros k H2 H0. destruct (JSMap.has o1 k) eqn:H1.
    + intros y Ey. apply (has_mono _ _ M2). now apply (C1 k H1 H0).
    + now apply C2.
  - intros y [Hy|Hy]%elem_of_app Hd; [|auto].
    apply (has_mono _ _ M2). auto.
Qed.

Lemma visited_skip y o :
  JSMap.has dependencies y = false -> visited [y] o o.
Proof.
  intros Hy. constructor; auto.
  - intros k H1 H0. congruence.
  - intros y' ->%list_elem_of_singleton. congruence.
Qed.

Lemma visited_seen y o :
  JSMap.has o y = true -> visited [y] o o.
Proof.
  intros Hy. constructor; auto.
  - intros k H1 H0. congruence.
  - intros y' ->%list_elem_of_singleton. auto.
Qed.

Lemma visited_module x r m o o' :
  JSMap.get dependencies x = Some r -> h !! r = Some m ->
  JSMap.has o x = false ->
  visited (JSMap.values (Mod.dependencies m)) (JSMap.set o x r) o' ->
  visited [x] o o'.
Proof.
  intros G H Hx [M S N C E].
  assert (Hd : JSMap.has dependencies x = true)
    by (apply JSMapFacts.has_get; eauto).
  assert (M0 : forall k r0, JSMap.get o k = Some r0 ->
                            JSMap.get (JSMap.set o x r) k = Some r0).
  { intros k r0 H0. rewrite JSMapFacts.get_set_ne; [assumption|].
    intros <-. apply JSMapFacts.has_false_get in Hx. congruence. }
  assert (Ex : forall y, edge x y ->
                 y ∈ JSMap.values (Mod.dependencies m)).
  { intros y (r' & m' & G' & H' & Hy & _). congruence. }
  constructor.
  - auto.
  - intros Sub. apply S. intros k r0.
    destruct (decide (x = k)) as [<-|Hne].
    + rewrite JSMapFacts.get_set_eq. congruence.
    + rewrite JSMapFacts.get_set_ne by assumption. auto.
  - intros k Hk. destruct (N k Hk) as [H1|R].
    + rewrite JSMapFacts.has_set in H1.
      destruct (String.eqb_spec x k) as [<-|Hne]; simpl in H1; [|now left].
      right. apply reachable_start; [apply list_elem_of_here|assumption].
    + right.
      apply (reachable_through x (JSMap.values (Mod.dependencies m)) k Hd);
        [|assumption].
      intros y Hy Hyd. exists r, m. auto.
  - intros k Hk H0. destruct (decide (x = k)) as [<-|Hne].
    + intros y Ey. destruct Ey as (r' & m' & G' & H' & Hy & Hyd).
      apply E; [congruence|assumption].
    + apply C; [assumption|]. rewrite JSMapFacts.has_set.
      destruct (String.eqb_spec x k); [congruence|assumption].
  - intros y ->%list_elem_of_singleton _.
    apply JSMapFacts.has_get. exists r. apply M, JSMapFacts.get_set_eq.
Qed.
Lemma visitEach_visited depth :
  (forall x r m o o',
     JSMap.get dependencies x = Some r -> h !! r = Some m ->
     reorderDependencies depth h (ModuleNode r m) dependencies o = Some o' ->
     visited [x] o o') ->
  forall ds o o',
    visitEach depth h dependencies ds (Some o) = Some o' ->
    visited (JSMap.values ds) o o'.
Proof.
  intros IH. unfold visitEach.
  induction ds as [|[specifier y] ds IHds]; intros o o' E; simpl in E.
  - injection E as <-. apply visited_refl.
  - change (JSMap.values ((specifier, y) :: ds))
      with ([y] ++ JSMap.values ds).
    destruct (getNode h dependencies y) as [n|] eqn:G.
    + destruct (getNode_Some _ _ G) as (r & m & -> & Gr & Hm & _).
      destruct (reorderDependencies depth h (ModuleNode r m) dependencies o)
        as [o1|] eqn:E1.
      * eapply visited_seq; [eapply IH; eauto|]. now apply IHds.
      * fold (visitEach depth h dependencies ds None) in E.
        now rewrite visitEach_None in E.
    + apply (visited_seq [y] (JSMap.values ds) o o o');
        [|now apply IHds].
      apply visited_skip. now apply getNode_None.
Qed.

Lemma reorderDependencies_visited depth :
  forall x r m o o',
    JSMap.get dependencies x = Some r -> h !! r = Some m ->
    reorderDependencies depth h (ModuleNode r m) dependencies o = Some o' ->
    visited [x] o o'.
Proof.
  induction depth as [|depth IH]; intros x r m o o' G Hm E; [discriminate|].
  rewrite reorderDependencies_unfold in E.
  destruct (named _ _ G) as (m' & Hm' & P).
  assert (m' = m) as -> by congruence.
  assert (Hx : x <> EmptyString).
  { intros ->. apply JSMapFacts.has_false_get in nonempty. congruence. }
  simpl in E. rewrite P in E.
  destruct (String.eqb_spec x EmptyString) as [|_]; [contradiction|].
  destruct (JSMap.has o x) eqn:Ho.
  - injection E as <-. now apply visited_seen.
  - eapply visited_module; eauto.
    eapply visitEach_visited; eauto.
Qed.

Lemma elem_of_set {V} (m : JSMap.t V) k v e :
  e ∈ JSMap.set m k v -> e = (k, v) \/ e ∈ m.
Proof.
  induction m as [|[k' v'] m IH]; simpl.
  - intros ->%list_elem_of_singleton. now left.
  - destruct (String.eqb_spec k' k) as [->|Hne];
      intros [->|H]%elem_of_cons.
    + now left.
    + right. now apply list_elem_of_further.
    + right. apply list_elem_of_here.
    + destruct (IH H) as [->|H']; [now left|right].
      now apply list_elem_of_further.
Qed.

Lemma elem_of_setAll {V} (src : list (string * V)) :
  forall (dst : JSMap.t V) e,
    e ∈ JSMap.setAll dst src -> e ∈ dst \/ e ∈ src.
Proof.
  unfold JSMap.setAll. induction src as [|[k v] src IH]; intros dst e H;
    simpl in H; [now left|].
  destruct (IH _ _ H) as [H'|H']; [|right; now apply list_elem_of_further].
  destruct (elem_of_set _ _ _ _ H') as [->|H'']; [right|now left].
  apply list_elem_of_here.
Qed.

Lemma values_entryPoints (entryPoints : list string) y :
  y ∈ JSMap.values (JSMap.ofEntries (List.map (fun e => (e, e)) entryPoints))
  <-> y ∈ entryPoints.
Proof.
  split.
  - intros [k H]%JSMapFacts.elem_of_values.
    apply elem_of_setAll in H as [H|H]; [now apply elem_of_nil in H|].
    apply list_elem_of_In, in_map_iff in H as (e & [= -> ->] & He).
    now apply list_elem_of_In.
  - intros Hy.
    assert (JSMap.has
              (JSMap.ofEntries (List.map (fun e => (e, e)) entryPoints)) y
            = true) as [v Hv]%JSMapFacts.has_get.
    { unfold JSMap.ofEntries. rewrite JSMapFacts.has_setAll. simpl.
      apply (JSMapFacts.elem_of_has _ y y).
      apply list_elem_of_In, in_map_iff. exists y.
      split; [reflexivity|now apply list_elem_of_In]. }
    pose proof Hv as [H|H]%get_setAll_Some; [|discriminate].
    apply list_elem_of_In, in_map_iff in H as (e & [= -> ->] & He).
    eapply JSMapFacts.get_values; eauto.
Qed.

(** The linearized graph has the modules that the entry points reach, as
    the objects the graph had. *)
Lemma reorderGraph_reachable depth entryPoints g' :
  reorderGraph depth h (Graph.mk dependencies entryPoints) = Some g' ->
  Graph.entryPoints g' = entryPoints /\
  forall k r,
    JSMap.get (Graph.dependencies g') k = Some r <->
    JSMap.get dependencies k = Some r /\ reachable entryPoints k.
Proof.
  unfold reorderGraph. simpl.
  destruct (reorderDependencies _ _ _ _ _) as [d'|] eqn:E; [|discriminate].
  intros [= <-]. simpl. split; [reflexivity|].
  destruct depth as [|depth]; [discriminate|].
  rewrite reorderDependencies_unfold in E. simpl in E.
  apply (visitEach_visited depth (reorderDependencies_visited depth)) in E.
  destruct E as [M S N C En].
  assert (Sub : forall k r, JSMap.get d' k = Some r ->
                            JSMap.get dependencies k = Some r)
    by (apply S; discriminate).
  assert (In' : forall k, reachable entryPoints k -> JSMap.has d' k = true).
  { induction 1 as [e He Hd|x y _ IH Exy].
    - apply En; [now apply values_entryPoints|assumption].
    - now apply (C x IH).  }
  intros k r. split.
  - intros H. split; [auto|].
    destruct (N k) as [H0|R]; [apply JSMapFacts.has_get; eauto|discriminate|].
    eapply reachable_starts; [|exact R].
    intros e He. now apply values_entryPoints.
  - intros [G R]. apply In' in R. apply JSMapFacts.has_get in R as [r' H'].
    rewrite H'. f_equal. apply Sub in H'. congruence.
Qed.
End Linearize.

(** ** Cold start *)

(** The graph names its modules by their path, and no path is empty. *)
Definition pathsOk (s : Store) : Prop :=
  graph_ok s /\ JSMap.has (Graph.dependencies (graph s)) EmptyString = false.

Lemma pathsOk_shrinks s s' : shrinks s s' -> pathsOk s -> pathsOk s'.
Proof.
  intros Sh [W N]. split; [eapply shrinks_graph_ok; eauto|].
  eapply shrinks_has_false; eauto.
Qed.

Lemma pathsOk_alter f r s :
  (forall m, Mod.path (f m) = Mod.path m) ->
  pathsOk s -> pathsOk (setHeap (alter f r (heap s)) s).
Proof.
  intros Hf [W N]. split; [|exact N]. intros k r0 G. simpl in *.
  destruct (W _ _ G) as (m & H & P).
  destruct (decide (r = r0)) as [<-|Hne].
  - exists (f m). rewrite list_lookup_alter_eq, H. split; [reflexivity|].
    now rewrite Hf.
  - exists m. now rewrite list_lookup_alter_ne.
Qed.

Lemma pathsOk_createModule path s :
  path <> EmptyString -> pathsOk s -> pathsOk (snd (createModule path s)).
Proof.
  intros Hp [W N]. unfold createModule. simpl. split.
  - intros k r G. simpl in *. destruct (decide (path = k)) as [<-|Hne].
    + rewrite JSMapFacts.get_set_eq in G. injection G as <-.
      eexists. rewrite lookup_app_r, Nat.sub_diag by lia. simpl. eauto.
    + rewrite JSMapFacts.get_set_ne in G by assumption.
      destruct (W _ _ G) as (m & H & P). exists m.
      split; [now apply lookup_app_l_Some|assumption].
  - simpl. rewrite JSMapFacts.has_set, N.
    destruct (String.eqb_spec path EmptyString); [contradiction|reflexivity].
Qed.

Lemma pathsOk_delta d s : pathsOk s -> pathsOk (setDelta d s).
Proof. intros [W N]. split; assumption. Qed.

Lemma addDependency_pathsOk parentModule path root self p :
  path <> EmptyString -> pathsOk (store p) ->
  pathsOk (store (addDependency parentModule path root self p)).
Proof.
  intros Hp J. unfold addDependency.
  destruct (getModule (store p) path) as [[r m]|]; simpl.
  - now apply pathsOk_alter.
  - apply (pathsOk_alter _ _ (snd (createModule path (store p)))); [auto|].
    now apply pathsOk_createModule.
Qed.

Lemma addNew_pathsOk module previous current root self :
  (forall e, e ∈ current -> snd e <> EmptyString) ->
  forall p,
    pathsOk (store p) ->
    pathsOk (store (addNew module previous current root self p)).
Proof.
  unfold addNew. induction current as [|e current IH]; intros Hc p J; simpl;
    [assumption|].
  apply IH; [intros e' He'; apply Hc; now apply list_elem_of_further|].
  destruct (JSMap.has previous (fst e)); [assumption|].
  apply addDependency_pathsOk; [|assumption].
  apply Hc, list_elem_of_here.
Qed.

Lemma resolveDependencies_values parentPath dependencies options e :
  e ∈ resolveDependencies parentPath dependencies options ->
  snd e = resolve options parentPath (fst e).
Proof.
  unfold resolveDependencies, JSMap.ofEntries.
  intros [H|H]%elem_of_setAll; [now apply elem_of_nil in H|].
  apply list_elem_of_In, in_map_iff in H as (x & <- & _). reflexivity.
Qed.

Lemma advance_pathsOk options depth self p p' :
  (forall from specifier, resolve options from specifier <> EmptyString) ->
  pathsOk (store p) -> advance options depth self p = Some p' ->
  pathsOk (store p').
Proof.
  intros Hr J. unfold advance.
  destruct (tasks p !! self) as [task|]; [|discriminate].
  destruct (t_status task); [| |discriminate].
  - unfold processModule_resume.
    destruct (heap (store p) !! t_module task) as [module0|] eqn:H;
      [|discriminate].
    cbv zeta. destruct (removeDropped _ _ _ _ _) as [s2|] eqn:E;
      [|discriminate].
    intros [= <-]. simpl. apply addNew_pathsOk.
    + intros e He. rewrite (resolveDependencies_values _ _ _ _ He). apply Hr.
    + simpl. apply (pathsOk_shrinks _ _ (removeDropped_shrinks _ _ _ _ _ _ E)).
      destruct J as [W N]. split; [|exact N]. intros k r G. simpl in *.
      destruct (W _ _ G) as (m & Hm & P).
      destruct (decide (t_module task = r)) as [<-|Hne].
      * eexists. rewrite list_lookup_insert_eq
          by (eapply lookup_lt_Some; eauto).
        split; [reflexivity|]. simpl. congruence.
      * exists m. now rewrite list_lookup_insert_ne.
  - destruct (childrenCompleted self (tasks p)); [|discriminate].
    now intros [= <-].
Qed.

Lemma traverse_pathsOk options depth schedule paths h g p :
  (forall from specifier, resolve options from specifier <> EmptyString) ->
  pathsOk (mkStore h g Delta.empty) ->
  run options depth schedule (beginTraverse paths h g) = Some p ->
  pathsOk (store p).
Proof.
  intros Hr J.
  apply (run_invariant (fun p => pathsOk (store p))).
  - intros self p0 p1. now apply advance_pathsOk.
  - destruct (beginTraverse_store paths h g) as (Hh & Hg & _).
    destruct J as [W N]. split.
    + intros k r G. rewrite Hg in G. rewrite Hh. exact (W k r G).
    + now rewrite Hg.
Qed.

Lemma createModules_pathsOk entryPoints :
  (forall e, e ∈ entryPoints -> e <> EmptyString) ->
  forall s,
    pathsOk s ->
    pathsOk (fold_left (fun s e => snd (createModule e s)) entryPoints s).
Proof.
  induction entryPoints as [|e entryPoints IH]; intros He s J; simpl;
    [assumption|].
  apply IH; [intros e' He'; apply He; now apply list_elem_of_further|].
  apply pathsOk_createModule; [apply He, list_elem_of_here|assumption].
Qed.

Lemma createModules_entryPoints entryPoints :
  forall s,
    Graph.entryPoints
      (graph (fold_left (fun s e => snd (createModule e s)) entryPoints s))
    = Graph.entryPoints (graph s).
Proof.
  induction entryPoints as [|e entryPoints IH]; intros s; simpl;
    [reflexivity|].
  now rewrite IH.
Qed.

Lemma createModules_delta entryPoints :
  forall s,
    delta (fold_left (fun s e => snd (createModule e s)) entryPoints s)
    = delta s.
Proof.
  induction entryPoints as [|e entryPoints IH]; intros s; simpl;
    [reflexivity|].
  now rewrite IH.
Qed.

Lemma addDependency_entryPoints parentModule path root self p :
  Graph.entryPoints (graph (store (addDependency parentModule path root self p)))
  = Graph.entryPoints (graph (store p)).
Proof.
  unfold addDependency. destruct (getModule (store p) path) as [[r m]|];
    reflexivity.
Qed.

Lemma addNew_entryPoints module previous current root self :
  forall p,
    Graph.entryPoints
      (graph (store (addNew module previous current root self p)))
    = Graph.entryPoints (graph (store p)).
Proof.
  unfold addNew. induction current as [|e current IH]; intros p; simpl;
    [reflexivity|].
  rewrite IH. destruct (JSMap.has previous (fst e)); [reflexivity|].
  apply addDependency_entryPoints.
Qed.

Lemma advance_entryPoints options depth self p p' :
  advance options depth self p = Some p' ->
  Graph.entryPoints (graph (store p')) = Graph.entryPoints (graph (store p)).
Proof.
  unfold advance. destruct (tasks p !! self) as [task|]; [|discriminate].
  destruct (t_status task); [| |discriminate].
  - unfold processModule_resume.
    destruct (heap (store p) !! t_module task) as [module0|]; [|discriminate].
    cbv zeta. destruct (removeDropped _ _ _ _ _) as [s2|] eqn:E;
      [|discriminate].
    intros [= <-]. simpl. rewrite addNew_entryPoints. simpl.
    apply (shr_entry _ _ (removeDropped_shrinks _ _ _ _ _ _ E)).
  - destruct (childrenCompleted self (tasks p)); [|discriminate].
    now intros [= <-].
Qed.

Lemma traverse_entryPoints options depth schedule paths h g p :
  run options depth schedule (beginTraverse paths h g) = Some p ->
  Graph.entryPoints (graph (store p)) = Graph.entryPoints g.
Proof.
  apply (run_invariant
           (fun p => Graph.entryPoints (graph (store p)) = Graph.entryPoints g)).
  - intros self p0 p1 H0 A. now rewrite (advance_entryPoints _ _ _ _ _ A).
  - now destruct (beginTraverse_store paths h g) as (_ & -> & _).
Qed.

(** A cold start that returns, returns the dependencies of the resulting
    graph as [added] and an empty [deleted]; the resulting graph is the
    linearization of the graph its traversal has built, and, that graph
    naming its modules by their non-empty paths, it holds exactly the
    modules that the entry points reach. *)
Lemma initialTraverseDependencies_Some options depth schedule h g res p :
  initialTraverseDependencies options depth schedule h g = Some (res, p) ->
  Result.added res = Graph.dependencies (graph (store p)) /\
  Result.deleted res = [] /\
  exists res0 p0,
    let s0 :=
      fold_left (fun s e => snd (createModule e s)) (Graph.entryPoints g)
        (mkStore h g Delta.empty) in
    traverseDependencies options depth schedule (Graph.entryPoints g)
      (heap s0) (graph s0) = Some (res0, p0) /\
    heap (store p) = heap (store p0) /\
    reorderGraph depth (heap (store p0)) (graph (store p0)) =
      Some (graph (store p)) /\
    (pathsOk (store p0) ->
     forall k r,
       JSMap.get (Result.added res) k = Some r <->
       JSMap.get (Graph.dependencies (graph (store p0))) k = Some r /\
       reachable (heap (store p0)) (Graph.dependencies (graph (store p0)))
         (Graph.entryPoints g) k).
Proof.
  unfold initialTraverseDependencies.
  set (s0 := fold_left (fun s e => snd (createModule e s))
               (Graph.entryPoints g) (mkStore h g Delta.empty)).
  destruct (traverseDependencies _ _ _ _ _ _) as [[res0 p0]|] eqn:T;
    [|discriminate].
  destruct (reorderGraph depth (heap (store p0)) (graph (store p0)))
    as [g'|] eqn:O; [|discriminate].
  intros [= <- <-]. simpl. split; [reflexivity|]. split; [reflexivity|].
  exists res0, p0.
  split_and!; [first [reflexivity|exact T|exact O]..|].
  intros [W N] k r.
  apply traverseDependencies_Some in T as (R & _ & _).
  pose proof (traverse_entryPoints _ _ _ _ _ _ _ R) as En.
  unfold s0 in En. rewrite createModules_entryPoints in En. simpl in En.
  destruct (graph (store p0)) as [deps0 entry0] eqn:G0. simpl in *. subst entry0.
  assert (W' : forall k r, JSMap.get deps0 k = Some r ->
                 exists m, heap (store p0) !! r = Some m /\ Mod.path m = k).
  { intros k0 r0 G. apply W. now rewrite G0. }
  destruct (reorderGraph_reachable _ _ W' N _ _ _ O) as [_ Hk].
  apply Hk.
Qed.

(** ** A cold start completes

    On a finite set of paths [U] that holds the entry points and is closed
    under the imports, a cold start has a schedule that completes it. *)










Lemma getModule_None_has s path :
  graph_ok s -> getModule s path = None ->
  JSMap.has (Graph.dependencies (graph s)) path = false.
Proof.
  intros W G. destruct (JSMap.has _ path) eqn:E; [|reflexivity].
  destruct (has_getModule _ _ W E) as (r & m & G'). congruence.
Qed.












(** *** The linearization returns *)

Section LinearizeReturns.
Variable h : list Mod.t.
Variable dependencies : JSMap.t nat.

Hypothesis named :
  forall k r, JSMap.get dependencies k = Some r ->
    exists m, h !! r = Some m /\ Mod.path m = k.
Hypothesis nonempty : JSMap.has dependencies EmptyString = false.

(** The paths of the graph that the ordered map does not have yet. *)
Definition pendingKeys (o : JSMap.t nat) : nat :=
  length
    (List.filter (fun k => negb (JSMap.has o k)) (JSMap.keys dependencies)).

Definition grows (o o' : JSMap.t nat) : Prop :=
  forall k, JSMap.has o k = true -> JSMap.has o' k = true.

Lemma pendingKeys_grows o o' : grows o o' -> pendingKeys o' <= pendingKeys o.
Proof.
  intros G. unfold pendingKeys. apply filter_length_le. intros k _ Hk.
  destruct (JSMap.has o k) eqn:E; [|reflexivity].
  now rewrite (G k E) in Hk.
Qed.

Lemma pendingKeys_set o path r :
  JSMap.has dependencies path = true -> JSMap.has o path = false ->
  pendingKeys (JSMap.set o path r) < pendingKeys o.
Proof.
  intros Hd Ho. unfold pendingKeys.
  apply filter_length_lt with (a := path).
  - intros k _. rewrite JSMapFacts.has_set.
    destruct (String.eqb path k); [discriminate|auto].
  - now apply JSMapFacts.has_keys.
  - now rewrite JSMapFacts.has_set, String.eqb_refl.
  - now rewrite Ho.
Qed.

Lemma visitEach_returns depth :
  (forall r m o,
     JSMap.has dependencies (Mod.path m) = true ->
     pendingKeys o < depth ->
     exists o',
       reorderDependencies depth h (ModuleNode r m) dependencies o = Some o' /\
       grows o o') ->
  forall ds o,
    pendingKeys o < depth ->
    exists o',
      visitEach depth h dependencies ds (Some o) = Some o' /\ grows o o'.
Proof.
  intros Hm. unfold visitEach.
  induction ds as [|e ds IH]; intros o Ho; simpl.
  - exists o. split; [reflexivity|]. now intros k.
  - destruct (getNode h dependencies (snd e)) as [dep|] eqn:N; [|now apply IH].
    unfold getNode in N.
    destruct (JSMap.get dependencies (snd e)) as [r|] eqn:G; [|discriminate].
    destruct (named _ _ G) as (m & H & P). rewrite H in N.
    injection N as <-.
    destruct (Hm r m o) as (o1 & -> & G1); [|assumption|].
    { rewrite P. unfold JSMap.has. now rewrite G. }
    destruct (IH o1) as (o2 & -> & G2).
    { pose proof (pendingKeys_grows _ _ G1). lia. }
    exists o2. split; [reflexivity|]. intros k Hk. auto.
Qed.

Lemma reorderDependencies_returns depth :
  forall r m o,
    JSMap.has dependencies (Mod.path m) = true ->
    pendingKeys o < depth ->
    exists o',
      reorderDependencies depth h (ModuleNode r m) dependencies o = Some o' /\
      grows o o'.
Proof.
  induction depth as [|depth IH]; intros r m o Hd Ho; [lia|].
  rewrite reorderDependencies_unfold. unfold nodePath.
  destruct (String.eqb_spec (Mod.path m) EmptyString) as [E|_];
    [rewrite E in Hd; congruence|].
  destruct (JSMap.has o (Mod.path m)) eqn:Has.
  - exists o. split; [reflexivity|]. now intros k.
  - pose proof (pendingKeys_set o (Mod.path m) r Hd Has) as Lt.
    destruct (visitEach_returns depth IH (Mod.dependencies m)
                (JSMap.set o (Mod.path m) r)) as (o' & E & G); [lia|].
    exists o'. split; [exact E|]. intros k Hk. apply G.
    rewrite JSMapFacts.has_set, Hk. apply orb_true_r.
Qed.

Lemma reorderGraph_returns depth entryPoints :
  length dependencies + 2 <= depth ->
  exists g',
    reorderGraph depth h (Graph.mk dependencies entryPoints) = Some g'.
Proof.
  intros Hd. destruct depth as [|depth]; [lia|].
  unfold reorderGraph. rewrite reorderDependencies_unfold. simpl.
  destruct (visitEach_returns depth (reorderDependencies_returns depth)
              (JSMap.ofEntries (List.map (fun e => (e, e)) entryPoints)) [])
    as (o' & -> & _); [|eauto].
  unfold pendingKeys.
  pose proof (List.filter_length_le
                (fun k => negb (JSMap.has (V:=nat) [] k))
                (JSMap.keys dependencies)) as L.
  unfold JSMap.keys in *. rewrite length_map in L. lia.
Qed.

End LinearizeReturns.

(** *** The entry points of a cold start *)












(** ** A removal that does not return *)

Module Respecified.
Import Cycle.

(** After the edit: [E] imports [A] under another specifier. *)
Definition imports (path : string) : list string :=
  if String.eqb path E then ["a2"%string]
  else if String.eqb path A then [E] else [].

Definition options : Options :=
  mkOptions
    (fun _ specifier => if String.eqb specifier "a2" then A else specifier)
    (fun path => mkTransformResult (imports path) emptyOutput).

(** The store the cascade comes to, and stays in: [E] and [A] have lost
    their referrers and are marked deleted, and each still imports the
    other. *)
Definition loop : Store :=
  mkStore
    [Mod.mk [("a2"%string, A)] [] E emptyOutput;
     Mod.mk [(E, E)] [] A emptyOutput]
    graph0 (Delta.mk [] [(E, 0)] [A; E]).
End Respecified.

Lemma Respecified_loop depth :
  forall parentE parentA,
    Mod.path parentE = Cycle.E -> Mod.path parentA = Cycle.A ->
    removeDependency depth parentE Cycle.A Respecified.loop = None /\
    removeDependency depth parentA Cycle.E Respecified.loop = None.
Proof.
  induction depth as [|depth IH]; intros parentE parentA PE PA;
    [split; reflexivity|].
  rewrite !removeDependency_unfold. split.
  - change (getModule Respecified.loop Cycle.A)
      with (Some (1, Mod.mk [(Cycle.E, Cycle.E)] [] Cycle.A emptyOutput)).
    cbv beta iota zeta. unfold dropInverse. simpl.
    match goal with
    | |- context [removeDependency depth ?m Cycle.E ?s] =>
        change s with Respecified.loop;
        now destruct (IH parentE m PE eq_refl) as [_ ->]
    end.
  - change (getModule Respecified.loop Cycle.E)
      with (Some (0, Mod.mk [("a2"%string, Cycle.A)] [] Cycle.E emptyOutput)).
    cbv beta iota zeta. unfold dropInverse. simpl.
    match goal with
    | |- context [removeDependency depth ?m Cycle.A ?s] =>
        change s with Respecified.loop;
        now destruct (IH m parentA eq_refl PA) as [-> _]
    end.
Qed.

(** The pass of the edit does not complete, whatever the depth and the
    schedule: the removal of the dropped specifier goes from [A] to [E] and
    back to [A] without end. *)
Example Respecified_traverse depth schedule :
  traverseDependencies Respecified.options depth schedule [Cycle.E]
    Cycle.heap0 Cycle.graph0 = None.
Proof.
  unfold traverseDependencies.
  set (p0 := beginTraverse [Cycle.E] Cycle.heap0 Cycle.graph0).
  destruct schedule as [|self schedule]; [reflexivity|].
  simpl run. destruct self as [|self]; [|reflexivity].
  enough (advance Respecified.options depth 0 p0 = None) as -> by reflexivity.
  destruct depth as [|[|depth]]; [reflexivity..|].
  unfold advance, processModule_resume, removeDropped. simpl.
  unfold dropInverse. simpl.
  match goal with
  | |- context [removeDependency depth ?m Cycle.A ?s] =>
      change s with Respecified.loop;
      now destruct (Respecified_loop depth m (Mod.mk [] [] Cycle.A emptyOutput)
                     eq_refl eq_refl) as [-> _]
  end.
Qed.


(** * Further properties *)

(** ** The result of a pass *)

Lemma reconcileDeleted_unmarked modified deleted :
  forall acc k,
    k ∈ deleted -> JSMap.has (fst acc) k = false ->
    k ∈ snd (fold_left (reconcileDeleted modified) deleted acc).
Proof.
  induction deleted as [|x deleted IH]; intros acc k H A; simpl.
  - now apply elem_of_nil in H.
  - destruct (decide (x = k)) as [->|Hne].
    + apply reconcileDeleted_mono. unfold reconcileDeleted. rewrite A. simpl.
      apply JSSetFacts.elem_of_add. auto.
    + apply elem_of_cons in H as [H|H]; [congruence|].
      apply IH; [assumption|].
      rewrite reconcileDeleted_fst, JSMapFacts.has_delete, A.
      apply andb_false_r.
Qed.

Lemma reconcileDeleted_sub modified deleted :
  forall acc k,
    k ∈ snd (fold_left (reconcileDeleted modified) deleted acc) ->
    k ∈ deleted \/ k ∈ snd acc.
Proof.
  intros acc k H. destruct (decide (k ∈ deleted)) as [|Hd]; [auto|].
  destruct (decide (k ∈ snd acc)) as [|Ha]; [auto|].
  now destruct (reconcileDeleted_other modified deleted acc k).
Qed.

Lemma reconcile_added d k :
  JSMap.has (Result.added (reconcile d)) k =
  ((JSMap.has (Delta.added d) k || JSMap.has (Delta.modified d) k) &&
   negb (JSSet.has (Delta.deleted d) k))%bool.
Proof.
  unfold reconcile. simpl. rewrite reconcileDeleted_added. simpl.
  rewrite !JSMapFacts.has_setAll. simpl.
  now destruct (JSMap.has (Delta.added d) k),
    (JSMap.has (Delta.modified d) k).
Qed.

Lemma reconcile_deleted d k :
  NoDup (Delta.deleted d) ->
  k ∈ Result.deleted (reconcile d) <->
  k ∈ Delta.deleted d /\
  (JSMap.has (Delta.modified d) k = true \/
   JSMap.has (Delta.added d) k = false).
Proof.
  intros N. unfold reconcile. simpl. split.
  - intros H. split.
    + apply reconcileDeleted_sub in H as [H|H]; [assumption|].
      now apply elem_of_nil in H.
    + destruct (JSMap.has (Delta.modified d) k) eqn:M; [auto|].
      destruct (JSMap.has (Delta.added d) k) eqn:A; [|auto].
      exfalso. revert H. apply reconcileDeleted_cancel; simpl.
      * assumption.
      * now rewrite !JSMapFacts.has_setAll, A.
      * now rewrite JSMapFacts.has_setAll, M.
      * apply not_elem_of_nil.
  - intros [D [M|A]].
    + apply reconcileDeleted_modified; [assumption|].
      now rewrite JSMapFacts.has_setAll, M.
    + destruct (JSMap.has (Delta.modified d) k) eqn:M.
      * apply reconcileDeleted_modified; [assumption|].
        now rewrite JSMapFacts.has_setAll, M.
      * apply reconcileDeleted_unmarked; [assumption|]. simpl.
        now rewrite !JSMapFacts.has_setAll, A, M.
Qed.

(** X1.  The result of a pass, from the delta the pass ends with: [added]
    holds the paths that are in [added] or [modified] of the delta and not
    in its [deleted]; [deleted] holds the deleted paths that are in
    [modified] or not in [added].  No path is in both parts of the
    result. *)
Theorem result_of_delta options depth schedule paths h g res p :
  traverseDependencies options depth schedule paths h g = Some (res, p) ->
  (forall k,
     JSMap.has (Result.added res) k =
     ((JSMap.has (Delta.added (delta (store p))) k ||
       JSMap.has (Delta.modified (delta (store p))) k) &&
      negb (JSSet.has (Delta.deleted (delta (store p))) k))%bool) /\
  (forall k,
     k ∈ Result.deleted res <->
     k ∈ Delta.deleted (delta (store p)) /\
     (JSMap.has (Delta.modified (delta (store p))) k = true \/
      JSMap.has (Delta.added (delta (store p))) k = false)) /\
  (forall k, k ∈ Result.deleted res -> JSMap.has (Result.added res) k = false).
Proof.
  intros (R & _ & ->)%traverseDependencies_Some.
  pose proof (traverse_deleted_NoDup _ _ _ _ _ _ _ R) as N.
  split_and!.
  - apply reconcile_added.
  - intros k. now apply reconcile_deleted.
  - intros k [D _]%reconcile_deleted; [|assumption].
    rewrite reconcile_added. apply JSSetFacts.has_elem_of in D.
    rewrite D. apply andb_false_r.
Qed.

Lemma result_of_delta_witness :
  exists res p,
    traverseDependencies Replace.options 5 Replace.schedule
      [Replace.P; Replace.Q] Replace.heap0 Replace.graph0 = Some (res, p) /\
    JSMap.has (Result.added res) Replace.Q = true /\
    (Replace.P ∈ Result.deleted res ->
     JSMap.has (Result.added res) Replace.P = false).
Proof.
  eexists _, _. split; [vm_compute; reflexivity|].
  edestruct (result_of_delta Replace.options 5 Replace.schedule
               [Replace.P; Replace.Q] Replace.heap0 Replace.graph0)
    as (Ha & _ & Hx); [vm_compute; reflexivity|].
  split; [rewrite Ha; reflexivity|apply Hx].
Defined.

Lemma addDependency_modified parentModule path root self p :
  Delta.modified (delta (store (addDependency parentModule path root self p)))
  = Delta.modified (delta (store p)).
Proof.
  unfold addDependency. destruct (getModule (store p) path) as [[r m]|];
    reflexivity.
Qed.

Lemma addNew_modified module previous current root self :
  forall p,
    Delta.modified (delta (store (addNew module previous current root self p)))
    = Delta.modified (delta (store p)).
Proof.
  unfold addNew. induction current as [|e current IH]; intros p; simpl;
    [reflexivity|].
  rewrite IH. destruct (JSMap.has previous (fst e)); [reflexivity|].
  apply addDependency_modified.
Qed.

Lemma advance_modified options depth self p p' :
  advance options depth self p = Some p' ->
  Delta.modified (delta (store p')) = Delta.modified (delta (store p)).
Proof.
  unfold advance. destruct (tasks p !! self) as [task|]; [|discriminate].
  destruct (t_status task); [| |discriminate].
  - unfold processModule_resume.
    destruct (heap (store p) !! t_module task) as [module0|]; [|discriminate].
    cbv zeta. destruct (removeDropped _ _ _ _ _) as [s2|] eqn:E;
      [|discriminate].
    intros [= <-]. simpl. rewrite addNew_modified. simpl.
    apply (shr_modified _ _ (removeDropped_shrinks _ _ _ _ _ _ E)).
  - destruct (childrenCompleted self (tasks p)); [|discriminate].
    now intros [= <-].
Qed.

Lemma run_modified options depth schedule :
  forall p p',
    run options depth schedule p = Some p' ->
    Delta.modified (delta (store p')) = Delta.modified (delta (store p)).
Proof.
  induction schedule as [|self schedule IH]; intros p p' H; simpl in H.
  - now injection H as <-.
  - destruct (advance options depth self p) as [p1|] eqn:E; [|discriminate].
    rewrite (IH _ _ H). eapply advance_modified; eauto.
Qed.

Lemma traversePath_modified path p k :
  JSMap.has (Delta.modified (delta (store (traversePath path p)))) k =
  match getModule (store p) path with
  | Some (r, m) =>
      (String.eqb (Mod.path m) k ||
       JSMap.has (Delta.modified (delta (store p))) k)%bool
  | None => JSMap.has (Delta.modified (delta (store p))) k
  end.
Proof.
  unfold traversePath. destruct (getModule (store p) path) as [[r m]|];
    [|reflexivity].
  simpl. apply JSMapFacts.has_set.
Qed.

(** The paths that the start of a pass records as modified: those of the
    modules that the changed paths name. *)
Lemma beginTraverse_modified paths h g k :
  JSMap.has (Delta.modified (delta (store (beginTraverse paths h g)))) k = true
  <->
  exists path r m,
    path ∈ paths /\ getModule (mkStore h g Delta.empty) path = Some (r, m) /\
    Mod.path m = k.
Proof.
  unfold beginTraverse.
  enough (forall p,
            heap (store p) = h -> graph (store p) = g ->
            JSMap.has
              (Delta.modified
                 (delta (store (fold_left (fun p path => traversePath path p)
                                  paths p)))) k = true <->
            JSMap.has (Delta.modified (delta (store p))) k = true \/
            exists path r m,
              path ∈ paths /\
              getModule (mkStore h g Delta.empty) path = Some (r, m) /\
              Mod.path m = k) as K.
  { rewrite K by reflexivity. simpl. split; [intros [H|H]|auto];
      [discriminate|assumption]. }
  induction paths as [|path paths IH]; intros p Hh Hg; simpl.
  - split; [auto|]. intros [H|(path & r & m & H & _)]; [assumption|].
    now apply elem_of_nil in H.
  - destruct (traversePath_store path p) as (Th & Tg & _).
    rewrite IH by congruence. rewrite traversePath_modified.
    assert (G : getModule (store p) path =
                getModule (mkStore h g Delta.empty) path)
      by (unfold getModule; simpl; now rewrite Hh, Hg).
    rewrite G. split.
    + intros [H|(path' & r & m & H & G' & P)].
      * destruct (getModule (mkStore h g Delta.empty) path) as [[r m]|] eqn:E;
          [|auto].
        apply orb_true_iff in H as [H|H]; [|auto].
        apply String.eqb_eq in H. right. exists path, r, m.
        split; [apply list_elem_of_here|auto].
      * right. exists path', r, m.
        split; [now apply list_elem_of_further|auto].
    + intros [H|(path' & r & m & [->|H]%elem_of_cons & G' & P)].
      * left. destruct (getModule (mkStore h g Delta.empty) path) as [[r m]|];
          [|assumption].
        rewrite H. apply orb_true_r.
      * left. rewrite G'. subst k. now rewrite String.eqb_refl.
      * right. eauto 10.
Qed.

(** X2.  Every changed path that names a module is reported by the pass,
    under the path of that module, in exactly one part of the result: in
    [deleted] when the pass has removed it, in [added] otherwise. *)
Theorem changed_path_reported options depth schedule paths h g res p
    path r m :
  traverseDependencies options depth schedule paths h g = Some (res, p) ->
  path ∈ paths ->
  getModule (mkStore h g Delta.empty) path = Some (r, m) ->
  (Mod.path m ∈ Delta.deleted (delta (store p)) /\
   Mod.path m ∈ Result.deleted res /\
   JSMap.has (Result.added res) (Mod.path m) = false) \/
  ((Mod.path m ∉ Delta.deleted (delta (store p))) /\
   (Mod.path m ∉ Result.deleted res) /\
   JSMap.has (Result.added res) (Mod.path m) = true).
Proof.
  intros (R & _ & ->)%traverseDependencies_Some Hp G.
  pose proof (traverse_deleted_NoDup _ _ _ _ _ _ _ R) as N.
  assert (M : JSMap.has (Delta.modified (delta (store p))) (Mod.path m) = true).
  { rewrite (run_modified _ _ _ _ _ R). apply beginTraverse_modified.
    eauto 10. }
  destruct (decide (Mod.path m ∈ Delta.deleted (delta (store p)))) as [D|D].
  - left. split; [assumption|]. split.
    + apply reconcile_deleted; auto.
    + rewrite reconcile_added. apply JSSetFacts.has_elem_of in D.
      rewrite D. apply andb_false_r.
  - right. split; [assumption|]. split.
    + intros [H _]%reconcile_deleted; auto.
    + rewrite reconcile_added, M, orb_true_r.
      apply JSSetFacts.has_false_elem_of in D. now rewrite D.
Qed.

Lemma changed_path_reported_witness :
  exists res p,
    traverseDependencies Replace.options 5 Replace.schedule
      [Replace.P; Replace.Q] Replace.heap0 Replace.graph0 = Some (res, p) /\
    Replace.P ∈ Result.deleted res /\
    JSMap.has (Result.added res) Replace.Q = true.
Proof.
  eexists _, _. split; [vm_compute; reflexivity|]. split.
  - edestruct (changed_path_reported Replace.options 5 Replace.schedule
                 [Replace.P; Replace.Q] Replace.heap0 Replace.graph0)
      with (path := Replace.P) as [(_ & D & _)|(D & _)].
    + vm_compute. reflexivity.
    + apply list_elem_of_here.
    + reflexivity.
    + exact D.
    + exfalso. apply D. apply JSSetFacts.has_elem_of. reflexivity.
  - reflexivity.
Defined.

(** ** What a step of a pass keeps *)

Lemma removeDropped_invariant (I : Store -> Prop) depth module current :
  (forall parentModule k s s',
     I s -> removeDependency depth parentModule k s = Some s' -> I s') ->
  forall previous s s',
    I s -> removeDropped depth module current previous s = Some s' -> I s'.
Proof.
  intros Step. unfold removeDropped.
  induction previous as [|e previous IH]; intros s s' Hs H; simpl in H.
  - now injection H as <-.
  - destruct (JSMap.has current (fst e)); [eauto|].
    destruct (removeDependency depth module (snd e) s) as [s1|] eqn:E;
      [eauto|].
    exfalso. clear -H. induction previous; simpl in H; [discriminate|auto].
Qed.

Lemma addNew_invariant (I : Store -> Prop) module previous root self :
  (forall path p,
     I (store p) -> I (store (addDependency module path root self p))) ->
  forall current p,
    I (store p) -> I (store (addNew module previous current root self p)).
Proof.
  intros Step. unfold addNew.
  induction current as [|e current IH]; intros p Hp; simpl; [assumption|].
  apply IH. destruct (JSMap.has previous (fst e)); auto.
Qed.

(** A property of the store that the three changes of a step keep (the
    update of the module, a removal, an addition) is kept by the step. *)
Lemma advance_invariant (I : Store -> Prop) options depth self p p' :
  (forall s r m m0,
     I s -> heap s !! r = Some m0 ->
     Mod.path m = Mod.path m0 ->
     Mod.inverseDependencies m = Mod.inverseDependencies m0 ->
     I (setHeap (<[r := m]> (heap s)) s)) ->
  (forall parentModule k s s',
     I s -> removeDependency depth parentModule k s = Some s' -> I s') ->
  (forall parentModule path root self p,
     I (store p) -> I (store (addDependency parentModule path root self p))) ->
  I (store p) -> advance options depth self p = Some p' -> I (store p').
Proof.
  intros Upd Rem Add Hp. unfold advance.
  destruct (tasks p !! self) as [task|]; [|discriminate].
  destruct (t_status task); [| |discriminate].
  - unfold processModule_resume.
    destruct (heap (store p) !! t_module task) as [module0|] eqn:H;
      [|discriminate].
    cbv zeta. destruct (removeDropped _ _ _ _ _) as [s2|] eqn:E;
      [|discriminate].
    intros [= <-]. simpl. apply addNew_invariant; [auto|]. simpl.
    eapply removeDropped_invariant; [apply Rem| |exact E].
    apply (Upd _ _ _ module0); auto.
  - destruct (childrenCompleted self (tasks p)); [|discriminate].
    now intros [= <-].
Qed.

Lemma graph_ok_insert r m m0 s :
  heap s !! r = Some m0 -> Mod.path m = Mod.path m0 ->
  graph_ok s -> graph_ok (setHeap (<[r := m]> (heap s)) s).
Proof.
  intros H P W k r0 G. simpl in *.
  destruct (W _ _ G) as (m1 & H1 & P1).
  destruct (decide (r = r0)) as [<-|Hne].
  - exists m. rewrite list_lookup_insert_eq by (eapply lookup_lt_Some; eauto).
    split; [reflexivity|congruence].
  - exists m1. now rewrite list_lookup_insert_ne.
Qed.

Lemma graph_ok_alter f r s :
  (forall m, Mod.path (f m) = Mod.path m) ->
  graph_ok s -> graph_ok (setHeap (alter f r (heap s)) s).
Proof.
  intros Hf W k r0 G. simpl in *.
  destruct (W _ _ G) as (m & H & P).
  destruct (decide (r = r0)) as [<-|Hne].
  - exists (f m). rewrite list_lookup_alter_eq, H. split; [reflexivity|].
    now rewrite Hf.
  - exists m. now rewrite list_lookup_alter_ne.
Qed.

Lemma graph_ok_createModule path s :
  graph_ok s -> graph_ok (snd (createModule path s)).
Proof.
  intros W k r G. unfold createModule in *. simpl in *.
  destruct (decide (path = k)) as [<-|Hne].
  - rewrite JSMapFacts.get_set_eq in G. injection G as <-.
    eexists. rewrite lookup_app_r, Nat.sub_diag by lia. simpl. eauto.
  - rewrite JSMapFacts.get_set_ne in G by assumption.
    destruct (W _ _ G) as (m & H & P). exists m.
    split; [now apply lookup_app_l_Some|assumption].
Qed.

Lemma addDependency_graph_ok parentModule path root self p :
  graph_ok (store p) ->
  graph_ok (store (addDependency parentModule path root self p)).
Proof.
  intros W. unfold addDependency.
  destruct (getModule (store p) path) as [[r m]|]; simpl.
  - now apply graph_ok_alter.
  - apply (graph_ok_alter _ _ (snd (createModule path (store p)))); [auto|].
    now apply graph_ok_createModule.
Qed.

Lemma advance_graph_ok options depth self p p' :
  graph_ok (store p) -> advance options depth self p = Some p' ->
  graph_ok (store p').
Proof.
  apply (advance_invariant graph_ok).
  - intros s r m m0 W H P _. now apply (graph_ok_insert r m m0).
  - intros parentModule k s s' W R.
    eapply shrinks_graph_ok; [|exact W].
    eapply Removes_shrinks, removeDependency_Removes; eauto.
  - intros. now apply addDependency_graph_ok.
Qed.

Lemma beginTraverse_graph_ok paths h g :
  graph_ok (mkStore h g Delta.empty) ->
  graph_ok (store (beginTraverse paths h g)).
Proof.
  intros W k r G. destruct (beginTraverse_store paths h g) as (Hh & Hg & _).
  rewrite Hg in G. rewrite Hh. exact (W k r G).
Qed.

(** X3.  A pass keeps the graph keyed by the paths of its modules: when
    every key of the graph names a module with that path before the pass,
    the same holds after it. *)
Theorem traverse_graph_ok options depth schedule paths h g res p :
  traverseDependencies options depth schedule paths h g = Some (res, p) ->
  graph_ok (mkStore h g Delta.empty) ->
  forall k r,
    JSMap.get (Graph.dependencies (graph (store p))) k = Some r ->
    exists m, heap (store p) !! r = Some m /\ Mod.path m = k.
Proof.
  intros (R & _ & _)%traverseDependencies_Some W.
  change (graph_ok (store p)).
  refine (run_invariant (fun p => graph_ok (store p)) options depth _ _ _ _ _ R).
  - intros self p0 p1. apply advance_graph_ok.
  - now apply beginTraverse_graph_ok.
Qed.

Lemma traverse_graph_ok_witness :
  exists res p,
    traverseDependencies Scenario.options' 5 [0; 0] [Scenario.A]
      [Mod.mk [(Scenario.B, Scenario.B); (Scenario.C, Scenario.C)] []
         Scenario.A (Scenario.out Scenario.A);
       Edited.moduleB; Edited.moduleC; Edited.moduleD]
      (graph Edited.store0) = Some (res, p) /\
    exists m, heap (store p) !! 2 = Some m /\ Mod.path m = Scenario.C.
Proof.
  eexists _, _. split; [vm_compute; reflexivity|].
  eapply (traverse_graph_ok Scenario.options' 5 [0; 0] [Scenario.A]
            [Mod.mk [(Scenario.B, Scenario.B); (Scenario.C, Scenario.C)] []
               Scenario.A (Scenario.out Scenario.A);
             Edited.moduleB; Edited.moduleC; Edited.moduleD]
            (graph Edited.store0)).
  - vm_compute. reflexivity.
  - apply graph_okb_sound. reflexivity.
  - reflexivity.
Defined.

(** ** The result and the graph *)

(** What the delta of a pass says of the graph: a path recorded as added
    or modified names the recorded module unless it has been deleted, and a
    deleted path is out of the graph unless it has been added again. *)
Record consistent (s : Store) : Prop := mkConsistent {
  con_graph : graph_ok s;
  con_added :
    forall k r, (k, r) ∈ Delta.added (delta s) ->
      k ∈ Delta.deleted (delta s) \/
      JSMap.get (Graph.dependencies (graph s)) k = Some r;
  con_modified :
    forall k r, (k, r) ∈ Delta.modified (delta s) ->
      k ∈ Delta.deleted (delta s) \/
      JSMap.get (Graph.dependencies (graph s)) k = Some r;
  con_deleted :
    forall k, k ∈ Delta.deleted (delta s) ->
      JSMap.has (Delta.added (delta s)) k = true \/
      JSMap.has (Graph.dependencies (graph s)) k = false;
}.

Lemma removeDependency_gone depth parentModule absolutePath s s' k r :
  graph_ok s ->
  removeDependency depth parentModule absolutePath s = Some s' ->
  JSMap.get (Graph.dependencies (graph s)) k = Some r ->
  k ∈ Delta.deleted (delta s') \/
  JSMap.get (Graph.dependencies (graph s')) k = Some r.
Proof.
  intros W R%removeDependency_Removes G.
  pose proof (Removes_shrinks _ _ _ _ R) as Sh.
  pose proof (Removes_cascade_facts _ _ _ _ R W) as Ca.
  destruct (JSMap.get (Graph.dependencies (graph s')) k) as [r'|] eqn:G'.
  - right. apply (shr_graph _ _ Sh) in G'. congruence.
  - left. destruct (W _ _ G) as (m & H & _).
    apply (cas_removed _ _ _ _ Ca k r m).
    + now apply getModule_Some.
    + unfold JSMap.has. now rewrite G'.
Qed.

Lemma removeDependency_consistent depth parentModule absolutePath s s' :
  consistent s ->
  removeDependency depth parentModule absolutePath s = Some s' ->
  consistent s'.
Proof.
  intros [W A M D] R.
  pose proof (Removes_shrinks _ _ _ _ (removeDependency_Removes _ _ _ _ _ R))
    as Sh.
  pose proof (Removes_cascade_facts _ _ _ _
                (removeDependency_Removes _ _ _ _ _ R) W) as Ca.
  constructor.
  - eapply shrinks_graph_ok; eauto.
  - intros k r H. rewrite (shr_added _ _ Sh) in H.
    destruct (A _ _ H) as [H'|H'].
    + left. now apply (shr_deleted _ _ Sh).
    + eapply removeDependency_gone; eauto.
  - intros k r H. rewrite (shr_modified _ _ Sh) in H.
    destruct (M _ _ H) as [H'|H'].
    + left. now apply (shr_deleted _ _ Sh).
    + eapply removeDependency_gone; eauto.
  - intros k H. rewrite (shr_added _ _ Sh).
    destruct (cas_deleted _ _ _ _ Ca k H) as [H'|[_ H']]; [|auto].
    destruct (D _ H') as [H''|H'']; [auto|right].
    eapply shrinks_has_false; eauto.
Qed.

Lemma addDependency_consistent parentModule path root self p :
  consistent (store p) ->
  consistent (store (addDependency parentModule path root self p)).
Proof.
  intros C.
  pose proof (addDependency_graph_ok parentModule path root self p
                (con_graph _ C)) as W'.
  destruct C as [W A M D]. unfold addDependency in *.
  destruct (getModule (store p) path) as [[r m]|] eqn:G.
  - constructor; auto.
  - pose proof (getModule_None_has _ _ W G) as Hp.
    constructor; simpl in *; [assumption|..].
    + intros k r [[= -> ->]|H]%elem_of_set.
      * right. apply JSMapFacts.get_set_eq.
      * destruct (A _ _ H) as [H'|H']; [auto|right].
        rewrite JSMapFacts.get_set_ne; [assumption|].
        intros <-. unfold JSMap.has in Hp. now rewrite H' in Hp.
    + intros k r H. destruct (M _ _ H) as [H'|H']; [auto|right].
      rewrite JSMapFacts.get_set_ne; [assumption|].
      intros <-. unfold JSMap.has in Hp. now rewrite H' in Hp.
    + intros k H. rewrite !JSMapFacts.has_set.
      destruct (String.eqb path k); [auto|]. simpl. auto.
Qed.

Lemma advance_consistent options depth self p p' :
  consistent (store p) -> advance options depth self p = Some p' ->
  consistent (store p').
Proof.
  apply (advance_invariant consistent).
  - intros s r m m0 [W A M D] H P _. constructor; auto.
    now apply (graph_ok_insert r m m0).
  - intros parentModule k s s'. apply removeDependency_consistent.
  - intros. now apply addDependency_consistent.
Qed.

Lemma traversePath_consistent path p :
  consistent (store p) -> consistent (store (traversePath path p)).
Proof.
  intros [W A M D]. unfold traversePath.
  destruct (getModule (store p) path) as [[r m]|] eqn:G;
    [|constructor; auto].
  pose proof (getModule_path _ _ _ _ W G) as P.
  apply getModule_Some in G as [G _].
  constructor; simpl; auto.
  intros k r0 [[= -> ->]|H]%elem_of_set; [|auto].
  right. congruence.
Qed.

Lemma beginTraverse_consistent paths h g :
  graph_ok (mkStore h g Delta.empty) ->
  consistent (store (beginTraverse paths h g)).
Proof.
  intros W. unfold beginTraverse.
  enough (forall p, consistent (store p) ->
            consistent
              (store (fold_left (fun p path => traversePath path p) paths p)))
    as K.
  { apply K. constructor; simpl; auto.
    - intros k r H. now apply elem_of_nil in H.
    - intros k r H. now apply elem_of_nil in H.
    - intros k H. now apply elem_of_nil in H. }
  induction paths as [|path paths IH]; intros p C; simpl; [assumption|].
  apply IH. now apply traversePath_consistent.
Qed.

Lemma reconcileDeleted_get modified deleted :
  forall acc k r,
    JSMap.get (fst (fold_left (reconcileDeleted modified) deleted acc)) k =
      Some r ->
    JSMap.get (fst acc) k = Some r.
Proof.
  induction deleted as [|x deleted IH]; intros acc k r H; simpl in H;
    [assumption|].
  apply IH in H. rewrite reconcileDeleted_fst in H.
  now apply JSMapFacts.get_delete_Some in H as [_ H].
Qed.

(** X4.  The result of a pass agrees with the graph the pass leaves: every
    module of [added] is the module that the graph holds under that path,
    and its [path] is that path; a path of [deleted] that the pass has not
    added again has no module in the graph. *)
Theorem result_agrees_with_graph options depth schedule paths h g res p :
  traverseDependencies options depth schedule paths h g = Some (res, p) ->
  graph_ok (mkStore h g Delta.empty) ->
  (forall k r,
     JSMap.get (Result.added res) k = Some r ->
     JSMap.get (Graph.dependencies (graph (store p))) k = Some r /\
     exists m, heap (store p) !! r = Some m /\ Mod.path m = k) /\
  (forall k,
     k ∈ Result.deleted res ->
     JSMap.has (Delta.added (delta (store p))) k = false ->
     JSMap.has (Graph.dependencies (graph (store p))) k = false).
Proof.
  intros (R & _ & ->)%traverseDependencies_Some W.
  assert (C : consistent (store p)).
  { refine (run_invariant (fun p => consistent (store p)) options depth
              _ _ _ _ _ R).
    - intros self p0 p1. apply advance_consistent.
    - now apply beginTraverse_consistent. }
  destruct C as [W' A M D]. split.
  - intros k r H.
    assert (Hk : JSMap.has (Result.added (reconcile (delta (store p)))) k
                 = true) by (apply JSMapFacts.has_get; eauto).
    rewrite reconcile_added in Hk. apply andb_true_iff in Hk as [_ Hk].
    apply negb_true_iff, JSSetFacts.has_false_elem_of in Hk.
    unfold reconcile in H. simpl in H. apply reconcileDeleted_get in H.
    simpl in H.
    assert (G : JSMap.get (Graph.dependencies (graph (store p))) k = Some r).
    { apply get_setAll_Some in H as [H|H].
      - destruct (M _ _ H); [contradiction|assumption].
      - apply get_setAll_Some in H as [H|H]; [|discriminate].
        destruct (A _ _ H); [contradiction|assumption]. }
    split; [assumption|]. exact (W' _ _ G).
  - intros k H Ha. unfold reconcile in H. simpl in H.
    apply reconcileDeleted_sub in H as [H|H]; [|now apply elem_of_nil in H].
    destruct (D _ H) as [H'|H']; [congruence|assumption].
Qed.

Lemma result_agrees_with_graph_witness :
  exists res p,
    traverseDependencies Scenario.options' 5 [0; 0] [Scenario.A]
      [Mod.mk [(Scenario.B, Scenario.B); (Scenario.C, Scenario.C)] []
         Scenario.A (Scenario.out Scenario.A);
       Edited.moduleB; Edited.moduleC; Edited.moduleD]
      (graph Edited.store0) = Some (res, p) /\
    JSMap.get (Graph.dependencies (graph (store p))) Scenario.A = Some 0 /\
    JSMap.has (Graph.dependencies (graph (store p))) Scenario.B = false.
Proof.
  eexists _, _. split; [vm_compute; reflexivity|].
  edestruct (result_agrees_with_graph Scenario.options' 5 [0; 0] [Scenario.A]
               [Mod.mk [(Scenario.B, Scenario.B); (Scenario.C, Scenario.C)] []
                  Scenario.A (Scenario.out Scenario.A);
                Edited.moduleB; Edited.moduleC; Edited.moduleD]
               (graph Edited.store0)) as [Ha Hd].
  - vm_compute. reflexivity.
  - apply graph_okb_sound. reflexivity.
  - split.
    + apply (Ha Scenario.A 0). reflexivity.
    + apply Hd; [|reflexivity].
      apply JSSetFacts.has_elem_of. reflexivity.
Defined.

(** ** Passes that change little *)

Lemma beginTraverse_absent paths h g :
  (forall path, path ∈ paths ->
     JSMap.get (Graph.dependencies g) path = None) ->
  beginTraverse paths h g = mkPass (mkStore h g Delta.empty) [] [] [].
Proof.
  unfold beginTraverse.
  induction paths as [|path paths IH]; intros H; simpl; [reflexivity|].
  rewrite traversePath_absent by (apply H, list_elem_of_here).
  apply IH. intros path' Hp. apply H. now apply list_elem_of_further.
Qed.

(** X5.  A pass over changed paths none of which has a module in the graph
    (none at all, for one) returns the empty result and changes nothing: no
    transform is started, no progress is reported, and the graph and its
    modules are what they were. *)
Theorem traverse_nothing options depth paths h g :
  (forall path, path ∈ paths ->
     JSMap.get (Graph.dependencies g) path = None) ->
  traverseDependencies options depth [] paths h g =
    Some (Result.mk [] [], mkPass (mkStore h g Delta.empty) [] [] []) /\
  forall schedule res p,
    traverseDependencies options depth schedule paths h g = Some (res, p) ->
    res = Result.mk [] [] /\ p = mkPass (mkStore h g Delta.empty) [] [] [].
Proof.
  intros H. unfold traverseDependencies.
  rewrite (beginTraverse_absent paths h g H). split; [reflexivity|].
  intros [|self schedule] res p; simpl.
  - now intros [= <- <-].
  - unfold advance. simpl. discriminate.
Qed.

Lemma traverse_nothing_witness :
  traverseDependencies Scenario.options 5 [] ["X"%string; "Y"%string]
    (heap Edited.store0) (graph Edited.store0) =
  Some (Result.mk [] [],
        mkPass (mkStore (heap Edited.store0) (graph Edited.store0) Delta.empty)
          [] [] []).
Proof.
  apply (traverse_nothing Scenario.options 5 ["X"%string; "Y"%string]
           (heap Edited.store0) (graph Edited.store0)).
  intros path Hp. apply list_elem_of_In in Hp. simpl in Hp.
  destruct Hp as [<-|[<-|[]]]; reflexivity.
Defined.

Lemma has_resolveDependencies parentPath dependencies options k :
  JSMap.has (resolveDependencies parentPath dependencies options) k = true <->
  k ∈ dependencies.
Proof.
  unfold resolveDependencies, JSMap.ofEntries.
  rewrite JSMapFacts.has_setAll. simpl.
  induction dependencies as [|x dependencies IH]; simpl.
  - split; [discriminate|]. intros H. now apply elem_of_nil in H.
  - unfold JSMap.has in *. simpl. rewrite elem_of_cons.
    destruct (String.eqb_spec x k) as [->|Hne]; [tauto|].
    rewrite IH. split; [auto|]. intros [H|H]; [congruence|assumption].
Qed.

(** X6.  A pass over one changed file whose transform lists the specifiers
    the module had: the result holds that file alone in [added] and nothing
    in [deleted]; the graph is what it was, and of its modules only the
    changed one differs, by its output and the paths of its dependencies.
    The pass reports the progress (0, 1) and (1, 1), and it runs in one
    order only. *)
Theorem traverse_same_specifiers options depth h g P r m :
  getModule (mkStore h g Delta.empty) P = Some (r, m) ->
  Mod.path m = P ->
  (forall k,
     JSMap.has (Mod.dependencies m) k = true <->
     k ∈ tr_dependencies (transform options P)) ->
  let m' :=
    Mod.mk
      (resolveDependencies P (tr_dependencies (transform options P)) options)
      (Mod.inverseDependencies m) P (tr_output (transform options P)) in
  (exists p,
     traverseDependencies options depth [0; 0] [P] h g =
       Some (Result.mk [(P, r)] [], p) /\
     heap (store p) = <[r := m']> h /\
     graph (store p) = g /\
     progress p = [mkProgress 0 0 1; mkProgress 0 1 1]) /\
  (forall schedule res p,
     traverseDependencies options depth schedule [P] h g = Some (res, p) ->
     schedule = [0; 0]).
Proof.
  intros G Pm Hk m'. pose proof G as [Gg Gh]%getModule_Some. simpl in Gg, Gh.
  set (task st := mkTask r (Mod.dependencies m) 0 None st).
  set (s1 := mkStore (<[r := m']> h) g (Delta.mk [] [(P, r)] [])).
  set (p0 := mkPass (mkStore h g (Delta.mk [] [(P, r)] []))
               [task AwaitTransform] [(0, 1)] [mkProgress 0 0 1]).
  set (p1 := mkPass s1 [task AwaitChildren] [(0, 1)] [mkProgress 0 0 1]).
  set (p2 := mkPass s1 [task Completed] [(1, 1)]
               [mkProgress 0 0 1; mkProgress 0 1 1]).
  assert (B : beginTraverse [P] h g = p0).
  { unfold beginTraverse. simpl. unfold traversePath. simpl store.
    rewrite G, Pm. reflexivity. }
  assert (A1 : advance options depth 0 p0 = Some p1).
  { unfold advance, processModule_resume. simpl. rewrite Gh, Pm. cbv zeta.
    rewrite copy_resolveDependencies.
    rewrite removeDropped_all_kept
      by (intros k Hk'; apply has_resolveDependencies; now apply Hk).
    rewrite addNew_all_known
      by (intros k Hk'; apply Hk; now apply has_resolveDependencies in Hk').
    reflexivity. }
  assert (A2 : advance options depth 0 p1 = Some p2) by reflexivity.
  assert (N1 : forall self, advance options depth (S self) p0 = None)
    by reflexivity.
  assert (N2 : forall self, advance options depth (S self) p1 = None)
    by reflexivity.
  assert (N3 : forall self, advance options depth self p2 = None)
    by (now intros [|self]).
  assert (F0 : allCompleted (tasks p0) = false) by reflexivity.
  assert (F1 : allCompleted (tasks p1) = false) by reflexivity.
  assert (F2 : allCompleted (tasks p2) = true) by reflexivity.
  assert (R2 : reconcile (delta (store p2)) = Result.mk [(P, r)] []).
  { unfold reconcile, reconcileDeleted. simpl. reflexivity. }
  assert (S2 : heap (store p2) = <[r := m']> h /\ graph (store p2) = g /\
               progress p2 = [mkProgress 0 0 1; mkProgress 0 1 1])
    by (split_and!; reflexivity).
  clearbody p0 p1 p2.
  unfold traverseDependencies. rewrite B. split.
  - exists p2. cbn [run]. rewrite A1, A2, F2, R2. auto.
  - intros [|[|self] schedule] res p; cbn [run]; rewrite ?N1, ?F0;
      [discriminate| |discriminate].
    rewrite A1. destruct schedule as [|[|self] schedule]; cbn [run];
      rewrite ?N2, ?F1; [discriminate| |discriminate].
    rewrite A2. destruct schedule as [|self schedule]; [reflexivity|].
    cbn [run]. rewrite N3. discriminate.
Qed.

Lemma traverse_same_specifiers_witness :
  exists p,
    traverseDependencies Scenario.options 5 [0; 0] [Scenario.B]
      (heap Edited.store0) (graph Edited.store0) =
      Some (Result.mk [(Scenario.B, 1)] [], p) /\
    graph (store p) = graph Edited.store0.
Proof.
  destruct (traverse_same_specifiers Scenario.options 5 (heap Edited.store0)
              (graph Edited.store0) Scenario.B 1 Edited.moduleB)
    as [(p & T & _ & Hg & _) _].
  - reflexivity.
  - reflexivity.
  - intros k. change (tr_dependencies (transform Scenario.options Scenario.B))
      with [Scenario.D].
    change (Mod.dependencies Edited.moduleB)
      with [(Scenario.D, Scenario.D)].
    rewrite list_elem_of_singleton. unfold JSMap.has, JSMap.get.
    destruct (String.eqb_spec Scenario.D k) as [E|Hne].
    + split; [now intros _|reflexivity].
    + split; [discriminate|congruence].
  - exists p. split; [exact T|exact Hg].
Defined.

(** ** What a removal leaves alone *)

(** X7.  A removal that returns changes the inverse dependencies of
    modules, the set of deleted paths and the keys of the graph, and
    nothing else: the entry points and the added and modified paths are
    what they were, no path leaves the deleted set, the graph gains no key
    and no key changes its module, no module is created, and every module
    keeps its dependencies, its path and its output, and gains no
    referrer. *)
Theorem removeDependency_frame depth parentModule absolutePath s s' :
  removeDependency depth parentModule absolutePath s = Some s' ->
  Graph.entryPoints (graph s') = Graph.entryPoints (graph s) /\
  Delta.added (delta s') = Delta.added (delta s) /\
  Delta.modified (delta s') = Delta.modified (delta s) /\
  (forall x, x ∈ Delta.deleted (delta s) -> x ∈ Delta.deleted (delta s')) /\
  (forall k r,
     JSMap.get (Graph.dependencies (graph s')) k = Some r ->
     JSMap.get (Graph.dependencies (graph s)) k = Some r) /\
  length (heap s') = length (heap s) /\
  (forall r m,
     heap s !! r = Some m ->
     exists m',
       heap s' !! r = Some m' /\
       Mod.dependencies m' = Mod.dependencies m /\
       Mod.path m' = Mod.path m /\
       Mod.output m' = Mod.output m /\
       forall q, q ∈ Mod.inverseDependencies m' ->
                 q ∈ Mod.inverseDependencies m).
Proof.
  intros R%removeDependency_Removes%Removes_shrinks.
  destruct R as [L E A M D _ G H _]. split_and!; assumption.
Qed.

Lemma removeDependency_frame_witness :
  exists s',
    removeDependency 5 Edited.moduleA Scenario.B Edited.store0 = Some s' /\
    Graph.entryPoints (graph s') = [Scenario.A] /\
    length (heap s') = 4.
Proof.
  eexists. split; [vm_compute; reflexivity|].
  edestruct (removeDependency_frame 5 Edited.moduleA Scenario.B Edited.store0)
    as (E & _ & _ & _ & _ & L & _); [vm_compute; reflexivity|].
  split; [exact E|exact L].
Defined.

(** ** The linearization of any graph *)

(** X8.  On a graph keyed by the non-empty paths of its modules,
    [reorderGraph] keeps the entry points, and the graph it makes holds
    exactly the modules that the entry points reach through the
    dependencies of the modules, each as the object the graph held. *)
Theorem reorderGraph_keeps_reachable depth h g g' :
  graph_ok (mkStore h g Delta.empty) ->
  JSMap.has (Graph.dependencies g) EmptyString = false ->
  reorderGraph depth h g = Some g' ->
  Graph.entryPoints g' = Graph.entryPoints g /\
  forall k r,
    JSMap.get (Graph.dependencies g') k = Some r <->
    JSMap.get (Graph.dependencies g) k = Some r /\
    reachable h (Graph.dependencies g) (Graph.entryPoints g) k.
Proof.
  intros W N. destruct g as [deps entry]. simpl in *.
  now apply reorderGraph_reachable.
Qed.

Lemma reorderGraph_keeps_reachable_witness :
  exists g',
    reorderGraph 6 (heap Edited.store0)
      (Graph.mk (Graph.dependencies (graph Edited.store0)) [Scenario.C])
      = Some g' /\
    JSMap.keys (Graph.dependencies g') = [Scenario.C; Scenario.D] /\
    ~ reachable (heap Edited.store0)
        (Graph.dependencies (graph Edited.store0)) [Scenario.C] Scenario.A.
Proof.
  eexists. split; [vm_compute; reflexivity|]. split; [reflexivity|].
  edestruct (reorderGraph_keeps_reachable 6 (heap Edited.store0)
               (Graph.mk (Graph.dependencies (graph Edited.store0))
                  [Scenario.C])) as [_ K].
  - apply graph_okb_sound. reflexivity.
  - reflexivity.
  - vm_compute. reflexivity.
  - intros R. assert (G : JSMap.get
                            (Graph.dependencies (graph Edited.store0))
                            Scenario.A = Some 0) by reflexivity.
    destruct (K Scenario.A 0) as [_ K']. specialize (K' (conj G R)).
    vm_compute in K'. discriminate.
Defined.

(** X9.  On a graph keyed by the non-empty paths of its modules,
    [reorderGraph] returns, import cycles or not: its calls nest no deeper
    than the number of modules of the graph, plus two. *)
Theorem reorderGraph_terminates depth h g :
  graph_ok (mkStore h g Delta.empty) ->
  JSMap.has (Graph.dependencies g) EmptyString = false ->
  length (Graph.dependencies g) + 2 <= depth ->
  exists g', reorderGraph depth h g = Some g'.
Proof.
  intros W N Hd. destruct g as [deps entry]. simpl in *.
  now apply reorderGraph_returns.
Qed.

Lemma reorderGraph_terminates_witness :
  exists g', reorderGraph 4 Cycle.heap0 Cycle.graph0 = Some g'.
Proof.
  apply reorderGraph_terminates.
  - apply graph_okb_sound. reflexivity.
  - reflexivity.
  - vm_compute. lia.
Defined.

(** The ordered map names modules of the heap by their non-empty paths. *)
Definition keyedByPath (h : list Mod.t) (o : JSMap.t nat) : Prop :=
  forall k r, JSMap.get o k = Some r ->
    k <> EmptyString /\ exists m, h !! r = Some m /\ Mod.path m = k.

Lemma keyedByPath_set h o r m :
  keyedByPath h o -> h !! r = Some m -> Mod.path m <> EmptyString ->
  keyedByPath h (JSMap.set o (Mod.path m) r).
Proof.
  intros K H P k r0 G. destruct (decide (Mod.path m = k)) as [<-|Hne].
  - rewrite JSMapFacts.get_set_eq in G. injection G as <-. eauto.
  - rewrite JSMapFacts.get_set_ne in G by assumption. auto.
Qed.

Lemma getNode_heap h dependencies path n :
  getNode h dependencies path = Some n ->
  exists r m, n = ModuleNode r m /\ h !! r = Some m.
Proof.
  unfold getNode. destruct (JSMap.get dependencies path) as [r|];
    [|discriminate].
  destruct (h !! r) as [m|] eqn:H; [|discriminate].
  intros [= <-]. eauto.
Qed.

Lemma visitEach_keyedByPath depth h dependencies :
  (forall r m o o',
     h !! r = Some m -> keyedByPath h o ->
     reorderDependencies depth h (ModuleNode r m) dependencies o = Some o' ->
     keyedByPath h o') ->
  forall ds o o',
    keyedByPath h o ->
    visitEach depth h dependencies ds (Some o) = Some o' ->
    keyedByPath h o'.
Proof.
  intros Hm. unfold visitEach.
  induction ds as [|e ds IH]; intros o o' K E; simpl in E.
  - now injection E as <-.
  - destruct (getNode h dependencies (snd e)) as [dep|] eqn:N; [|eauto].
    apply getNode_heap in N as (r & m & -> & H).
    destruct (reorderDependencies depth h (ModuleNode r m) dependencies o)
      as [o1|] eqn:E1; [eauto|].
    fold (visitEach depth h dependencies ds None) in E.
    rewrite visitEach_None in E. discriminate.
Qed.

Lemma reorderDependencies_keyedByPath depth h dependencies :
  forall r m o o',
    h !! r = Some m -> keyedByPath h o ->
    reorderDependencies depth h (ModuleNode r m) dependencies o = Some o' ->
    keyedByPath h o'.
Proof.
  induction depth as [|depth IH]; intros r m o o' H K E; [discriminate|].
  rewrite reorderDependencies_unfold in E. unfold nodePath in E.
  destruct (String.eqb_spec (Mod.path m) EmptyString) as [P|P].
  - eapply visitEach_keyedByPath; eauto.
  - destruct (JSMap.has o (Mod.path m)); [now injection E as <-|].
    eapply visitEach_keyedByPath; [exact IH| |exact E].
    now apply keyedByPath_set.
Qed.

(** X10.  Whatever the graph, the graph that [reorderGraph] makes is keyed
    by the paths of its modules, and it has no module under the empty
    path: a module is stored under its own [path], and the test on
    [module.path] passes over a module whose path is empty. *)
Theorem reorderGraph_keyedByPath depth h g g' :
  reorderGraph depth h g = Some g' ->
  JSMap.has (Graph.dependencies g') EmptyString = false /\
  forall k r,
    JSMap.get (Graph.dependencies g') k = Some r ->
    exists m, h !! r = Some m /\ Mod.path m = k.
Proof.
  unfold reorderGraph.
  destruct (reorderDependencies _ _ _ _ _) as [o|] eqn:E; [|discriminate].
  intros [= <-]. simpl.
  assert (K : keyedByPath h o).
  { destruct depth as [|depth]; [discriminate|].
    rewrite reorderDependencies_unfold in E. simpl in E.
    refine (visitEach_keyedByPath depth h _
              (reorderDependencies_keyedByPath depth h _) _ [] o _ E).
    intros k r G. discriminate. }
  split.
  - destruct (JSMap.has o EmptyString) eqn:Has; [|reflexivity].
    apply JSMapFacts.has_get in Has as [r G].
    now destruct (K _ _ G) as [Hne _].
  - intros k r G. now destruct (K _ _ G) as [_ Hm].
Qed.

(** A graph that is not keyed by the paths of its modules, and that has a
    module without a path. *)
Module Miskeyed.
Definition heap0 : list Mod.t :=
  [Mod.mk [("x"%string, "k"%string); ("y"%string, "e"%string)] []
     "real"%string emptyOutput;
   Mod.mk [] [] "other"%string emptyOutput;
   Mod.mk [] [] EmptyString emptyOutput].
Definition graph0 : Graph.t :=
  Graph.mk [("main"%string, 0); ("k"%string, 1); ("e"%string, 2)]
    ["main"%string].
End Miskeyed.

Lemma reorderGraph_keyedByPath_witness :
  exists g',
    reorderGraph 5 Miskeyed.heap0 Miskeyed.graph0 = Some g' /\
    Graph.dependencies g' = [("real"%string, 0); ("other"%string, 1)] /\
    JSMap.has (Graph.dependencies g') EmptyString = false.
Proof.
  eexists. split; [vm_compute; reflexivity|]. split; [reflexivity|].
  edestruct (reorderGraph_keyedByPath 5 Miskeyed.heap0 Miskeyed.graph0)
    as [N _]; [vm_compute; reflexivity|].
  exact N.
Defined.

(** Two graphs that give the same module for every path that the visit of
    [ds] asks for. *)
Lemma visitEach_agree depth h d1 d2 (asked : string -> Prop) :
  (forall k, asked k -> JSMap.get d1 k = JSMap.get d2 k) ->
  (forall r m o,
     asked (Mod.path m) -> JSMap.get d1 (Mod.path m) = Some r ->
     h !! r = Some m ->
     reorderDependencies depth h (ModuleNode r m) d1 o =
     reorderDependencies depth h (ModuleNode r m) d2 o) ->
  (forall k r, JSMap.get d1 k = Some r ->
     exists m, h !! r = Some m /\ Mod.path m = k) ->
  forall ds o,
    (forall y, y ∈ JSMap.values ds -> asked y) ->
    visitEach depth h d1 ds o = visitEach depth h d2 ds o.
Proof.
  intros Ag Hm named. unfold visitEach.
  induction ds as [|e ds IH]; intros o Hy; simpl; [reflexivity|].
  assert (Ha : asked (snd e)).
  { apply Hy. unfold JSMap.values. simpl. apply list_elem_of_here. }
  assert (Hy' : forall y, y ∈ JSMap.values ds -> asked y).
  { intros y H. apply Hy. unfold JSMap.values. simpl.
    now apply list_elem_of_further. }
  destruct o as [o|]; [|now apply IH].
  unfold getNode. rewrite <- (Ag _ Ha).
  destruct (JSMap.get d1 (snd e)) as [r|] eqn:G; [|now apply IH].
  destruct (named _ _ G) as (m & H & P). rewrite H.
  rewrite Hm; [now apply IH| | |assumption]; now rewrite P.
Qed.

Lemma reorderDependencies_ext depth h d1 d2 :
  (forall k, JSMap.get d1 k = JSMap.get d2 k) ->
  forall node o,
    reorderDependencies depth h node d1 o =
    reorderDependencies depth h node d2 o.
Proof.
  intros Ag. induction depth as [|depth IH]; intros node o; [reflexivity|].
  rewrite !reorderDependencies_unfold.
  assert (V : forall ds o',
            visitEach depth h d1 ds o' = visitEach depth h d2 ds o').
  { unfold visitEach. induction ds as [|e ds IHds]; intros o'; simpl;
      [reflexivity|].
    destruct o' as [o'|]; [|apply IHds].
    unfold getNode. rewrite <- Ag.
    destruct (JSMap.get d1 (snd e)) as [r|]; [|apply IHds].
    destruct (h !! r) as [m|]; [|apply IHds].
    rewrite IH. apply IHds. }
  destruct (nodePath node) as [[path r]|]; [|apply V].
  destruct (JSMap.has o path); [reflexivity|apply V].
Qed.

(** X11.  The graph that [reorderGraph] makes depends on the dependencies
    of the graph as a mapping only: two graphs that give the same module
    for every path are linearized alike, in whatever order their modules
    were inserted. *)
Theorem reorderGraph_insertion_order depth h d1 d2 entryPoints :
  (forall k, JSMap.get d1 k = JSMap.get d2 k) ->
  reorderGraph depth h (Graph.mk d1 entryPoints) =
  reorderGraph depth h (Graph.mk d2 entryPoints).
Proof.
  intros Ag. unfold reorderGraph. simpl.
  now rewrite (reorderDependencies_ext depth h d1 d2 Ag).
Qed.

Lemma reorderGraph_insertion_order_witness :
  reorderGraph 6 (heap Edited.store0)
    (Graph.mk [(Scenario.A, 0); (Scenario.B, 1); (Scenario.D, 3);
               (Scenario.C, 2)] [Scenario.A]) =
  reorderGraph 6 (heap Edited.store0)
    (Graph.mk [(Scenario.D, 3); (Scenario.C, 2); (Scenario.B, 1);
               (Scenario.A, 0)] [Scenario.A]).
Proof.
  apply reorderGraph_insertion_order. intros k. unfold JSMap.get.
  destruct (String.eqb_spec Scenario.A k) as [<-|HA]; [reflexivity|].
  destruct (String.eqb_spec Scenario.B k) as [<-|HB]; [reflexivity|].
  destruct (String.eqb_spec Scenario.D k) as [<-|HD]; [reflexivity|].
  destruct (String.eqb_spec Scenario.C k) as [<-|HC]; reflexivity.
Defined.

Section Relinearize.
Variable h : list Mod.t.
Variables d1 d2 : JSMap.t nat.
Variable entryPoints : list string.

Hypothesis named :
  forall k r, JSMap.get d1 k = Some r ->
    exists m, h !! r = Some m /\ Mod.path m = k.

(** The paths that the visit from the entry points looks up. *)
Definition asked (k : string) : Prop :=
  k ∈ entryPoints \/
  exists x r m,
    reachable h d1 entryPoints x /\ JSMap.get d1 x = Some r /\
    h !! r = Some m /\ k ∈ JSMap.values (Mod.dependencies m).

Hypothesis agree : forall k, asked k -> JSMap.get d1 k = JSMap.get d2 k.

Lemma asked_reachable k r :
  asked k -> JSMap.get d1 k = Some r -> reachable h d1 entryPoints k.
Proof.
  intros [He|(x & rx & mx & Rx & Gx & Hx & Hk)] G.
  - apply reachable_start; [assumption|]. apply JSMapFacts.has_get. eauto.
  - apply reachable_step with (x := x); [assumption|].
    exists rx, mx. split_and!; try assumption.
    apply JSMapFacts.has_get. eauto.
Qed.

Lemma reorderDependencies_agree depth :
  forall r m o,
    asked (Mod.path m) -> JSMap.get d1 (Mod.path m) = Some r ->
    h !! r = Some m ->
    reorderDependencies depth h (ModuleNode r m) d1 o =
    reorderDependencies depth h (ModuleNode r m) d2 o.
Proof.
  induction depth as [|depth IH]; intros r m o A G H; [reflexivity|].
  rewrite !reorderDependencies_unfold.
  assert (V : forall o',
            visitEach depth h d1 (Mod.dependencies m) o' =
            visitEach depth h d2 (Mod.dependencies m) o').
  { intros o'. apply (visitEach_agree depth h d1 d2 asked); auto.
    intros y Hy. right. exists (Mod.path m), r, m.
    split_and!; try assumption. eapply asked_reachable; eauto. }
  destruct (nodePath (ModuleNode r m)) as [[path r']|]; [|apply V].
  destruct (JSMap.has o path); [reflexivity|apply V].
Qed.

Lemma reorderGraph_agree depth :
  let parent :=
    SyntheticParent (JSMap.ofEntries (List.map (fun e => (e, e)) entryPoints))
  in
  reorderDependencies depth h parent d1 [] =
  reorderDependencies depth h parent d2 [].
Proof.
  intros parent. destruct depth as [|depth]; [reflexivity|].
  rewrite !reorderDependencies_unfold. simpl.
  apply (visitEach_agree depth h d1 d2 asked); auto.
  - intros r m o. apply reorderDependencies_agree.
  - intros y Hy. left. now apply values_entryPoints.
Qed.

End Relinearize.

(** X12.  On a graph keyed by the non-empty paths of its modules,
    [reorderGraph] is idempotent: the graph it makes is linearized to
    itself. *)
Theorem reorderGraph_idempotent depth h g g' :
  graph_ok (mkStore h g Delta.empty) ->
  JSMap.has (Graph.dependencies g) EmptyString = false ->
  reorderGraph depth h g = Some g' ->
  reorderGraph depth h g' = Some g'.
Proof.
  intros W N E. destruct g as [deps entry]. simpl in *.
  destruct (reorderGraph_reachable h deps W N depth entry g' E) as [_ K].
  unfold reorderGraph in *. simpl in *.
  destruct (reorderDependencies depth h _ deps []) as [o|] eqn:E1;
    [|discriminate].
  injection E as <-. simpl in *.
  rewrite <- (reorderGraph_agree h deps o entry W), E1; [reflexivity|].
  intros k A. destruct (JSMap.get deps k) as [r|] eqn:G.
  - symmetry. apply K. split; [assumption|].
    eapply asked_reachable; eauto.
  - destruct (JSMap.get o k) as [r|] eqn:G'; [|reflexivity].
    apply K in G' as [G' _]. congruence.
Qed.

Lemma reorderGraph_idempotent_witness :
  exists g',
    reorderGraph 4 Cycle.heap0 Cycle.graph0 = Some g' /\
    reorderGraph 4 Cycle.heap0 g' = Some g'.
Proof.
  eexists. split; [vm_compute; reflexivity|].
  apply (reorderGraph_idempotent 4 Cycle.heap0 Cycle.graph0).
  - apply graph_okb_sound. reflexivity.
  - reflexivity.
  - vm_compute. reflexivity.
Defined.

(** ** A cold start under any schedule *)

(** The paths that the module of path [x] imports, as [options] has it. *)
Definition importsOf (options : Options) (x : string) : list string :=
  JSMap.values
    (resolveDependencies x (tr_dependencies (transform options x)) options).

(** The paths that the entry points reach through the imports. *)
Inductive importReach (options : Options) (entryPoints : list string)
  : string -> Prop :=
| importReach_entry e :
    e ∈ entryPoints -> importReach options entryPoints e
| importReach_step x y :
    importReach options entryPoints x -> y ∈ importsOf options x ->
    importReach options entryPoints y.

Definition inGraph (s : Store) (k : string) : Prop :=
  exists r m, getModule s k = Some (r, m).

(** The module has the dependencies and the output of its transform; each
    import is in the graph, or is still to be added ([todo]). *)
Definition transformed (options : Options) (todo : string -> string -> Prop)
    (s : Store) (m : Mod.t) : Prop :=
  Mod.dependencies m =
    resolveDependencies (Mod.path m)
      (tr_dependencies (transform options (Mod.path m))) options /\
  Mod.output m = tr_output (transform options (Mod.path m)) /\
  forall y, y ∈ JSMap.values (Mod.dependencies m) ->
    todo (Mod.path m) y \/ inGraph s y.

(** A [processModule] call on the object [r] waits for its transform. *)
Definition awaited (p : Pass) (r : nat) : Prop :=
  exists i t,
    tasks p !! i = Some t /\ t_module t = r /\ t_status t = AwaitTransform.

(** What holds while a cold start builds the graph. *)
Record building (options : Options) (entryPoints : list string)
    (todo : string -> string -> Prop) (p : Pass) : Prop := mkBuilding {
  bld_graph : graph_ok (store p);
  bld_reach : forall k, inGraph (store p) k -> importReach options entryPoints k;
  bld_entries : forall e, e ∈ entryPoints -> inGraph (store p) e;
  bld_previous : forall t, t ∈ tasks p -> t_previousDependencies t = [];
  bld_task :
    forall t, t ∈ tasks p ->
      exists m, getModule (store p) (Mod.path m) = Some (t_module t, m);
  bld_module :
    forall k r m, getModule (store p) k = Some (r, m) ->
      (Mod.dependencies m = [] /\ awaited p r) \/
      transformed options todo (store p) m;
  bld_inverse :
    forall k r m q,
      getModule (store p) k = Some (r, m) ->
      q ∈ Mod.inverseDependencies m ->
      exists rq mq,
        getModule (store p) q = Some (rq, mq) /\
        k ∈ JSMap.values (Mod.dependencies mq);
  bld_recorded :
    forall k1 r1 m1 k2 r2 m2,
      getModule (store p) k1 = Some (r1, m1) ->
      getModule (store p) k2 = Some (r2, m2) ->
      k2 ∈ JSMap.values (Mod.dependencies m1) ->
      todo k1 k2 \/ k1 ∈ Mod.inverseDependencies m2;
}.

(** What an addition does to the modules of the graph. *)
Lemma addDependency_effect parentModule y root self p :
  graph_ok (store p) ->
  let p' := addDependency parentModule y root self p in
  (forall k, k <> y -> getModule (store p') k = getModule (store p) k) /\
  match getModule (store p) y with
  | Some (r, m) =>
      getModule (store p') y =
        Some (r, Mod.withInverse
                   (fun i => JSSet.add i (Mod.path parentModule)) m) /\
      tasks p' = tasks p
  | None =>
      getModule (store p') y =
        Some (length (heap (store p)),
              Mod.mk [] [Mod.path parentModule] y emptyOutput) /\
      tasks p' =
        tasks p ++
        [mkTask (length (heap (store p))) [] root (Some self) AwaitTransform]
  end.
Proof.
  intros W p'. unfold p', addDependency.
  destruct (getModule (store p) y) as [[r m]|] eqn:G.
  - pose proof (getModule_path _ _ _ _ W G) as P.
    pose proof G as [Gg Gh]%getModule_Some. split.
    + intros k Hk. unfold getModule. simpl.
      destruct (JSMap.get (Graph.dependencies (graph (store p))) k)
        as [rk|] eqn:Gk; [|reflexivity].
      destruct (W _ _ Gk) as (mk & Hmk & Pk).
      rewrite list_lookup_alter_ne; [reflexivity|].
      intros <-. congruence.
    + split; [|reflexivity]. unfold getModule. simpl. rewrite Gg.
      now rewrite list_lookup_alter_eq, Gh.
  - split.
    + intros k Hk. unfold getModule. simpl.
      rewrite JSMapFacts.get_set_ne by congruence.
      destruct (JSMap.get (Graph.dependencies (graph (store p))) k)
        as [rk|] eqn:Gk; [|reflexivity].
      destruct (W _ _ Gk) as (mk & Hmk & Pk).
      rewrite list_lookup_alter_ne, (lookup_app_l_Some _ _ _ _ Hmk), Hmk;
        [reflexivity|].
      apply lookup_lt_Some in Hmk. lia.
    + split; [|reflexivity]. unfold getModule. simpl.
      rewrite JSMapFacts.get_set_eq.
      rewrite list_lookup_alter_eq, lookup_app_r, Nat.sub_diag by lia.
      reflexivity.
Qed.

Lemma addDependency_keeps parentModule y root self p k r m :
  graph_ok (store p) ->
  getModule (store p) k = Some (r, m) ->
  exists m',
    getModule (store (addDependency parentModule y root self p)) k =
      Some (r, m') /\
    Mod.dependencies m' = Mod.dependencies m /\
    Mod.path m' = Mod.path m /\
    Mod.output m' = Mod.output m /\
    forall q, q ∈ Mod.inverseDependencies m -> q ∈ Mod.inverseDependencies m'.
Proof.
  intros W G.
  destruct (addDependency_effect parentModule y root self p W) as [Ene Ey].
  destruct (decide (k = y)) as [->|Hne].
  - rewrite G in Ey. destruct Ey as [-> _]. eexists. split; [reflexivity|].
    split_and!; try reflexivity.
    intros q Hq. simpl. apply JSSetFacts.elem_of_add. auto.
  - exists m. rewrite Ene by assumption. auto.
Qed.

Lemma addDependency_from parentModule y root self p k r m' :
  graph_ok (store p) ->
  getModule (store (addDependency parentModule y root self p)) k =
    Some (r, m') ->
  (k = y /\ getModule (store p) y = None /\ r = length (heap (store p)) /\
   m' = Mod.mk [] [Mod.path parentModule] y emptyOutput) \/
  exists m,
    getModule (store p) k = Some (r, m) /\
    Mod.dependencies m' = Mod.dependencies m /\
    Mod.path m' = Mod.path m /\
    Mod.output m' = Mod.output m /\
    forall q, q ∈ Mod.inverseDependencies m' ->
              q ∈ Mod.inverseDependencies m \/
              (k = y /\ q = Mod.path parentModule).
Proof.
  intros W G'.
  destruct (addDependency_effect parentModule y root self p W) as [Ene Ey].
  destruct (decide (k = y)) as [->|Hne].
  - destruct (getModule (store p) y) as [[r0 m]|] eqn:G.
    + destruct Ey as [Ey _]. rewrite Ey in G'. injection G' as <- <-.
      right. exists m. split_and!; try reflexivity.
      intros q Hq. simpl in Hq. apply JSSetFacts.elem_of_add in Hq.
      destruct Hq; auto.
    + destruct Ey as [Ey _]. rewrite Ey in G'. injection G' as <- <-.
      left. auto.
  - rewrite Ene in G' by assumption. right. exists m'.
    split_and!; auto.
Qed.

Lemma addDependency_linked parentModule y root self p :
  graph_ok (store p) ->
  exists r m',
    getModule (store (addDependency parentModule y root self p)) y =
      Some (r, m') /\
    Mod.path parentModule ∈ Mod.inverseDependencies m'.
Proof.
  intros W.
  destruct (addDependency_effect parentModule y root self p W) as [_ Ey].
  destruct (getModule (store p) y) as [[r0 m]|]; destruct Ey as [-> _];
    eexists _, _; (split; [reflexivity|]); simpl.
  - apply JSSetFacts.elem_of_add. auto.
  - apply list_elem_of_here.
Qed.

Lemma addDependency_awaited parentModule y root self p r :
  awaited p r -> awaited (addDependency parentModule y root self p) r.
Proof.
  intros (i & t & H & Hr & St).
  destruct (addDependency_extends parentModule y root self p) as [[new T] _].
  exists i, t. rewrite T. split; [now apply lookup_app_l_Some|auto].
Qed.

Lemma addDependency_building options entryPoints
    (T T' : string -> string -> Prop) parentModule y root self p rx mx :
  building options entryPoints T p ->
  getModule (store p) (Mod.path parentModule) = Some (rx, mx) ->
  y ∈ JSMap.values (Mod.dependencies mx) ->
  importReach options entryPoints y ->
  (forall a b, T a b -> T' a b \/ (a = Mod.path parentModule /\ b = y)) ->
  building options entryPoints T' (addDependency parentModule y root self p).
Proof.
  intros [W Re En Pv Ta Mo In Rc] Gx Hy Ry HT.
  set (p' := addDependency parentModule y root self p).
  assert (Keep : forall k r m, getModule (store p) k = Some (r, m) ->
            exists m', getModule (store p') k = Some (r, m') /\
              Mod.dependencies m' = Mod.dependencies m /\
              Mod.path m' = Mod.path m /\ Mod.output m' = Mod.output m /\
              forall q, q ∈ Mod.inverseDependencies m ->
                        q ∈ Mod.inverseDependencies m')
    by (intros k r m; now apply addDependency_keeps).
  assert (From := fun k r m' =>
            addDependency_from parentModule y root self p k r m' W).
  fold p' in From.
  destruct (addDependency_linked parentModule y root self p W)
    as (ry & my & Gy & Ly). fold p' in Gy.
  assert (Mono : forall k, inGraph (store p) k -> inGraph (store p') k).
  { intros k (r & m & G). destruct (Keep _ _ _ G) as (m' & G' & _).
    exists r, m'. exact G'. }
  assert (Iy : inGraph (store p') y) by (exists ry, my; exact Gy).
  destruct (Keep _ _ _ Gx) as (mx' & Gx' & Dx & _).
  constructor.
  - now apply addDependency_graph_ok.
  - intros k (r & m' & G').
    destruct (From _ _ _ G') as [(-> & _)|(m & G & _)]; [assumption|].
    apply Re. exists r, m. exact G.
  - intros e He. apply Mono. now apply En.
  - intros t Ht.
    destruct (addDependency_book parentModule y root self p)
      as [(Tk & _)|(r & Tk & _)]; fold p' in Tk; rewrite Tk in Ht.
    + now apply Pv.
    + apply elem_of_app in Ht as [Ht|Ht]; [now apply Pv|].
      now apply list_elem_of_singleton in Ht as ->.
  - intros t Ht.
    destruct (addDependency_effect parentModule y root self p W) as [_ Ey].
    fold p' in Ey.
    assert (Old : t ∈ tasks p ->
              exists m, getModule (store p') (Mod.path m)
                        = Some (t_module t, m)).
    { intros Ht'. destruct (Ta _ Ht') as (m & G).
      destruct (Keep _ _ _ G) as (m' & G' & _ & P' & _).
      exists m'. now rewrite P'. }
    destruct (getModule (store p) y) as [[r0 m0]|] eqn:G0;
      destruct Ey as [Ey Tk]; rewrite Tk in Ht; [auto|].
    apply elem_of_app in Ht as [Ht|Ht]; [auto|].
    apply list_elem_of_singleton in Ht as ->. simpl.
    exists (Mod.mk [] [Mod.path parentModule] y emptyOutput). exact Ey.
  - intros k r m' G'.
    destruct (From _ _ _ G') as [(-> & G0 & -> & ->)|(m & G & D & P & O & _)].
    + left. split; [reflexivity|].
      destruct (addDependency_effect parentModule y root self p W) as [_ Ey].
      fold p' in Ey. rewrite G0 in Ey. destruct Ey as [_ Tk].
      exists (length (tasks p)), (mkTask (length (heap (store p))) [] root
                                   (Some self) AwaitTransform).
      rewrite Tk, lookup_app_r, Nat.sub_diag by lia. auto.
    + destruct (Mo _ _ _ G) as [[D0 Aw]|(Td & To & Tc)].
      * left. split; [congruence|]. now apply addDependency_awaited.
      * right. unfold transformed. rewrite D, P, O. split_and!; auto.
        intros y0 Hy0. destruct (Tc _ Hy0) as [Ht|Hi]; [|auto].
        destruct (HT _ _ Ht) as [Ht'|[_ ->]]; auto.
  - intros k r m' q G' Hq.
    assert (Lx : k = y -> q = Mod.path parentModule ->
              exists rq mq, getModule (store p') q = Some (rq, mq) /\
                k ∈ JSMap.values (Mod.dependencies mq)).
    { intros -> ->. exists rx, mx'. split; [assumption|]. now rewrite Dx. }
    destruct (From _ _ _ G') as [(-> & _ & _ & ->)|(m & G & _ & _ & _ & I)].
    + simpl in Hq. apply list_elem_of_singleton in Hq. auto.
    + destruct (I _ Hq) as [Hq'|[-> ->]]; [|auto].
      destruct (In _ _ _ _ G Hq') as (rq & mq & Gq & Hk).
      destruct (Keep _ _ _ Gq) as (mq' & Gq' & Dq & _).
      exists rq, mq'. split; [assumption|]. now rewrite Dq.
  - intros k1 r1 m1' k2 r2 m2' G1' G2' Hk.
    destruct (From _ _ _ G1') as [(-> & _ & _ & ->)|(m1 & G1 & D1 & P1 & _)].
    { simpl in Hk. now apply elem_of_nil in Hk. }
    rewrite D1 in Hk.
    pose proof (getModule_path _ _ _ _ W G1) as Pk1.
    assert (Lx : k1 = Mod.path parentModule -> k2 = y ->
              k1 ∈ Mod.inverseDependencies m2').
    { intros -> ->. rewrite Gy in G2'. now injection G2' as <- <-. }
    destruct (From _ _ _ G2') as [(-> & G0 & _ & ->)|(m2 & G2 & _ & _ & _ & _)].
    + destruct (Mo _ _ _ G1) as [[D0 _]|(_ & _ & Tc)].
      * rewrite D0 in Hk. now apply elem_of_nil in Hk.
      * destruct (Tc _ Hk) as [Ht|(r0 & m0 & G0')]; [|congruence].
        rewrite Pk1 in Ht. destruct (HT _ _ Ht) as [Ht'|[E _]]; auto.
    + destruct (Rc _ _ _ _ _ _ G1 G2 Hk) as [Ht|Hi].
      * destruct (HT _ _ Ht) as [Ht'|[E1 E2]]; auto.
      * right. destruct (Keep _ _ _ G2) as (m2'' & G2'' & _ & _ & _ & I).
        rewrite G2' in G2''. injection G2'' as <-. auto.
Qed.

Lemma building_weaken options entryPoints (T T' : string -> string -> Prop) p :
  (forall a b, T a b -> T' a b) ->
  building options entryPoints T p -> building options entryPoints T' p.
Proof.
  intros HT [W Re En Pv Ta Mo In Rc]. constructor; auto.
  - intros k r m G. destruct (Mo _ _ _ G) as [L|(Td & To & Tc)]; [auto|].
    right. split_and!; auto. intros y Hy. destruct (Tc _ Hy); auto.
  - intros k1 r1 m1 k2 r2 m2 G1 G2 Hk.
    destruct (Rc _ _ _ _ _ _ G1 G2 Hk); auto.
Qed.

Lemma addDependency_transformed options (T T' : string -> string -> Prop)
    parentModule y root self p k r m :
  graph_ok (store p) ->
  getModule (store p) k = Some (r, m) ->
  transformed options T (store p) m ->
  (forall a b, T a b -> T' a b \/ (a = Mod.path parentModule /\ b = y)) ->
  exists m',
    getModule (store (addDependency parentModule y root self p)) k =
      Some (r, m') /\
    Mod.dependencies m' = Mod.dependencies m /\
    transformed options T'
      (store (addDependency parentModule y root self p)) m'.
Proof.
  intros W G (Td & To & Tc) HT.
  destruct (addDependency_keeps parentModule y root self p k r m W G)
    as (m' & G' & D & P & O & _).
  exists m'. split; [assumption|]. split; [assumption|].
  unfold transformed. rewrite D, P, O. split_and!; auto.
  intros y0 Hy0.
  destruct (addDependency_linked parentModule y root self p W)
    as (ry & my & Gy & _).
  destruct (Tc _ Hy0) as [Ht|(r0 & m0 & G0)].
  - destruct (HT _ _ Ht) as [Ht'|[_ ->]]; [auto|].
    right. exists ry, my. exact Gy.
  - right.
    destruct (addDependency_keeps parentModule y root self p y0 r0 m0 W G0)
      as (m0' & G0' & _).
    exists r0, m0'. exact G0'.
Qed.

(** The additions that [processModule] starts for a module whose previous
    dependencies are empty. *)
Lemma addNew_building options entryPoints module root self rx :
  forall current p mx,
    building options entryPoints
      (fun a b => a = Mod.path module /\ b ∈ JSMap.values current) p ->
    getModule (store p) (Mod.path module) = Some (rx, mx) ->
    transformed options
      (fun a b => a = Mod.path module /\ b ∈ JSMap.values current)
      (store p) mx ->
    (forall y, y ∈ JSMap.values current ->
               y ∈ JSMap.values (Mod.dependencies mx)) ->
    (forall y, y ∈ JSMap.values current ->
               importReach options entryPoints y) ->
    let p' := addNew module [] current root self p in
    building options entryPoints (fun _ _ => False) p' /\
    exists mx',
      getModule (store p') (Mod.path module) = Some (rx, mx') /\
      transformed options (fun _ _ => False) (store p') mx'.
Proof.
  unfold addNew.
  induction current as [|e current IH]; intros p mx B G Tx Hd Hr; simpl.
  - split.
    + eapply building_weaken; [|exact B]. intros a b [_ H].
      now apply elem_of_nil in H.
    + exists mx. split; [assumption|]. destruct Tx as (Td & To & Tc).
      split_and!; auto. intros y Hy. destruct (Tc _ Hy) as [[_ H]|H]; [|auto].
      now apply elem_of_nil in H.
  - assert (HT : forall a b,
              a = Mod.path module /\ b ∈ JSMap.values (e :: current) ->
              (a = Mod.path module /\ b ∈ JSMap.values current) \/
              (a = Mod.path module /\ b = snd e)).
    { intros a b [Ha Hb]. unfold JSMap.values in Hb. simpl in Hb.
      apply elem_of_cons in Hb as [->|Hb]; auto. }
    assert (He : snd e ∈ JSMap.values (e :: current))
      by (unfold JSMap.values; simpl; apply list_elem_of_here).
    assert (Hc : forall y, y ∈ JSMap.values current ->
                           y ∈ JSMap.values (e :: current))
      by (intros y Hy; unfold JSMap.values; simpl;
          now apply list_elem_of_further).
    pose proof (addDependency_building options entryPoints _ _ module (snd e)
                  root self p rx mx B G (Hd _ He) (Hr _ He) HT) as B1.
    destruct (addDependency_transformed options _ _ module (snd e) root self
                p _ rx mx (bld_graph _ _ _ _ B) G Tx HT)
      as (mx1 & G1 & D1 & T1).
    apply (IH _ mx1); auto.
    intros y Hy. rewrite D1. auto.
Qed.

Lemma insert_effect s x r m0 m :
  graph_ok s -> getModule s x = Some (r, m0) ->
  getModule (setHeap (<[r := m]> (heap s)) s) x = Some (r, m) /\
  forall k, k <> x ->
    getModule (setHeap (<[r := m]> (heap s)) s) k = getModule s k.
Proof.
  intros W G. pose proof (getModule_path _ _ _ _ W G) as P.
  apply getModule_Some in G as [Gg Gh]. split.
  - unfold getModule. simpl. rewrite Gg.
    now rewrite list_lookup_insert_eq by (eapply lookup_lt_Some; eauto).
  - intros k Hk. unfold getModule. simpl.
    destruct (JSMap.get (Graph.dependencies (graph s)) k) as [rk|] eqn:Gk;
      [|reflexivity].
    destruct (W _ _ Gk) as (mk & Hmk & Pk).
    rewrite list_lookup_insert_ne; [reflexivity|]. intros <-. congruence.
Qed.

(** The update of the module at the start of [processModule]'s second
    half; its imports are still to be added. *)
Lemma update_building options entryPoints p r m0 :
  building options entryPoints (fun _ _ => False) p ->
  getModule (store p) (Mod.path m0) = Some (r, m0) ->
  let current :=
    resolveDependencies (Mod.path m0)
      (tr_dependencies (transform options (Mod.path m0))) options in
  let module :=
    Mod.mk (JSMap.setAll [] current) (Mod.inverseDependencies m0)
      (Mod.path m0) (tr_output (transform options (Mod.path m0))) in
  let T := fun a b => a = Mod.path m0 /\ b ∈ JSMap.values current in
  let p1 := setStore (setHeap (<[r := module]> (heap (store p))) (store p)) p in
  building options entryPoints T p1 /\
  getModule (store p1) (Mod.path m0) = Some (r, module) /\
  transformed options T (store p1) module.
Proof.
  intros [W Re En Pv Ta Mo In Rc] G current module T p1.
  destruct (insert_effect (store p) (Mod.path m0) r m0 module W G)
    as [Gx Gne].
  change (setHeap (<[r := module]> (heap (store p))) (store p))
    with (store p1) in Gx, Gne.
  assert (Dm : Mod.dependencies module = current)
    by apply copy_resolveDependencies.
  assert (Tm : transformed options T (store p1) module).
  { split_and!; [exact Dm|reflexivity|].
    intros y Hy. left. split; [reflexivity|]. now rewrite <- Dm. }
  assert (Old : Mod.dependencies m0 = [] \/ Mod.dependencies m0 = current).
  { destruct (Mo _ _ _ G) as [[D0 _]|(Td & _)]; auto. }
  assert (OldV : forall y, y ∈ JSMap.values (Mod.dependencies m0) ->
                           y ∈ JSMap.values (Mod.dependencies module)).
  { intros y Hy. destruct Old as [D0|D0]; rewrite D0 in Hy.
    - now apply elem_of_nil in Hy.
    - now rewrite Dm. }
  assert (Mono : forall k, inGraph (store p) k -> inGraph (store p1) k).
  { intros k (rk & mk & Gk). destruct (decide (k = Mod.path m0)) as [->|Hne].
    - exists r, module. exact Gx.
    - exists rk, mk. now rewrite Gne. }
  assert (Back : forall k, inGraph (store p1) k -> inGraph (store p) k).
  { intros k (rk & mk & Gk). destruct (decide (k = Mod.path m0)) as [->|Hne].
    - exists r, m0. exact G.
    - exists rk, mk. now rewrite Gne in Gk. }
  split; [|auto]. constructor.
  - now apply (graph_ok_insert r module m0); [apply getModule_Some in G|..].
  - intros k Hk. auto.
  - intros e He. auto.
  - exact Pv.
  - intros t Ht. destruct (Ta _ Ht) as (m & Gm).
    destruct (decide (Mod.path m = Mod.path m0)) as [E|Hne].
    + rewrite E, G in Gm. injection Gm as Er <-. exists module.
      simpl. now rewrite <- Er.
    + exists m. now rewrite Gne.
  - intros k rk mk Gk. destruct (decide (k = Mod.path m0)) as [->|Hne].
    + rewrite Gx in Gk. injection Gk as <- <-. now right.
    + rewrite Gne in Gk by assumption.
      destruct (Mo _ _ _ Gk) as [L|(Td & To & Tc)]; [now left|right].
      split_and!; auto. intros y Hy. destruct (Tc _ Hy) as [[]|Hi]. auto.
  - intros k rk mk q Gk Hq.
    assert (Hq' : exists rq mq,
              getModule (store p) q = Some (rq, mq) /\
              k ∈ JSMap.values (Mod.dependencies mq)).
    { destruct (decide (k = Mod.path m0)) as [->|Hne].
      - rewrite Gx in Gk. injection Gk as <- <-. simpl in Hq.
        eapply In; eauto.
      - rewrite Gne in Gk by assumption. eapply In; eauto. }
    destruct Hq' as (rq & mq & Gq & Hk).
    destruct (decide (q = Mod.path m0)) as [->|Hne].
    + rewrite G in Gq. injection Gq as <- <-.
      exists r, module. split; [assumption|auto].
    + exists rq, mq. now rewrite Gne.
  - intros k1 r1 m1 k2 r2 m2 G1 G2 Hk.
    destruct (decide (k1 = Mod.path m0)) as [->|Hne1].
    + rewrite Gx in G1. injection G1 as <- <-. left.
      split; [reflexivity|]. now rewrite <- Dm.
    + rewrite Gne in G1 by assumption. right.
      destruct (decide (k2 = Mod.path m0)) as [->|Hne2].
      * rewrite Gx in G2. injection G2 as <- <-. simpl.
        destruct (Rc _ _ _ _ _ _ G1 G Hk) as [[]|Hi]. exact Hi.
      * rewrite Gne in G2 by assumption.
        destruct (Rc _ _ _ _ _ _ G1 G2 Hk) as [[]|Hi]. exact Hi.
Qed.

(** A task changes its status: the module it awaited, if any, is
    transformed. *)
Lemma status_building options entryPoints (T : string -> string -> Prop)
    st self p p' :
  building options entryPoints T p ->
  store p' = store p ->
  tasks p' = alter (setStatus st) self (tasks p) ->
  (forall task k m,
     tasks p !! self = Some task -> t_status task = AwaitTransform ->
     getModule (store p) k = Some (t_module task, m) ->
     transformed options T (store p) m) ->
  building options entryPoints T p'.
Proof.
  intros [W Re En Pv Ta Mo In Rc] Hs Ht Hself.
  assert (Inv : forall t, t ∈ tasks p' ->
                  exists t0, t0 ∈ tasks p /\
                    t_previousDependencies t = t_previousDependencies t0 /\
                    t_module t = t_module t0).
  { rewrite Ht. intros t [i Hi]%list_elem_of_lookup.
    destruct (decide (self = i)) as [<-|Hne].
    - rewrite list_lookup_alter_eq in Hi.
      destruct (tasks p !! self) as [t0|] eqn:H0; [|discriminate].
      injection Hi as <-. exists t0.
      split; [eapply list_elem_of_lookup_2; eauto|auto].
    - rewrite list_lookup_alter_ne in Hi by assumption.
      exists t. split; [eapply list_elem_of_lookup_2; eauto|auto]. }
  constructor; rewrite ?Hs; auto.
  - intros t Ht'. destruct (Inv t Ht') as (t0 & H0 & -> & _). auto.
  - intros t Ht'. destruct (Inv t Ht') as (t0 & H0 & _ & ->). auto.
  - intros k r m G. destruct (Mo _ _ _ G) as [[D0 (i & t & Hi & Hr & St)]|R];
      [|now right].
    destruct (decide (self = i)) as [<-|Hne].
    + right. subst r. eapply Hself; eauto.
    + left. split; [assumption|]. exists i, t. rewrite Ht.
      now rewrite list_lookup_alter_ne.
Qed.

Lemma advance_building options entryPoints depth self p p' :
  building options entryPoints (fun _ _ => False) p ->
  advance options depth self p = Some p' ->
  building options entryPoints (fun _ _ => False) p'.
Proof.
  intros B. unfold advance.
  destruct (tasks p !! self) as [task|] eqn:H; [|discriminate].
  assert (Ht : task ∈ tasks p) by (eapply list_elem_of_lookup_2; eauto).
  destruct (t_status task) eqn:St; [| |discriminate].
  - destruct (bld_task _ _ _ _ B _ Ht) as (m0 & G).
    pose proof G as [_ Gh]%getModule_Some.
    unfold processModule_resume. rewrite Gh.
    rewrite (bld_previous _ _ _ _ B _ Ht). cbv zeta.
    unfold removeDropped at 1. simpl fold_left. cbv iota beta.
    intros [= <-].
    destruct (update_building options entryPoints p (t_module task) m0 B G)
      as (B1 & G1 & T1).
    set (current := resolveDependencies (Mod.path m0)
                      (tr_dependencies (transform options (Mod.path m0)))
                      options) in *.
    set (module := Mod.mk (JSMap.setAll [] current)
                     (Mod.inverseDependencies m0) (Mod.path m0)
                     (tr_output (transform options (Mod.path m0)))) in *.
    set (p1 := setStore
                 (setHeap (<[t_module task := module]> (heap (store p)))
                    (store p)) p) in *.
    destruct (addNew_building options entryPoints module (t_root task) self
                (t_module task) current p1 module B1 G1 T1)
      as (B3 & mx3 & G3 & T3).
    + intros y Hy. unfold module, current in *. simpl.
      now rewrite copy_resolveDependencies.
    + intros y Hy. apply importReach_step with (x := Mod.path m0); [|exact Hy].
      apply (bld_reach _ _ _ _ B). exists (t_module task), m0. exact G.
    + eapply status_building; [exact B3|reflexivity|reflexivity|].
      intros task' k m H' St' Gk.
      destruct (addNew_extends module [] current (t_root task) self p1)
        as [[new Tk] _].
      rewrite Tk in H'. change (tasks p1) with (tasks p) in H'.
      rewrite (lookup_app_l_Some _ _ _ _ H) in H'. injection H' as <-.
      pose proof Gk as [_ Hk]%getModule_Some.
      pose proof G3 as [_ H3]%getModule_Some.
      assert (m = mx3) by congruence. subst m. exact T3.
  - destruct (childrenCompleted self (tasks p)); [|discriminate].
    intros [= <-].
    eapply status_building; [exact B|reflexivity|reflexivity|].
    intros task' k m H' St'. congruence.
Qed.

Lemma createModule_effect e s :
  graph_ok s ->
  getModule (snd (createModule e s)) e =
    Some (length (heap s), Mod.mk [] [] e emptyOutput) /\
  forall k, k <> e -> getModule (snd (createModule e s)) k = getModule s k.
Proof.
  intros W. unfold createModule, getModule. simpl. split.
  - rewrite JSMapFacts.get_set_eq.
    now rewrite lookup_app_r, Nat.sub_diag by lia.
  - intros k Hk. rewrite JSMapFacts.get_set_ne by congruence.
    destruct (JSMap.get (Graph.dependencies (graph s)) k) as [rk|] eqn:Gk;
      [|reflexivity].
    destruct (W _ _ Gk) as (mk & Hmk & _).
    now rewrite (lookup_app_l_Some _ _ _ _ Hmk), Hmk.
Qed.

(** The modules that the start of a cold start makes for the entry
    points, in a graph that had none. *)
Lemma createModules_fresh entryPoints h g :
  Graph.dependencies g = [] ->
  let s0 :=
    fold_left (fun s e => snd (createModule e s)) entryPoints
      (mkStore h g Delta.empty) in
  graph_ok s0 /\
  (forall k r m, getModule s0 k = Some (r, m) ->
     k ∈ entryPoints /\ m = Mod.mk [] [] k emptyOutput) /\
  (forall e, e ∈ entryPoints -> inGraph s0 e).
Proof.
  intros Hg.
  enough (forall (E : string -> Prop) s,
            graph_ok s ->
            (forall k r m, getModule s k = Some (r, m) ->
               E k /\ m = Mod.mk [] [] k emptyOutput) ->
            (forall k, E k -> inGraph s k) ->
            let s0 := fold_left (fun s e => snd (createModule e s))
                        entryPoints s in
            graph_ok s0 /\
            (forall k r m, getModule s0 k = Some (r, m) ->
               (E k \/ k ∈ entryPoints) /\ m = Mod.mk [] [] k emptyOutput) /\
            (forall k, E k \/ k ∈ entryPoints -> inGraph s0 k)) as K.
  { destruct (K (fun _ => False) (mkStore h g Delta.empty)) as (W & F & I).
    - intros k r G. simpl in G. rewrite Hg in G. discriminate.
    - intros k r m [G _]%getModule_Some. simpl in G. rewrite Hg in G.
      discriminate.
    - intros k [].
    - split; [exact W|]. split.
      + intros k r m G. destruct (F _ _ _ G) as [[[]|Hk] Hm]. auto.
      + intros e He. apply I. auto. }
  induction entryPoints as [|e entryPoints IH]; intros E s W F I; simpl.
  - split; [assumption|]. split.
    + intros k r m G. destruct (F _ _ _ G). auto.
    + intros k [Hk|Hk]; [auto|now apply elem_of_nil in Hk].
  - destruct (createModule_effect e s W) as [Ge Gne].
    destruct (IH (fun k => E k \/ k = e) (snd (createModule e s)))
      as (W' & F' & I').
    + now apply graph_ok_createModule.
    + intros k r m G. destruct (decide (k = e)) as [->|Hne].
      * rewrite Ge in G. injection G as <- <-. auto.
      * rewrite Gne in G by assumption. destruct (F _ _ _ G). auto.
    + intros k [Hk | ->].
      * destruct (decide (k = e)) as [->|Hne]; [eexists _, _; exact Ge|].
        destruct (I _ Hk) as (r & m & G). exists r, m. now rewrite Gne.
      * eexists _, _. exact Ge.
    + split; [assumption|]. split.
      * intros k r m G. destruct (F' _ _ _ G) as [[[Hk | ->]|Hk] Hm].
        -- auto.
        -- split; [right; apply list_elem_of_here|assumption].
        -- split; [right; now apply list_elem_of_further|assumption].
      * intros k [Hk|[->|Hk]%elem_of_cons]; apply I'; auto.
Qed.

Lemma getModule_ext s s' k :
  heap s = heap s' -> graph s = graph s' -> getModule s k = getModule s' k.
Proof. unfold getModule. now intros -> ->. Qed.

(** The calls of [processModule] that the start of a pass makes: one for
    each changed path that names a module. *)
Lemma beginTraverse_tasks paths h g :
  let p := beginTraverse paths h g in
  (forall t, t ∈ tasks p ->
     exists path r m,
       path ∈ paths /\ getModule (mkStore h g Delta.empty) path = Some (r, m) /\
       t_module t = r /\ t_previousDependencies t = Mod.dependencies m) /\
  (forall path r m,
     path ∈ paths -> getModule (mkStore h g Delta.empty) path = Some (r, m) ->
     awaited p r).
Proof.
  unfold beginTraverse.
  enough (forall p0,
            heap (store p0) = h -> graph (store p0) = g ->
            let p := fold_left (fun p path => traversePath path p) paths p0 in
            (forall t, t ∈ tasks p ->
               t ∈ tasks p0 \/
               exists path r m,
                 path ∈ paths /\
                 getModule (mkStore h g Delta.empty) path = Some (r, m) /\
                 t_module t = r /\
                 t_previousDependencies t = Mod.dependencies m) /\
            (forall r, awaited p0 r -> awaited p r) /\
            (forall path r m,
               path ∈ paths ->
               getModule (mkStore h g Delta.empty) path = Some (r, m) ->
               awaited p r)) as K.
  { destruct (K (mkPass (mkStore h g Delta.empty) [] [] []) eq_refl eq_refl)
      as (A & _ & C).
    split; [|exact C]. intros t Ht. destruct (A t Ht) as [H|H]; [|exact H].
    now apply elem_of_nil in H. }
  induction paths as [|path paths IH]; intros p0 Hh Hg; simpl.
  - split; [auto|]. split; [auto|]. intros path r m H.
    now apply elem_of_nil in H.
  - destruct (traversePath_store path p0) as (Th & Tg & _).
    destruct (IH (traversePath path p0)) as (A & B & C); [congruence..|].
    assert (G0 : getModule (store p0) path =
                 getModule (mkStore h g Delta.empty) path)
      by (apply getModule_ext; assumption).
    assert (Step : forall r, awaited p0 r -> awaited (traversePath path p0) r).
    { intros r (i & t & Hi & Hr & St). unfold traversePath.
      destruct (getModule (store p0) path) as [[r0 m0]|]; [|exists i, t; auto].
      exists i, t. simpl. split; [now apply lookup_app_l_Some|auto]. }
    split_and!.
    + intros t Ht. destruct (A t Ht) as [H|(path' & r & m & H & R)].
      * unfold traversePath in H. rewrite G0 in H.
        destruct (getModule (mkStore h g Delta.empty) path) as [[r m]|] eqn:G;
          [|auto].
        simpl in H. apply elem_of_app in H as [H|H]; [auto|].
        apply list_elem_of_singleton in H as ->. right.
        exists path, r, m. split; [apply list_elem_of_here|auto].
      * right. exists path', r, m. split; [now apply list_elem_of_further|auto].
    + intros r Hr. auto.
    + intros path' r m [->|H]%elem_of_cons G; [|eauto].
      apply B. unfold traversePath. rewrite G0, G. simpl.
      exists (length (tasks p0)),
        (mkTask r (Mod.dependencies m) (length (counters p0)) None
           AwaitTransform).
      split; [|auto].
      unfold traverseDependenciesForSingleFile, processModule_call. simpl.
      now rewrite lookup_app_r, Nat.sub_diag by lia.
Qed.

Lemma coldStart_building options h g :
  Graph.dependencies g = [] ->
  let s0 :=
    fold_left (fun s e => snd (createModule e s)) (Graph.entryPoints g)
      (mkStore h g Delta.empty) in
  building options (Graph.entryPoints g) (fun _ _ => False)
    (beginTraverse (Graph.entryPoints g) (heap s0) (graph s0)).
Proof.
  intros Hg s0.
  destruct (createModules_fresh (Graph.entryPoints g) h g Hg) as (W & F & I).
  fold s0 in W, F, I.
  destruct (beginTraverse_store (Graph.entryPoints g) (heap s0) (graph s0))
    as (Hh & Hgr & _).
  destruct (beginTraverse_tasks (Graph.entryPoints g) (heap s0) (graph s0))
    as (Tk & Aw).
  set (p := beginTraverse (Graph.entryPoints g) (heap s0) (graph s0)) in *.
  assert (E : forall k, getModule (store p) k = getModule s0 k)
    by (intros k; now apply getModule_ext).
  assert (E' : forall k,
             getModule (mkStore (heap s0) (graph s0) Delta.empty) k =
             getModule s0 k) by (intros k; now apply getModule_ext).
  constructor.
  - intros k r G. rewrite Hgr in G. rewrite Hh. exact (W k r G).
  - intros k (r & m & G). rewrite E in G. apply importReach_entry.
    now destruct (F _ _ _ G).
  - intros e He. destruct (I e He) as (r & m & G). exists r, m. now rewrite E.
  - intros t Ht. destruct (Tk t Ht) as (path & r & m & _ & G & _ & ->).
    rewrite E' in G. now destruct (F _ _ _ G) as [_ ->].
  - intros t Ht. destruct (Tk t Ht) as (path & r & m & _ & G & <- & _).
    rewrite E' in G. exists m. rewrite E.
    now rewrite (getModule_path _ _ _ _ W G).
  - intros k r m G. rewrite E in G. left.
    destruct (F _ _ _ G) as [Hk ->]. split; [reflexivity|].
    apply (Aw k r (Mod.mk [] [] k emptyOutput)); [assumption|].
    now rewrite E'.
  - intros k r m q G Hq. rewrite E in G. destruct (F _ _ _ G) as [_ ->].
    now apply elem_of_nil in Hq.
  - intros k1 r1 m1 k2 r2 m2 G1 _ Hk. rewrite E in G1.
    destruct (F _ _ _ G1) as [_ ->]. now apply elem_of_nil in Hk.
Qed.

(** The graph that the traversal of a cold start has built, when it is
    complete: every module is transformed and linked. *)
Record built (options : Options) (entryPoints : list string) (s : Store)
  : Prop := mkBuilt {
  blt_paths : pathsOk s;
  blt_reach : forall k, inGraph s k <-> importReach options entryPoints k;
  blt_module :
    forall k r m, getModule s k = Some (r, m) ->
      Mod.dependencies m =
        resolveDependencies k (tr_dependencies (transform options k)) options /\
      Mod.output m = tr_output (transform options k) /\
      forall q, q ∈ Mod.inverseDependencies m <->
                importReach options entryPoints q /\ k ∈ importsOf options q;
  blt_linked :
    forall k, inGraph s k ->
      reachable (heap s) (Graph.dependencies (graph s)) entryPoints k;
}.

Lemma coldStart_built options depth schedule h g res0 p0 :
  Graph.dependencies g = [] ->
  ~ importReach options (Graph.entryPoints g) EmptyString ->
  let s0 :=
    fold_left (fun s e => snd (createModule e s)) (Graph.entryPoints g)
      (mkStore h g Delta.empty) in
  traverseDependencies options depth schedule (Graph.entryPoints g)
    (heap s0) (graph s0) = Some (res0, p0) ->
  built options (Graph.entryPoints g) (store p0).
Proof.
  intros Hg Hne s0 (R & A & _)%traverseDependencies_Some.
  assert (B : building options (Graph.entryPoints g) (fun _ _ => False) p0).
  { refine (run_invariant (building options (Graph.entryPoints g)
                             (fun _ _ => False)) options depth _ _ _ _ _ R).
    - intros self q q'. apply advance_building.
    - now apply coldStart_building. }
  destruct B as [W Re En Pv Ta Mo In Rc].
  assert (Tr : forall k r m, getModule (store p0) k = Some (r, m) ->
                 Mod.path m = k /\
                 transformed options (fun _ _ => False) (store p0) m).
  { intros k r m G. split; [eapply getModule_path; eauto|].
    destruct (Mo _ _ _ G) as [[_ (i & t & Hi & _ & St)]|T]; [|exact T].
    rewrite (allCompleted_lookup _ _ _ A Hi) in St. discriminate. }
  assert (Imp : forall x r m y,
            getModule (store p0) x = Some (r, m) ->
            y ∈ importsOf options x <->
            y ∈ JSMap.values (Mod.dependencies m)).
  { intros x r m y G. destruct (Tr _ _ _ G) as (P & D & _).
    rewrite D, P. reflexivity. }
  assert (Rch : forall k, importReach options (Graph.entryPoints g) k ->
                  inGraph (store p0) k /\
                  reachable (heap (store p0))
                    (Graph.dependencies (graph (store p0)))
                    (Graph.entryPoints g) k).
  { induction 1 as [e He|x y _ [(r & m & G) IH] Hy].
    - split; [auto|]. apply reachable_start; [assumption|].
      destruct (En e He) as (r & m & G). eapply getModule_has; eauto.
    - destruct (Tr _ _ _ G) as (_ & _ & _ & Tc).
      apply (Imp _ _ _ _ G) in Hy.
      destruct (Tc _ Hy) as [[]|Iy]. split; [exact Iy|].
      apply reachable_step with (x := x); [assumption|].
      pose proof G as [Gg Gh]%getModule_Some.
      destruct Iy as (ry & my & Gy).
      exists r, m. split_and!; try assumption.
      eapply getModule_has; eauto. }
  constructor.
  - split; [assumption|].
    destruct (JSMap.has (Graph.dependencies (graph (store p0))) EmptyString)
      eqn:Has; [|reflexivity].
    destruct (has_getModule _ _ W Has) as (r & m & G).
    destruct Hne. apply Re. exists r, m. exact G.
  - intros k. split; [apply Re|apply Rch].
  - intros k r m G. destruct (Tr _ _ _ G) as (P & D & O & _).
    rewrite P in D, O. split_and!; try assumption.
    intros q. split.
    + intros Hq. destruct (In _ _ _ _ G Hq) as (rq & mq & Gq & Hk).
      split; [apply Re; exists rq, mq; exact Gq|].
      now apply (Imp _ _ _ _ Gq).
    + intros [Rq Hk]. destruct (Rch _ Rq) as [(rq & mq & Gq) _].
      apply (Imp _ _ _ _ Gq) in Hk.
      destruct (Rc _ _ _ _ _ _ Gq G Hk) as [[]|Hi]. exact Hi.
  - intros k Hk. now apply Rch, Re.
Qed.

(** X13.  A cold start of a graph without modules, when the empty path is
    not among the paths that the entry points reach through the imports:
    whatever the schedule, the result holds exactly those paths, and each
    names a module with that path, with the dependencies that
    [resolveDependencies] gives for its transform and with the output of
    its transform. *)
Theorem coldStart_closure options depth schedule h g res p :
  Graph.dependencies g = [] ->
  ~ importReach options (Graph.entryPoints g) EmptyString ->
  initialTraverseDependencies options depth schedule h g = Some (res, p) ->
  (forall k,
     JSMap.has (Result.added res) k = true <->
     importReach options (Graph.entryPoints g) k) /\
  (forall k r,
     JSMap.get (Result.added res) k = Some r ->
     exists m,
       heap (store p) !! r = Some m /\ Mod.path m = k /\
       Mod.dependencies m =
         resolveDependencies k (tr_dependencies (transform options k))
           options /\
       Mod.output m = tr_output (transform options k)).
Proof.
  intros Hg Hne I.
  destruct (initialTraverseDependencies_Some _ _ _ _ _ _ _ I)
    as (_ & _ & res0 & p0 & T & Hh & _ & K). cbv zeta in T.
  destruct (coldStart_built options depth schedule h g res0 p0 Hg Hne T)
    as [J Re Mo Li].
  specialize (K J).
  assert (G0 : forall k r,
            JSMap.get (Result.added res) k = Some r ->
            exists m, getModule (store p0) k = Some (r, m)).
  { intros k r [G _]%K. destruct (proj1 J _ _ G) as (m & H & _).
    exists m. now apply getModule_Some. }
  split.
  - intros k. split.
    + intros [r G]%JSMapFacts.has_get. destruct (G0 _ _ G) as (m & Gm).
      apply Re. exists r, m. exact Gm.
    + intros Rk. apply Re in Rk. pose proof (Li _ Rk) as L.
      destruct Rk as (r & m & [Gg _]%getModule_Some).
      apply JSMapFacts.has_get. exists r. apply K. auto.
  - intros k r G. destruct (G0 _ _ G) as (m & Gm).
    destruct (Mo _ _ _ Gm) as (D & O & _).
    exists m. rewrite Hh. pose proof Gm as [_ H]%getModule_Some.
    split_and!; try assumption. eapply getModule_path; [apply J|exact Gm].
Qed.

(** X14.  After such a cold start the inverse dependencies of every module
    of the result are exactly the reached paths that import it. *)
Theorem coldStart_inverse options depth schedule h g res p k r m :
  Graph.dependencies g = [] ->
  ~ importReach options (Graph.entryPoints g) EmptyString ->
  initialTraverseDependencies options depth schedule h g = Some (res, p) ->
  JSMap.get (Result.added res) k = Some r ->
  heap (store p) !! r = Some m ->
  forall q,
    q ∈ Mod.inverseDependencies m <->
    importReach options (Graph.entryPoints g) q /\ k ∈ importsOf options q.
Proof.
  intros Hg Hne I G H.
  destruct (initialTraverseDependencies_Some _ _ _ _ _ _ _ I)
    as (_ & _ & res0 & p0 & T & Hh & _ & K). cbv zeta in T.
  destruct (coldStart_built options depth schedule h g res0 p0 Hg Hne T)
    as [J Re Mo Li].
  apply (K J) in G as [G _]. rewrite Hh in H.
  destruct (Mo k r m) as (_ & _ & In); [now apply getModule_Some|].
  exact In.
Qed.

Lemma Scenario_importReach k :
  importReach Scenario.options [Scenario.A] k -> k ∈ Scenario.paths.
Proof.
  induction 1 as [e He|x y _ IH Hy].
  - apply list_elem_of_singleton in He as ->. apply list_elem_of_here.
  - apply list_elem_of_In in IH. apply list_elem_of_In in Hy.
    apply list_elem_of_In. simpl in IH.
    destruct IH as [<-|[<-|[<-|[<-|[]]]]]; vm_compute in Hy; vm_compute;
      intuition.
Qed.

Lemma Scenario_nonempty :
  ~ importReach Scenario.options (Graph.entryPoints Scenario.emptyGraph)
      EmptyString.
Proof.
  intros H%Scenario_importReach. apply list_elem_of_In in H. simpl in H.
  intuition discriminate.
Qed.

Lemma coldStart_closure_witness :
  exists res p,
    initialTraverseDependencies Scenario.options 4 [0; 1; 3; 3; 1; 2; 2; 0] []
      Scenario.emptyGraph = Some (res, p) /\
    (JSMap.has (Result.added res) Scenario.D = true <->
     importReach Scenario.options [Scenario.A] Scenario.D).
Proof.
  eexists _, _. split; [vm_compute; reflexivity|].
  edestruct (coldStart_closure Scenario.options 4 [0; 1; 3; 3; 1; 2; 2; 0] []
               Scenario.emptyGraph) as [K _].
  - reflexivity.
  - exact Scenario_nonempty.
  - vm_compute. reflexivity.
  - apply K.
Defined.

Lemma coldStart_inverse_witness :
  exists res p m,
    initialTraverseDependencies Scenario.options 4 [0; 1; 3; 3; 1; 2; 2; 0] []
      Scenario.emptyGraph = Some (res, p) /\
    heap (store p) !! 3 = Some m /\
    (Scenario.B ∈ Mod.inverseDependencies m <->
     importReach Scenario.options [Scenario.A] Scenario.B /\
     Scenario.D ∈ importsOf Scenario.options Scenario.B).
Proof.
  eexists _, _, _. split; [vm_compute; reflexivity|].
  split; [reflexivity|].
  eapply (coldStart_inverse Scenario.options 4 [0; 1; 3; 3; 1; 2; 2; 0] []
            Scenario.emptyGraph _ _ Scenario.D 3).
  - reflexivity.
  - exact Scenario_nonempty.
  - vm_compute. reflexivity.
  - reflexivity.
  - reflexivity.
Defined.

(** The depth-first order of the paths, from the imports alone. *)
Fixpoint orderFrom (options : Options) (depth : nat) (x : string)
    (o : list string) : option (list string) :=
  match depth with
  | 0 => None
  | S depth' =>
      if JSSet.has o x then Some o
      else
        fold_left
          (fun acc y =>
             match acc with
             | Some o' => orderFrom options depth' y o'
             | None => None
             end)
          (importsOf options x) (Some (o ++ [x]))
  end.

Definition orderEach (options : Options) (depth : nat) (ys : list string)
    (acc : option (list string)) : option (list string) :=
  fold_left
    (fun acc y =>
       match acc with
       | Some o' => orderFrom options depth y o'
       | None => None
       end)
    ys acc.

Definition linearOrder (options : Options) (depth : nat)
    (entryPoints : list string) : option (list string) :=
  match depth with
  | 0 => None
  | S depth' =>
      orderEach options depth'
        (JSMap.values
           (JSMap.ofEntries (List.map (fun e => (e, e)) entryPoints)))
        (Some [])
  end.

Lemma orderEach_None options depth ys : orderEach options depth ys None = None.
Proof. unfold orderEach. induction ys; simpl; auto. Qed.

Section Order.
Variable options : Options.
Variable entryPoints : list string.
Variable s : Store.
Hypothesis B : built options entryPoints s.

Lemma built_nonempty k r m :
  getModule s k = Some (r, m) -> k <> EmptyString.
Proof.
  intros G ->. apply getModule_has in G.
  destruct (blt_paths _ _ _ B) as [_ N]. congruence.
Qed.

Lemma visitEach_order depth :
  (forall k r m o,
     getModule s k = Some (r, m) ->
     JSMap.keys <$>
       reorderDependencies depth (heap s) (ModuleNode r m)
         (Graph.dependencies (graph s)) o =
     orderFrom options depth k (JSMap.keys o)) ->
  forall ds acc,
    (forall y, y ∈ JSMap.values ds -> inGraph s y) ->
    JSMap.keys <$>
      visitEach depth (heap s) (Graph.dependencies (graph s)) ds acc =
    orderEach options depth (JSMap.values ds) (JSMap.keys <$> acc).
Proof.
  intros Hm. unfold visitEach, orderEach.
  induction ds as [|e ds IH]; intros acc Hy; simpl; [reflexivity|].
  assert (He : inGraph s (snd e)).
  { apply Hy. unfold JSMap.values. simpl. apply list_elem_of_here. }
  rewrite IH.
  - f_equal. destruct acc as [o|]; [|reflexivity]. simpl.
    destruct He as (r & m & G). pose proof G as [Gg Gh]%getModule_Some.
    unfold getNode. rewrite Gg, Gh. now apply Hm.
  - intros y H. apply Hy. unfold JSMap.values. simpl.
    now apply list_elem_of_further.
Qed.

Lemma reorderDependencies_order depth :
  forall k r m o,
    getModule s k = Some (r, m) ->
    JSMap.keys <$>
      reorderDependencies depth (heap s) (ModuleNode r m)
        (Graph.dependencies (graph s)) o =
    orderFrom options depth k (JSMap.keys o).
Proof.
  induction depth as [|depth IH]; intros k r m o G; [reflexivity|].
  rewrite reorderDependencies_unfold.
  pose proof (getModule_path _ _ _ _ (proj1 (blt_paths _ _ _ B)) G) as P.
  pose proof (built_nonempty _ _ _ G) as Hne.
  destruct (blt_module _ _ _ B _ _ _ G) as (D & _ & _).
  simpl. rewrite P.
  destruct (String.eqb_spec k EmptyString) as [|_]; [contradiction|].
  assert (Hb : JSMap.has o k = JSSet.has (JSMap.keys o) k).
  { apply eq_true_iff_eq.
    now rewrite JSMapFacts.has_keys, JSSetFacts.has_elem_of. }
  rewrite <- Hb. destruct (JSMap.has o k) eqn:Ho; [reflexivity|].
  rewrite (visitEach_order depth IH). simpl.
  - rewrite JSMapFacts.keys_set_absent by assumption.
    unfold importsOf. now rewrite <- D.
  - intros y Hy. apply (blt_reach _ _ _ B).
    apply importReach_step with (x := k).
    + apply (blt_reach _ _ _ B). exists r, m. exact G.
    + unfold importsOf. now rewrite <- D.
Qed.

Lemma reorderGraph_order depth g' :
  Graph.entryPoints (graph s) = entryPoints ->
  reorderGraph depth (heap s) (graph s) = Some g' ->
  linearOrder options depth entryPoints =
  Some (JSMap.keys (Graph.dependencies g')).
Proof.
  intros He. unfold reorderGraph, linearOrder. rewrite He.
  destruct depth as [|depth]; [discriminate|].
  rewrite reorderDependencies_unfold. simpl.
  pose proof (visitEach_order depth (reorderDependencies_order depth)
                (JSMap.ofEntries (List.map (fun e => (e, e)) entryPoints))
                (Some [])) as V.
  simpl in V. rewrite <- V.
  - destruct (visitEach _ _ _ _ _) as [o|]; [|discriminate].
    intros [= E]. subst g'. reflexivity.
  - intros y Hy. apply (proj1 (values_entryPoints _ _)) in Hy.
    apply (blt_reach _ _ _ B). now apply importReach_entry.
Qed.

End Order.

(** X15.  The order of the result of such a cold start does not depend on
    the schedule: two cold starts of the same entry points with the same
    [options] return the same paths in the same order, which is the
    depth-first order of the imports from the entry points. *)
Theorem coldStart_order options depth schedule1 schedule2 h1 h2 g
    res1 p1 res2 p2 :
  Graph.dependencies g = [] ->
  ~ importReach options (Graph.entryPoints g) EmptyString ->
  initialTraverseDependencies options depth schedule1 h1 g = Some (res1, p1) ->
  initialTraverseDependencies options depth schedule2 h2 g = Some (res2, p2) ->
  JSMap.keys (Result.added res1) = JSMap.keys (Result.added res2) /\
  linearOrder options depth (Graph.entryPoints g) =
    Some (JSMap.keys (Result.added res1)).
Proof.
  intros Hg Hne I1 I2.
  assert (K : forall schedule h res p,
            initialTraverseDependencies options depth schedule h g =
              Some (res, p) ->
            linearOrder options depth (Graph.entryPoints g) =
            Some (JSMap.keys (Result.added res))).
  { intros schedule h res p I.
    destruct (initialTraverseDependencies_Some _ _ _ _ _ _ _ I)
      as (Ha & _ & res0 & p0 & T & _ & O & _). cbv zeta in T.
    pose proof (coldStart_built options depth schedule h g res0 p0 Hg Hne T)
      as Bt.
    rewrite Ha.
    apply (reorderGraph_order options (Graph.entryPoints g) (store p0) Bt);
      [|exact O].
    apply traverseDependencies_Some in T as (R & _).
    rewrite (traverse_entryPoints _ _ _ _ _ _ _ R).
    apply createModules_entryPoints. }
  pose proof (K _ _ _ _ I1) as K1. pose proof (K _ _ _ _ I2) as K2.
  split; [congruence|exact K1].
Qed.

Lemma coldStart_order_witness :
  exists res1 p1 res2 p2,
    initialTraverseDependencies Scenario.options 4 [0; 1; 3; 3; 1; 2; 2; 0] []
      Scenario.emptyGraph = Some (res1, p1) /\
    initialTraverseDependencies Scenario.options 4 [0; 2; 3; 3; 2; 1; 1; 0] []
      Scenario.emptyGraph = Some (res2, p2) /\
    JSMap.keys (Result.added res1) = JSMap.keys (Result.added res2).
Proof.
  eexists _, _, _, _. split; [vm_compute; reflexivity|].
  split; [vm_compute; reflexivity|].
  edestruct (coldStart_order Scenario.options 4 [0; 1; 3; 3; 1; 2; 2; 0]
               [0; 2; 3; 3; 2; 1; 1; 0] [] [] Scenario.emptyGraph)
    as [K _].
  - reflexivity.
  - exact Scenario_nonempty.
  - vm_compute. reflexivity.
  - vm_compute. reflexivity.
  - exact K.
Defined.

(** ** No module is left without a referrer *)

(** A module of [s'] without referrers was a module of [s] without
    referrers. *)
Definition noOrphan (s s' : Store) : Prop :=
  forall k r m',
    getModule s' k = Some (r, m') -> Mod.inverseDependencies m' = [] ->
    exists m, getModule s k = Some (r, m) /\ Mod.inverseDependencies m = [].

Lemma noOrphan_refl s : noOrphan s s.
Proof. intros k r m G Z. eauto. Qed.

Lemma noOrphan_trans s1 s2 s3 :
  noOrphan s1 s2 -> noOrphan s2 s3 -> noOrphan s1 s3.
Proof.
  intros H12 H23 k r m G Z. destruct (H23 _ _ _ G Z) as (m2 & G2 & Z2).
  eauto.
Qed.

Lemma Removes_noOrphan parentModule absolutePath s s' :
  Removes parentModule absolutePath s s' -> graph_ok s -> noOrphan s s'.
Proof.
  revert parentModule absolutePath s s'.
  apply (Removes_mut (fun _ _ s s' => graph_ok s -> noOrphan s s')
           (fun _ _ s s' => graph_ok s -> noOrphan s s')).
  - intros. apply noOrphan_refl.
  - intros parentModule c s r module G Hne W k r0 m0 G0 Z.
    destruct (getModule_dropInverse _ _ _ _ _ _ _ _ W G G0)
      as [(_ & _ & ->)|(_ & G')]; [contradiction|eauto].
  - intros parentModule c s r module s3 G Z R IH W k r0 m0 G0 Z0.
    apply getModule_graphDelete in G0 as [Hne G0].
    pose proof (getModule_path _ _ _ _ W G) as Pc.
    assert (W1 : graph_ok
                   (markDeleted (Mod.path module)
                      (setHeap (<[r := dropInverse parentModule module]>
                                  (heap s)) s))).
    { apply (graph_ok_insert r _ module); [|reflexivity|exact W].
      now apply getModule_Some in G. }
    destruct (IH W1 _ _ _ G0 Z0) as (m1 & G1 & Z1).
    rewrite getModule_markDeleted in G1.
    destruct (getModule_dropInverse _ _ _ _ _ _ _ _ W G G1)
      as [(-> & _)|(_ & G')]; [congruence|eauto].
  - intros. apply noOrphan_refl.
  - intros parentModule d ds s s1 s2 R1 IH1 _ IH2 W.
    eapply noOrphan_trans; [now apply IH1|]. apply IH2.
    eapply shrinks_graph_ok; [|exact W]. eapply Removes_shrinks; eauto.
Qed.

Lemma addDependency_noOrphan parentModule y root self p :
  graph_ok (store p) ->
  noOrphan (store p) (store (addDependency parentModule y root self p)).
Proof.
  intros W k r m' G' Z.
  destruct (addDependency_from parentModule y root self p k r m' W G')
    as [(_ & _ & _ & ->)|(m & G & _ & _ & _ & _)]; [discriminate|].
  exists m. split; [assumption|].
  destruct (addDependency_keeps parentModule y root self p k r m W G)
    as (m'' & G'' & _ & _ & _ & I).
  assert (m'' = m') by congruence. subst m''.
  apply incl_nil_eq. now rewrite <- Z.
Qed.

(** X16.  A pass leaves no module of the graph without a referrer, unless
    it was in the graph without one before the pass: a module whose last
    referrer a pass removes does not stay in the graph, and every module
    that a pass adds has a referrer. *)
Theorem traverse_noOrphan options depth schedule paths h g res p k r m :
  traverseDependencies options depth schedule paths h g = Some (res, p) ->
  graph_ok (mkStore h g Delta.empty) ->
  getModule (store p) k = Some (r, m) ->
  Mod.inverseDependencies m = [] ->
  exists m0,
    getModule (mkStore h g Delta.empty) k = Some (r, m0) /\
    Mod.inverseDependencies m0 = [].
Proof.
  intros (R & _ & _)%traverseDependencies_Some W.
  set (s0 := mkStore h g Delta.empty) in *.
  enough (graph_ok (store p) /\ noOrphan s0 (store p)) as [_ N]
    by (intros G Z; exact (N _ _ _ G Z)).
  refine (run_invariant
            (fun p => graph_ok (store p) /\ noOrphan s0 (store p))
            options depth _ _ _ _ _ R).
  - intros self q q'.
    apply (advance_invariant (fun s => graph_ok s /\ noOrphan s0 s)).
    + intros s r0 m1 m0 [Ws N] H P I. split.
      * now apply (graph_ok_insert r0 m1 m0).
      * eapply noOrphan_trans; [exact N|].
        intros k0 rk mk [Gg Gh]%getModule_Some Z. simpl in Gg, Gh.
        destruct (decide (rk = r0)) as [->|Hne].
        -- rewrite list_lookup_insert_eq in Gh
             by (eapply lookup_lt_Some; eauto).
           injection Gh as <-. exists m0.
           split; [now apply getModule_Some|congruence].
        -- rewrite list_lookup_insert_ne in Gh by congruence.
           exists mk. split; [now apply getModule_Some|assumption].
    + intros parentModule c s s' [Ws N] Rm%removeDependency_Removes. split.
      * eapply shrinks_graph_ok; [|exact Ws]. eapply Removes_shrinks; eauto.
      * eapply noOrphan_trans; [exact N|]. eapply Removes_noOrphan; eauto.
    + intros parentModule y root self0 q0 [Ws N]. split.
      * now apply addDependency_graph_ok.
      * eapply noOrphan_trans; [exact N|]. now apply addDependency_noOrphan.
  - split; [now apply beginTraverse_graph_ok|].
    intros k0 rk mk G Z. exists mk. split; [|assumption].
    rewrite <- G. symmetry.
    destruct (beginTraverse_store paths h g) as (Hh & Hg & _).
    now apply getModule_ext.
Qed.

Lemma traverse_noOrphan_witness :
  exists res p m0,
    traverseDependencies Scenario.options' 5 [0; 0] [Scenario.A]
      [Mod.mk [(Scenario.B, Scenario.B); (Scenario.C, Scenario.C)] []
         Scenario.A (Scenario.out Scenario.A);
       Edited.moduleB; Edited.moduleC; Edited.moduleD]
      (graph Edited.store0) = Some (res, p) /\
    getModule
      (mkStore
         [Mod.mk [(Scenario.B, Scenario.B); (Scenario.C, Scenario.C)] []
            Scenario.A (Scenario.out Scenario.A);
          Edited.moduleB; Edited.moduleC; Edited.moduleD]
         (graph Edited.store0) Delta.empty) Scenario.A = Some (0, m0) /\
    Mod.inverseDependencies m0 = [].
Proof.
  edestruct (traverse_noOrphan Scenario.options' 5 [0; 0] [Scenario.A]
               [Mod.mk [(Scenario.B, Scenario.B); (Scenario.C, Scenario.C)] []
                  Scenario.A (Scenario.out Scenario.A);
                Edited.moduleB; Edited.moduleC; Edited.moduleD]
               (graph Edited.store0)) with (k := Scenario.A) (r := 0)
    as (m0 & G & Z).
  - vm_compute. reflexivity.
  - apply graph_okb_sound. reflexivity.
  - reflexivity.
  - reflexivity.
  - eexists _, _, m0. split; [vm_compute; reflexivity|]. split; assumption.
Defined.

(** ** Resolved dependencies, and an edge added and removed *)

(** X17.  [resolveDependencies] maps every listed specifier, and no other,
    to the path that [options.resolve] gives for it from the parent; a
    specifier that is listed more than once has one entry. *)
Theorem resolveDependencies_map parentPath dependencies options :
  (forall k,
     JSMap.get (resolveDependencies parentPath dependencies options) k =
     if decide (k ∈ dependencies)
     then Some (resolve options parentPath k) else None) /\
  NoDup (JSMap.keys (resolveDependencies parentPath dependencies options)).
Proof.
  split; [|apply resolveDependencies_NoDup].
  intros k. destruct (decide (k ∈ dependencies)) as [H|H].
  - apply get_resolveDependencies_has. now apply has_resolveDependencies.
  - destruct (JSMap.get _ k) as [v|] eqn:G; [|reflexivity].
    destruct H. apply (has_resolveDependencies parentPath _ options).
    apply JSMapFacts.has_get. eauto.
Qed.

Lemma delete_add_absent (i : JSSet.t) x :
  x ∉ i -> JSSet.delete (JSSet.add i x) x = i.
Proof.
  intros H. unfold JSSet.add.
  apply JSSetFacts.has_false_elem_of in H. rewrite H.
  apply JSSetFacts.has_false_elem_of in H.
  induction i as [|z i IH]; simpl.
  - now rewrite String.eqb_refl.
  - apply not_elem_of_cons in H as [Hne H].
    destruct (String.eqb_spec z x); [congruence|]. now rewrite IH.
Qed.

(** X18.  An edge added to a module of the graph and removed again: when
    the child has referrers and the parent is not one of them, the store
    is what it was before the addition. *)
Theorem add_then_remove parentModule path root self p depth r existingModule :
  getModule (store p) path = Some (r, existingModule) ->
  Mod.path parentModule ∉ Mod.inverseDependencies existingModule ->
  Mod.inverseDependencies existingModule <> [] ->
  removeDependency (S depth) parentModule path
    (store (addDependency parentModule path root self p)) =
  Some (store p).
Proof.
  intros G Hx Hne. pose proof G as [Gg Gh]%getModule_Some.
  unfold addDependency. rewrite G. simpl store.
  rewrite removeDependency_unfold.
  assert (G' : getModule (addInverse r (Mod.path parentModule) (store p)) path
               = Some (r, Mod.withInverse
                            (fun i => JSSet.add i (Mod.path parentModule))
                            existingModule)).
  { unfold getModule, addInverse. simpl. rewrite Gg.
    now rewrite list_lookup_alter_eq, Gh. }
  rewrite G'. cbv zeta. unfold dropInverse, Mod.withInverse. simpl.
  rewrite delete_add_absent by assumption.
  destruct (Mod.inverseDependencies existingModule) as [|q i] eqn:I;
    [contradiction|].
  simpl. f_equal. destruct (store p) as [hp gp dp]. simpl in *.
  unfold setHeap, addInverse. simpl. f_equal. apply list_eq. intros j.
  destruct (decide (r = j)) as [<-|Hj].
  - rewrite list_lookup_insert_eq
      by (rewrite length_alter; eapply lookup_lt_Some; eauto).
    rewrite Gh. f_equal. destruct existingModule. simpl in *. now subst.
  - rewrite list_lookup_insert_ne, list_lookup_alter_ne by assumption.
    reflexivity.
Qed.

Lemma add_then_remove_witness :
  removeDependency 1 Edited.moduleA Scenario.D
    (store (addDependency Edited.moduleA Scenario.D 0 0
              (mkPass Edited.store0 [] [] []))) =
  Some Edited.store0.
Proof.
  apply (add_then_remove Edited.moduleA Scenario.D 0 0
           (mkPass Edited.store0 [] [] []) 0 3 Edited.moduleD).
  - reflexivity.
  - intros H. apply list_elem_of_In in H. simpl in H.
    destruct H as [H|[H|[]]]; discriminate.
  - discriminate.
Defined.

(** ** Modules that refer to each other *)

(** Every path of [S] names a module of the graph that has a referrer in
    [S]: an import cycle, or a set of them. *)
Definition selfSustained (S : string -> Prop) (s : Store) : Prop :=
  forall k, S k ->
    exists r m q,
      getModule s k = Some (r, m) /\ S q /\ q ∈ Mod.inverseDependencies m.

Record sustaining (S : string -> Prop) (d0 : JSMap.t nat) (p : Pass)
  : Prop := mkSustaining {
  sus_graph : graph_ok (store p);
  sus_members : selfSustained S (store p);
  sus_refs :
    forall k, S k ->
      JSMap.get (Graph.dependencies (graph (store p))) k = JSMap.get d0 k;
  sus_deleted : forall k, S k -> k ∉ Delta.deleted (delta (store p));
  sus_tasks :
    forall t, t ∈ tasks p ->
      exists m, heap (store p) !! t_module t = Some m /\ ~ S (Mod.path m);
}.

Lemma Removes_sustained (S : string -> Prop) parentModule absolutePath s s' :
  Removes parentModule absolutePath s s' ->
  graph_ok s -> ~ S (Mod.path parentModule) ->
  selfSustained S s -> selfSustained S s'.
Proof.
  revert parentModule absolutePath s s'.
  apply (Removes_mut
           (fun parent _ s s' =>
              graph_ok s -> ~ S (Mod.path parent) ->
              selfSustained S s -> selfSustained S s')
           (fun parent _ s s' =>
              graph_ok s -> ~ S (Mod.path parent) ->
              selfSustained S s -> selfSustained S s')).
  - auto.
  - intros parentModule c s r module G Hne W Hp Su k Hk.
    destruct (Su k Hk) as (rk & mk & q & Gk & Hq & Iq).
    destruct (insert_effect s c r module (dropInverse parentModule module) W G)
      as [Gc Gne].
    destruct (decide (k = c)) as [->|Hkc].
    + rewrite G in Gk. injection Gk as <- <-.
      exists r, (dropInverse parentModule module), q.
      split_and!; [assumption..|]. simpl.
      apply JSSetFacts.elem_of_delete. split; [|assumption].
      intros ->. contradiction.
    + exists rk, mk, q. rewrite Gne by assumption. auto.
  - intros parentModule c s r module s3 G Z R IH W Hp Su k Hk.
    pose proof (getModule_path _ _ _ _ W G) as Pc.
    destruct (insert_effect s c r module (dropInverse parentModule module) W G)
      as [Gc Gne].
    assert (Hc : ~ S c).
    { intros Sc. destruct (Su c Sc) as (rc & mc & q & Gq & Hq & Iq).
      rewrite G in Gq. injection Gq as <- <-.
      assert (Hd : q ∈ Mod.inverseDependencies
                         (dropInverse parentModule module)).
      { simpl. apply JSSetFacts.elem_of_delete. split; [|assumption].
        intros ->. contradiction. }
      rewrite Z in Hd. now apply elem_of_nil in Hd. }
    assert (W1 : graph_ok
                   (markDeleted (Mod.path module)
                      (setHeap (<[r := dropInverse parentModule module]>
                                  (heap s)) s))).
    { apply (graph_ok_insert r _ module); [|reflexivity|exact W].
      now apply getModule_Some in G. }
    destruct (IH W1) with (k := k) as (rk & mk & q & Gk & Hq & Iq);
      [simpl; now rewrite Pc| |assumption|].
    + intros k' Hk'. destruct (Su k' Hk') as (rk & mk & q & Gk & Hq & Iq).
      exists rk, mk, q. rewrite getModule_markDeleted, Gne; [auto|].
      intros ->. contradiction.
    + exists rk, mk, q. split; [|auto].
      apply getModule_graphDelete. split; [|assumption].
      rewrite Pc. intros ->. contradiction.
  - auto.
  - intros parentModule d ds s s1 s2 R1 IH1 _ IH2 W Hp Su.
    apply IH2; [|assumption|now apply IH1].
    eapply shrinks_graph_ok; [|exact W]. eapply Removes_shrinks; eauto.
Qed.

Lemma removeDependency_sustained (S : string -> Prop) d0 depth parentModule c
    p s' :
  sustaining S d0 p -> ~ S (Mod.path parentModule) ->
  removeDependency depth parentModule c (store p) = Some s' ->
  sustaining S d0 (setStore s' p).
Proof.
  intros [W Su Rf De Ta] Hp R%removeDependency_Removes.
  pose proof (Removes_shrinks _ _ _ _ R) as Sh.
  pose proof (Removes_sustained S _ _ _ _ R W Hp Su) as Su'.
  constructor; simpl.
  - eapply shrinks_graph_ok; eauto.
  - exact Su'.
  - intros k Hk. destruct (Su' k Hk) as (r & m & q & [G _]%getModule_Some & _).
    rewrite G, <- (Rf k Hk). symmetry. now apply (shr_graph _ _ Sh).
  - intros k Hk Hd.
    destruct (cas_deleted _ _ _ _ (Removes_cascade_facts _ _ _ _ R W) k Hd)
      as [Hd'|[_ Hg]]; [now apply (De k)|].
    destruct (Su' k Hk) as (r & m & q & G & _).
    apply getModule_has in G. congruence.
  - intros t Ht. destruct (Ta _ Ht) as (m & H & Hm).
    destruct (shr_heap _ _ Sh _ _ H) as (m' & H' & _ & P & _).
    exists m'. split; [assumption|]. now rewrite P.
Qed.

Lemma removeDropped_sustained (S : string -> Prop) d0 depth module current :
  ~ S (Mod.path module) ->
  forall previous p s',
    sustaining S d0 p ->
    removeDropped depth module current previous (store p) = Some s' ->
    sustaining S d0 (setStore s' p).
Proof.
  intros Hp. unfold removeDropped.
  induction previous as [|e previous IH]; intros p s' Su H; simpl in H.
  - injection H as <-. now destruct p.
  - destruct (JSMap.has current (fst e)); [eauto|].
    destruct (removeDependency depth module (snd e) (store p)) as [s1|] eqn:E.
    + apply (removeDependency_sustained S d0 _ _ _ _ _ Su Hp) in E.
      specialize (IH (setStore s1 p) s' E H). exact IH.
    + exfalso. clear -H. induction previous; simpl in H; [discriminate|auto].
Qed.

Lemma addDependency_sustained (S : string -> Prop) d0 parentModule y root self p :
  sustaining S d0 p -> sustaining S d0 (addDependency parentModule y root self p).
Proof.
  intros [W Su Rf De Ta].
  assert (Keep := fun k r m =>
            addDependency_keeps parentModule y root self p k r m W).
  pose proof (addDependency_keepsFields parentModule y root self p) as KF.
  constructor.
  - now apply addDependency_graph_ok.
  - intros k Hk. destruct (Su k Hk) as (r & m & q & G & Hq & Iq).
    destruct (Keep _ _ _ G) as (m' & G' & _ & _ & _ & I).
    exists r, m', q. auto.
  - intros k Hk. destruct (Su k Hk) as (r & m & q & G & _).
    destruct (Keep _ _ _ G) as (m' & [G' _]%getModule_Some & _).
    apply getModule_Some in G as [G _]. rewrite G', <- (Rf k Hk). now symmetry.
  - rewrite addDependency_deleted. exact De.
  - intros t Ht.
    assert (Old : t ∈ tasks p ->
              exists m,
                heap (store (addDependency parentModule y root self p))
                  !! t_module t = Some m /\ ~ S (Mod.path m)).
    { intros Ht'. destruct (Ta _ Ht') as (m & H & Hm).
      destruct (KF _ _ H) as (m' & H' & _ & P & _).
      exists m'. split; [assumption|]. now rewrite P. }
    destruct (addDependency_effect parentModule y root self p W) as [_ Ey].
    destruct (getModule (store p) y) as [[r0 m0]|] eqn:G0;
      destruct Ey as [Ey Tk]; rewrite Tk in Ht; [auto|].
    apply elem_of_app in Ht as [Ht|Ht]; [auto|].
    apply list_elem_of_singleton in Ht as ->. simpl.
    apply getModule_Some in Ey as [_ Ey]. eexists. split; [exact Ey|].
    simpl. intros Sy. destruct (Su y Sy) as (r & m & q & G & _). congruence.
Qed.

Lemma addNew_sustained (S : string -> Prop) d0 module previous root self :
  forall current p,
    sustaining S d0 p ->
    sustaining S d0 (addNew module previous current root self p).
Proof.
  unfold addNew. induction current as [|e current IH]; intros p Su; simpl;
    [assumption|].
  apply IH. destruct (JSMap.has previous (fst e)); [assumption|].
  now apply addDependency_sustained.
Qed.

Lemma sustaining_status (S : string -> Prop) d0 p p' st self :
  sustaining S d0 p -> store p' = store p ->
  tasks p' = alter (setStatus st) self (tasks p) ->
  sustaining S d0 p'.
Proof.
  intros [W Su Rf De Ta] Hs Ht. constructor; rewrite ?Hs; auto.
  rewrite Ht. intros t [i Hi]%list_elem_of_lookup.
  destruct (decide (self = i)) as [<-|Hne].
  - rewrite list_lookup_alter_eq in Hi.
    destruct (tasks p !! self) as [t0|] eqn:H0; [|discriminate].
    injection Hi as <-. simpl. apply Ta. eapply list_elem_of_lookup_2; eauto.
  - rewrite list_lookup_alter_ne in Hi by assumption.
    apply Ta. eapply list_elem_of_lookup_2; eauto.
Qed.

Lemma advance_sustained (S : string -> Prop) d0 options depth self p p' :
  sustaining S d0 p -> advance options depth self p = Some p' ->
  sustaining S d0 p'.
Proof.
  intros Su. unfold advance.
  destruct (tasks p !! self) as [task|] eqn:H; [|discriminate].
  assert (Ht : task ∈ tasks p) by (eapply list_elem_of_lookup_2; eauto).
  destruct (t_status task); [| |discriminate].
  - destruct (sus_tasks _ _ _ Su _ Ht) as (m0 & H0 & Hm0).
    unfold processModule_resume. rewrite H0. cbv zeta.
    set (current := resolveDependencies (Mod.path m0)
                      (tr_dependencies (transform options (Mod.path m0)))
                      options).
    set (module := Mod.mk (JSMap.setAll [] current)
                     (Mod.inverseDependencies m0) (Mod.path m0)
                     (tr_output (transform options (Mod.path m0)))).
    set (s1 := setHeap (<[t_module task := module]> (heap (store p)))
                 (store p)).
    assert (Su1 : sustaining S d0 (setStore s1 p)).
    { destruct Su as [W Sm Rf De Ta]. constructor; simpl.
      - now apply (graph_ok_insert _ module m0).
      - intros k Hk. destruct (Sm k Hk) as (r & m & q & G & Hq & Iq).
        exists r, m, q. split; [|auto].
        pose proof G as [Gg Gh]%getModule_Some.
        apply getModule_Some. split; [exact Gg|]. simpl.
        rewrite list_lookup_insert_ne; [assumption|]. intros E.
        rewrite E in H0.
        pose proof (getModule_path _ _ _ _ W G) as P.
        assert (m = m0) by congruence. subst m. congruence.
      - exact Rf.
      - exact De.
      - intros t Ht'. destruct (Ta _ Ht') as (m & Hm & Hs).
        destruct (decide (t_module task = t_module t)) as [E|Hne].
        + exists module. rewrite <- E.
          rewrite list_lookup_insert_eq by (eapply lookup_lt_Some; eauto).
          split; [reflexivity|exact Hm0].
        + exists m. now rewrite list_lookup_insert_ne. }
    destruct (removeDropped depth module current
                (t_previousDependencies task) s1) as [s2|] eqn:E;
      [|discriminate].
    intros [= <-].
    set (p3 := addNew module (t_previousDependencies task) current
                 (t_root task) self (setStore s2 p)).
    apply (sustaining_status S d0 p3 _ AwaitChildren self);
      [|reflexivity|reflexivity].
    apply addNew_sustained.
    apply (removeDropped_sustained S d0 depth module current Hm0
             (t_previousDependencies task) (setStore s1 p) s2 Su1 E).
  - destruct (childrenCompleted self (tasks p)); [|discriminate].
    intros [= <-].
    apply (sustaining_status S d0 p _ Completed self);
      [exact Su|reflexivity..].
Qed.

(** X19.  Counting referrers does not collect cycles.  When every path of
    a set names a module that has a referrer in the set, and no changed
    path is in the set, a pass keeps every module of the set in the graph,
    as the same object, with a referrer in the set, and reports none of
    them as deleted: whatever the changed files stop importing, and
    whether or not an entry point still reaches the set. *)
Theorem traverse_keeps_cycles (S : string -> Prop) options depth schedule
    paths h g res p :
  traverseDependencies options depth schedule paths h g = Some (res, p) ->
  graph_ok (mkStore h g Delta.empty) ->
  selfSustained S (mkStore h g Delta.empty) ->
  (forall path, path ∈ paths -> ~ S path) ->
  forall k, S k ->
    (exists r m0 m q,
       getModule (mkStore h g Delta.empty) k = Some (r, m0) /\
       getModule (store p) k = Some (r, m) /\
       S q /\ q ∈ Mod.inverseDependencies m) /\
    (k ∉ Result.deleted res).
Proof.
  intros (R & _ & ->)%traverseDependencies_Some W Su Hp k Hk.
  assert (Sp : sustaining S (Graph.dependencies g) p).
  { refine (run_invariant (sustaining S (Graph.dependencies g)) options depth
              _ _ _ _ _ R).
    - intros self q q'. apply advance_sustained.
    - destruct (beginTraverse_store paths h g) as (Hh & Hg & _ & Hd).
      destruct (beginTraverse_tasks paths h g) as (Tk & _).
      assert (E : forall k0,
                getModule (store (beginTraverse paths h g)) k0 =
                getModule (mkStore h g Delta.empty) k0)
        by (intros k0; now apply getModule_ext).
      constructor.
      + now apply beginTraverse_graph_ok.
      + intros k0 Hk0. destruct (Su k0 Hk0) as (r & m & q & G & Hq & Iq).
        exists r, m, q. rewrite E. auto.
      + intros k0 _. now rewrite Hg.
      + intros k0 _. rewrite Hd. apply not_elem_of_nil.
      + intros t Ht. destruct (Tk t Ht) as (path & r & m & Hin & G & <- & _).
        pose proof (getModule_path _ _ _ _ W G) as P.
        apply getModule_Some in G as [_ G]. simpl in G.
        exists m. rewrite Hh. split; [assumption|]. rewrite P. auto. }
  destruct Sp as [W' Su' Rf De _].
  destruct (Su k Hk) as (r0 & m0 & _ & G0 & _).
  destruct (Su' k Hk) as (r & m & q & G & Hq & Iq).
  split.
  - exists r, m0, m, q. split_and!; try assumption.
    enough (r0 = r) by congruence.
    apply getModule_Some in G as [Gg _].
    apply getModule_Some in G0 as [G0g _]. simpl in G0g.
    rewrite (Rf k Hk) in Gg. congruence.
  - intros Hd. unfold reconcile in Hd. simpl in Hd.
    apply reconcileDeleted_sub in Hd as [Hd|Hd];
      [now apply (De k)|now apply elem_of_nil in Hd].
Qed.

(** [A] imported [B]; [B] and [C] import each other; [A] is edited and
    imports nothing. *)
Module Island.
Definition A : string := "A"%string.
Definition B : string := "B"%string.
Definition C : string := "C"%string.

Definition options : Options :=
  mkOptions (fun _ specifier => specifier)
    (fun path =>
       mkTransformResult
         (if String.eqb path B then [C]
          else if String.eqb path C then [B] else [])
         emptyOutput).

Definition heap0 : list Mod.t :=
  [Mod.mk [(B, B)] [] A emptyOutput;
   Mod.mk [(C, C)] [A; C] B emptyOutput;
   Mod.mk [(B, B)] [B] C emptyOutput].

Definition graph0 : Graph.t := Graph.mk [(A, 0); (B, 1); (C, 2)] [A].

Definition cycle (k : string) : Prop := k = B \/ k = C.
End Island.

Lemma traverse_keeps_cycles_witness :
  exists res p g',
    traverseDependencies Island.options 5 [0; 0] [Island.A] Island.heap0
      Island.graph0 = Some (res, p) /\
    JSMap.has (Graph.dependencies (graph (store p))) Island.B = true /\
    (Island.B ∉ Result.deleted res) /\
    reorderGraph 5 (heap (store p)) (graph (store p)) = Some g' /\
    JSMap.keys (Graph.dependencies g') = [Island.A].
Proof.
  edestruct (traverse_keeps_cycles Island.cycle Island.options 5 [0; 0]
               [Island.A] Island.heap0 Island.graph0)
    with (k := Island.B) as [(r & m0 & m & q & _ & G & _) D].
  - vm_compute. reflexivity.
  - apply graph_okb_sound. reflexivity.
  - intros k [-> | ->].
    + exists 1, (Mod.mk [(Island.C, Island.C)] [Island.A; Island.C] Island.B
                   emptyOutput), Island.C.
      split; [reflexivity|]. split; [now right|].
      apply list_elem_of_further, list_elem_of_here.
    + exists 2, (Mod.mk [(Island.B, Island.B)] [Island.B] Island.C
                   emptyOutput), Island.B.
      split; [reflexivity|]. split; [now left|apply list_elem_of_here].
  - intros path Hp [E|E]; apply list_elem_of_singleton in Hp; subst path;
      discriminate.
  - now left.
  - eexists _, _, _. split; [vm_compute; reflexivity|].
    split; [eapply getModule_has; exact G|].
    split; [exact D|]. split; [vm_compute; reflexivity|reflexivity].
Defined.

(** ** The modules of the result are transformed *)

(** The module has the dependencies and the output that its transform
    gives. *)
Definition upToDate (options : Options) (m : Mod.t) : Prop :=
  Mod.dependencies m =
    resolveDependencies (Mod.path m)
      (tr_dependencies (transform options (Mod.path m))) options /\
  Mod.output m = tr_output (transform options (Mod.path m)).

Lemma keepsFields_upToDate options h h' r m :
  keepsFields h h' -> h !! r = Some m -> upToDate options m ->
  exists m', h' !! r = Some m' /\ upToDate options m'.
Proof.
  intros K H [D O]. destruct (K _ _ H) as (m' & H' & D' & P' & O').
  exists m'. split; [assumption|]. unfold upToDate. now rewrite D', P', O'.
Qed.

(** Every call of [processModule] that is past its transform has brought
    its module up to date, and every module that the delta records as
    added or modified has such a call. *)
Record processing (options : Options) (p : Pass) : Prop := mkProcessing {
  prc_tasks :
    forall t, t ∈ tasks p -> t_status t <> AwaitTransform ->
      exists m, heap (store p) !! t_module t = Some m /\ upToDate options m;
  prc_added :
    forall k r, (k, r) ∈ Delta.added (delta (store p)) ->
      exists t, t ∈ tasks p /\ t_module t = r;
  prc_modified :
    forall k r, (k, r) ∈ Delta.modified (delta (store p)) ->
      exists t, t ∈ tasks p /\ t_module t = r;
}.

Lemma addDependency_recorded parentModule y root self p k r :
  (k, r) ∈ Delta.added
             (delta (store (addDependency parentModule y root self p))) ->
  (k, r) ∈ Delta.added (delta (store p)) \/
  exists t,
    t ∈ tasks (addDependency parentModule y root self p) /\ t_module t = r.
Proof.
  unfold addDependency. destruct (getModule (store p) y) as [[r0 m0]|];
    simpl; [auto|].
  intros [[= -> ->]|H]%elem_of_set; [right|auto].
  eexists. split; [apply elem_of_app; right; apply list_elem_of_here|].
  reflexivity.
Qed.

Lemma addNew_recorded module previous root self :
  forall current p k r,
    (k, r) ∈ Delta.added
               (delta (store (addNew module previous current root self p))) ->
    (k, r) ∈ Delta.added (delta (store p)) \/
    exists t,
      t ∈ tasks (addNew module previous current root self p) /\
      t_module t = r.
Proof.
  unfold addNew. induction current as [|e current IH]; intros p k r H; simpl;
    [auto|].
  simpl in H. destruct (IH _ _ _ H) as [H'|H']; [|auto].
  destruct (JSMap.has previous (fst e)); [auto|].
  destruct (addDependency_recorded _ _ _ _ _ _ _ H') as [H''|(t & Ht & Hr)];
    [auto|right].
  exists t. split; [|assumption].
  fold (addNew module previous current root self
          (addDependency module (snd e) root self p)).
  destruct (addNew_extends module previous current root self
              (addDependency module (snd e) root self p)) as [[new ->] _].
  apply elem_of_app. auto.
Qed.

Lemma addNew_started module previous root self :
  forall current p,
    exists new,
      tasks (addNew module previous current root self p) = tasks p ++ new /\
      forall t, t ∈ new -> t_status t = AwaitTransform.
Proof.
  unfold addNew. induction current as [|e current IH]; intros p; simpl.
  - exists []. split; [now rewrite app_nil_r|].
    intros t Ht. now apply elem_of_nil in Ht.
  - destruct (JSMap.has previous (fst e)); [apply IH|].
    destruct (IH (addDependency module (snd e) root self p))
      as (new & Tk & St).
    destruct (addDependency_book module (snd e) root self p)
      as [(T1 & _)|(r & T1 & _)]; rewrite T1 in Tk.
    + exists new. auto.
    + eexists. rewrite Tk, <- app_assoc. split; [reflexivity|].
      intros t [Ht|Ht]%elem_of_app; [|auto].
      now apply list_elem_of_singleton in Ht as ->.
Qed.

Lemma advance_processing options depth self p p' :
  processing options p -> advance options depth self p = Some p' ->
  processing options p'.
Proof.
  intros [Ta Ad Mo]. unfold advance.
  destruct (tasks p !! self) as [task|] eqn:H; [|discriminate].
  destruct (t_status task) eqn:St; [| |discriminate].
  - unfold processModule_resume.
    destruct (heap (store p) !! t_module task) as [m0|] eqn:H0;
      [|discriminate].
    cbv zeta.
    set (current := resolveDependencies (Mod.path m0)
                      (tr_dependencies (transform options (Mod.path m0)))
                      options).
    set (module := Mod.mk (JSMap.setAll [] current)
                     (Mod.inverseDependencies m0) (Mod.path m0)
                     (tr_output (transform options (Mod.path m0)))).
    set (s1 := setHeap (<[t_module task := module]> (heap (store p)))
                 (store p)).
    destruct (removeDropped depth module current
                (t_previousDependencies task) s1) as [s2|] eqn:E;
      [|discriminate].
    intros [= <-].
    set (p3 := addNew module (t_previousDependencies task) current
                 (t_root task) self (setStore s2 p)).
    pose proof (removeDropped_shrinks _ _ _ _ _ _ E) as Sh.
    assert (K : keepsFields (heap s1) (heap (store p3))).
    { eapply keepsFields_trans; [apply (shrinks_keepsFields _ _ Sh)|].
      apply (addNew_keepsFields module (t_previousDependencies task) current
               (t_root task) self (setStore s2 p)). }
    assert (Um : upToDate options module).
    { split; [apply copy_resolveDependencies|reflexivity]. }
    assert (U1 : forall t, t ∈ tasks p ->
              t_status t <> AwaitTransform \/ t_module t = t_module task ->
              exists m, heap s1 !! t_module t = Some m /\ upToDate options m).
    { intros t Ht Hs. simpl.
      destruct (decide (t_module task = t_module t)) as [Er|Hne].
      - exists module. rewrite <- Er.
        rewrite list_lookup_insert_eq by (eapply lookup_lt_Some; eauto).
        auto.
      - destruct Hs as [Hs|Hs]; [|congruence].
        destruct (Ta _ Ht Hs) as (m & Hm & Um').
        exists m. now rewrite list_lookup_insert_ne. }
    destruct (addNew_started module (t_previousDependencies task) (t_root task) self
                current (setStore s2 p)) as (new & Tk & New).
    fold p3 in Tk. simpl in Tk.
    constructor; simpl.
    + intros t [i Hi]%list_elem_of_lookup Hs.
      destruct (decide (self = i)) as [<-|Hne].
      * rewrite list_lookup_alter_eq, Tk, (lookup_app_l_Some _ _ _ _ H) in Hi.
        injection Hi as <-. simpl.
        destruct (U1 task) as (m & Hm & Um');
          [eapply list_elem_of_lookup_2; eauto|auto|].
        eapply keepsFields_upToDate; eauto.
      * rewrite list_lookup_alter_ne in Hi by assumption. rewrite Tk in Hi.
        apply list_elem_of_lookup_2, elem_of_app in Hi as [Hi|Hi].
        -- destruct (U1 t Hi) as (m & Hm & Um'); [auto|].
           eapply keepsFields_upToDate; eauto.
        -- now destruct Hs; apply New.
    + intros k r Hk.
      assert (In3 : forall t, t ∈ tasks p3 ->
                exists t', t' ∈ alter (setStatus AwaitChildren) self (tasks p3)
                           /\ t_module t' = t_module t).
      { intros t [i Hi]%list_elem_of_lookup.
        destruct (decide (self = i)) as [<-|Hne].
        - exists (setStatus AwaitChildren t). split; [|reflexivity].
          apply list_elem_of_lookup. exists self.
          now rewrite list_lookup_alter_eq, Hi.
        - exists t. split; [|reflexivity]. apply list_elem_of_lookup.
          exists i. now rewrite list_lookup_alter_ne. }
      destruct (addNew_recorded _ _ _ _ _ _ _ _ Hk) as [Hk'|(t & Ht & Hr)].
      * simpl in Hk'. rewrite (shr_added _ _ Sh) in Hk'. simpl in Hk'.
        destruct (Ad _ _ Hk') as (t & Ht & Hr).
        destruct (In3 t) as (t' & Ht' & Hr');
          [fold p3; rewrite Tk; apply elem_of_app; auto|].
        exists t'. split; [assumption|congruence].
      * destruct (In3 t Ht) as (t' & Ht' & Hr').
        exists t'. split; [assumption|congruence].
    + intros k r Hk. unfold p3 in Hk. rewrite addNew_modified in Hk.
      simpl in Hk.
      rewrite (shr_modified _ _ Sh) in Hk. simpl in Hk.
      destruct (Mo _ _ Hk) as (t & [i Hi]%list_elem_of_lookup & Hr).
      destruct (decide (self = i)) as [<-|Hne].
      * exists (setStatus AwaitChildren t). split; [|assumption].
        apply list_elem_of_lookup. exists self. fold p3.
        now rewrite list_lookup_alter_eq, Tk, (lookup_app_l_Some _ _ _ _ Hi).
      * exists t. split; [|assumption]. apply list_elem_of_lookup.
        exists i. fold p3. rewrite list_lookup_alter_ne by assumption.
        rewrite Tk. now apply lookup_app_l_Some.
  - destruct (childrenCompleted self (tasks p)); [|discriminate].
    intros [= <-].
    assert (In3 : forall t, t ∈ tasks p ->
              exists t', t' ∈ alter (setStatus Completed) self (tasks p)
                         /\ t_module t' = t_module t).
    { intros t [i Hi]%list_elem_of_lookup.
      destruct (decide (self = i)) as [<-|Hne].
      - exists (setStatus Completed t). split; [|reflexivity].
        apply list_elem_of_lookup. exists self.
        now rewrite list_lookup_alter_eq, Hi.
      - exists t. split; [|reflexivity]. apply list_elem_of_lookup.
        exists i. now rewrite list_lookup_alter_ne. }
    constructor; simpl.
    + intros t [i Hi]%list_elem_of_lookup Hs.
      destruct (decide (self = i)) as [<-|Hne].
      * rewrite list_lookup_alter_eq, H in Hi. injection Hi as <-. simpl.
        apply Ta; [eapply list_elem_of_lookup_2; eauto|congruence].
      * rewrite list_lookup_alter_ne in Hi by assumption.
        apply Ta; [eapply list_elem_of_lookup_2; eauto|assumption].
    + intros k r Hk. destruct (Ad _ _ Hk) as (t & Ht & Hr).
      destruct (In3 t Ht) as (t' & Ht' & Hr'). exists t'.
      split; [assumption|congruence].
    + intros k r Hk. destruct (Mo _ _ Hk) as (t & Ht & Hr).
      destruct (In3 t Ht) as (t' & Ht' & Hr'). exists t'.
      split; [assumption|congruence].
Qed.

Lemma beginTraverse_processing options paths h g :
  processing options (beginTraverse paths h g).
Proof.
  unfold beginTraverse.
  enough (forall p,
            (forall t, t ∈ tasks p -> t_status t = AwaitTransform) ->
            (forall k r, (k, r) ∈ Delta.modified (delta (store p)) ->
               exists t, t ∈ tasks p /\ t_module t = r) ->
            let p' := fold_left (fun p path => traversePath path p) paths p in
            (forall t, t ∈ tasks p' -> t_status t = AwaitTransform) /\
            (forall k r, (k, r) ∈ Delta.modified (delta (store p')) ->
               exists t, t ∈ tasks p' /\ t_module t = r)) as K.
  { destruct (K (mkPass (mkStore h g Delta.empty) [] [] [])) as [St Mo].
    - intros t Ht. now apply elem_of_nil in Ht.
    - intros k r Hk. now apply elem_of_nil in Hk.
    - constructor.
      + intros t Ht Hs. now destruct Hs; apply St.
      + intros k r Hk.
        destruct (traversePaths_store paths
                    (mkPass (mkStore h g Delta.empty) [] [] []))
          as (_ & _ & Ha & _).
        simpl in Ha. rewrite Ha in Hk. now apply elem_of_nil in Hk.
      + exact Mo. }
  induction paths as [|path paths IH]; intros p St Mo; simpl; [auto|].
  apply IH; unfold traversePath;
    destruct (getModule (store p) path) as [[r m]|]; auto; simpl.
  - intros t [Ht|Ht]%elem_of_app; [auto|].
    now apply list_elem_of_singleton in Ht as ->.
  - intros k r0 [[= -> ->]|Hk]%elem_of_set.
    + eexists. split; [apply elem_of_app; right; apply list_elem_of_here|].
      reflexivity.
    + destruct (Mo _ _ Hk) as (t & Ht & Hr). exists t.
      split; [apply elem_of_app; auto|assumption].
Qed.

(** X20.  Every module of [added] in the result of a pass has been
    brought up to date by the pass: its dependencies are what
    [resolveDependencies] gives for its transform, and its output is the
    output of its transform. *)
Theorem traverse_transformed options depth schedule paths h g res p k r :
  traverseDependencies options depth schedule paths h g = Some (res, p) ->
  JSMap.get (Result.added res) k = Some r ->
  exists m,
    heap (store p) !! r = Some m /\
    Mod.dependencies m =
      resolveDependencies (Mod.path m)
        (tr_dependencies (transform options (Mod.path m))) options /\
    Mod.output m = tr_output (transform options (Mod.path m)).
Proof.
  intros (R & A & ->)%traverseDependencies_Some G.
  assert (P : processing options p).
  { refine (run_invariant (processing options) options depth _ _ _ _ _ R).
    - intros self q q'. apply advance_processing.
    - apply beginTraverse_processing. }
  destruct P as [Ta Ad Mo].
  unfold reconcile in G. simpl in G. apply reconcileDeleted_get in G.
  simpl in G.
  assert (T : exists t, t ∈ tasks p /\ t_module t = r).
  { apply get_setAll_Some in G as [G|G]; [eauto|].
    apply get_setAll_Some in G as [G|G]; [eauto|discriminate]. }
  destruct T as (t & Ht & <-).
  destruct (Ta t Ht) as (m & H & D & O); [|eauto].
  pose proof Ht as [i Hi]%list_elem_of_lookup.
  rewrite (allCompleted_lookup _ _ _ A Hi). discriminate.
Qed.

Lemma traverse_transformed_witness :
  exists res p m,
    traverseDependencies Scenario.options' 5 [0; 0] [Scenario.A]
      [Mod.mk [(Scenario.B, Scenario.B); (Scenario.C, Scenario.C)] []
         Scenario.A (Scenario.out Scenario.A);
       Edited.moduleB; Edited.moduleC; Edited.moduleD]
      (graph Edited.store0) = Some (res, p) /\
    heap (store p) !! 0 = Some m /\
    Mod.dependencies m = [(Scenario.C, Scenario.C)].
Proof.
  edestruct (traverse_transformed Scenario.options' 5 [0; 0] [Scenario.A]
               [Mod.mk [(Scenario.B, Scenario.B); (Scenario.C, Scenario.C)] []
                  Scenario.A (Scenario.out Scenario.A);
                Edited.moduleB; Edited.moduleC; Edited.moduleD]
               (graph Edited.store0)) with (k := Scenario.A) (r := 0)
    as (m & H & D & _).
  - vm_compute. reflexivity.
  - reflexivity.
  - eexists _, _, m. split; [vm_compute; reflexivity|].
    split; [exact H|]. rewrite D. vm_compute in H. injection H as <-.
    reflexivity.
Defined.
